(** * Gated dilated causal convolutions for SMILES generation

    A shallow embedding of [model.py] (ConvLayer, GenEncoder, GEN) and of
    [gen.py] (loss framing, model selection, autoregressive sampling),
    together with the properties the specification states about them.

    Tensors are nested lists in the layout the code uses (channel-first
    [(C, L)] inside the convolutions, position-first [(L, E)] around them);
    learned parameters of fixed shape are index functions.  The float
    arithmetic of the numeric backend is an interface, [Scalar]: every
    statement below holds for any carrier and any operations. *)

From Stdlib Require Import String Ascii.
From Stdlib Require Import List Arith Lia Bool ZArith.
Import ListNotations.

Set Implicit Arguments.

(** ** Errors

    A raised Python exception is [None]. *)

Definition bind {A B : Type} (m : option A) (f : A -> option B) : option B :=
  match m with
  | Some a => f a
  | None => None
  end.

Notation "x <- m ;; k" := (bind m (fun x => k))
  (at level 61, m at next level, right associativity).

Fixpoint mapM {A B : Type} (f : A -> option B) (l : list A) : option (list B) :=
  match l with
  | [] => Some []
  | a :: l' => b <- f a ;; bs <- mapM f l' ;; Some (b :: bs)
  end.

Definition map2 {A B C : Type} (f : A -> B -> C) (l1 : list A) (l2 : list B) : list C :=
  map (fun ab => f (fst ab) (snd ab)) (combine l1 l2).

Definition imap {A B : Type} (f : nat -> A -> B) (l : list A) : list B :=
  map2 f (seq 0 (length l)) l.

(** ** The numeric backend *)

Class Scalar (R : Type) : Type := {
  rzero : R;
  rone : R;
  radd : R -> R -> R;
  rsub : R -> R -> R;
  rmul : R -> R -> R;
  rdiv : R -> R -> R;
  rexp : R -> R;
  rlog : R -> R;
  rsqrt : R -> R;
  rsigmoid : R -> R;
  rltb : R -> R -> bool;
  rofnat : nat -> R
}.

(** Integers, for running the definitions on concrete inputs. *)
#[export] Instance Z_Scalar : Scalar Z := {|
  rzero := 0%Z;
  rone := 1%Z;
  radd := Z.add;
  rsub := Z.sub;
  rmul := Z.mul;
  rdiv := Z.div;
  rexp := fun x => x;
  rlog := fun x => x;
  rsqrt := Z.sqrt;
  rsigmoid := fun x => x;
  rltb := Z.ltb;
  rofnat := Z.of_nat
|}.

(** ** Tensor operations (torch) *)

Section Tensors.
Context {R : Type} `{Scalar R}.

(** Size of the last dimension of a two-dimensional tensor. *)
Definition width (x : list (list R)) : nat :=
  match x with
  | [] => 0
  | r :: _ => length r
  end.

(** [tab C L F] is the [(C, L)] tensor with entries [F c t]. *)
Definition tab (C L : nat) (F : nat -> nat -> R) : list (list R) :=
  map (fun c => map (F c) (seq 0 L)) (seq 0 C).

Definition sum_n (n : nat) (f : nat -> R) : R :=
  fold_left radd (map f (seq 0 n)) rzero.

(** [x.transpose] of a tensor whose last dimension has size [n]. *)
Definition transpose (n : nat) (x : list (list R)) : list (list R) :=
  map (fun c => map (fun row => nth c row rzero) x) (seq 0 n).

(** [row[:-p]]: Python reads the stop index [-0] as [0]. *)
Definition slice_until_neg (p : nat) (row : list R) : list R :=
  firstn (if p =? 0 then 0 else length row - p) row.

(** Broadcasting [a + b] along the last dimension. *)
Definition add_rows (a b : list R) : option (list R) :=
  if length a =? length b then Some (map2 radd a b)
  else match a, b with
       | [a0], _ => Some (map (radd a0) b)
       | _, [b0] => Some (map (fun v => radd v b0) a)
       | _, _ => None
       end.

(** Broadcasting [a + b] of two-dimensional tensors. *)
Definition tensor_add (a b : list (list R)) : option (list (list R)) :=
  if length a =? length b
  then mapM (fun ab => add_rows (fst ab) (snd ab)) (combine a b)
  else match a, b with
       | [a0], _ => mapM (add_rows a0) b
       | _, [b0] => mapM (fun r => add_rows r b0) a
       | _, _ => None
       end.

(** [nn.GLU(dim=1)]: first half of the channels times the sigmoid of the
    second half; an odd channel count is an error. *)
Definition GLU (y : list (list R)) : option (list (list R)) :=
  let h := length y / 2 in
  if Nat.even (length y)
  then Some (map2 (map2 (fun a b => rmul a (rsigmoid b))) (firstn h y) (skipn h y))
  else None.

(** [nn.Dropout(p)]: the identity in inference mode ([None]); in training
    mode the backend draws a keep-mask, zeroes the dropped entries and
    scales the kept ones by [1 / (1 - p)]. *)
Definition Dropout (p : R) (md : option (nat -> nat -> bool)) (x : list (list R))
  : list (list R) :=
  match md with
  | None => x
  | Some keep =>
      imap (fun c row =>
              imap (fun t v => if keep c t then rdiv v (rsub rone p) else rzero) row) x
  end.

(** [F.softmax(v, dim=-1)]. *)
Definition softmax (v : list R) : list R :=
  let denom := fold_left radd (map rexp v) rzero in
  map (fun a => rdiv (rexp a) denom) v.

End Tensors.

(** ** [nn.Conv1d] *)

Module Conv1d.
Section Conv1d.
Context {R : Type} `{Scalar R}.

Record t : Type := Build {
  in_channels : nat;
  out_channels : nat;
  kernel_size : nat;
  stride : nat;
  padding : nat;
  dilation : nat;
  weight : nat -> nat -> nat -> R;   (* [out][in][tap] *)
  bias : nat -> R
}.

Definition zero_pad (p : nat) (row : list R) : list R :=
  repeat rzero p ++ row ++ repeat rzero p.

(** Output length; the backend rejects an empty kernel, a zero stride or
    dilation, and a padded input shorter than the dilated kernel. *)
Definition out_len (m : t) (L : nat) : option nat :=
  let span := dilation m * (kernel_size m - 1) + 1 in
  if (kernel_size m =? 0) || (stride m =? 0) || (dilation m =? 0) then None
  else if L + 2 * padding m <? span then None
  else Some ((L + 2 * padding m - span) / stride m + 1).

(** Entry [(o, t)] of the cross-correlation. *)
Definition at_ (m : t) (x : list (list R)) (o t : nat) : R :=
  radd
    (sum_n (in_channels m) (fun c =>
       sum_n (kernel_size m) (fun j =>
         rmul (weight m o c j)
              (nth (t * stride m + j * dilation m)
                   (zero_pad (padding m) (nth c x [])) rzero))))
    (bias m o).

Definition forward (m : t) (x : list (list R)) : option (list (list R)) :=
  if negb (length x =? in_channels m) then None
  else
    Lout <- out_len m (width x) ;;
    Some (tab (out_channels m) Lout (at_ m x)).

(** [torch.nn.utils.weight_norm(m)]: the weight becomes
    [g * v / ||v||], the norm taken per output channel. *)
Definition norm_except_dim0 (m : t) (o : nat) : R :=
  rsqrt (sum_n (in_channels m) (fun c =>
           sum_n (kernel_size m) (fun j =>
             rmul (weight m o c j) (weight m o c j)))).

Definition weight_norm (m : t) (g : nat -> R) : t :=
  {| in_channels := in_channels m;
     out_channels := out_channels m;
     kernel_size := kernel_size m;
     stride := stride m;
     padding := padding m;
     dilation := dilation m;
     weight := fun o c j => rmul (weight m o c j) (rdiv (g o) (norm_except_dim0 m o));
     bias := bias m |}.

End Conv1d.
Arguments t R : clear implicits.
End Conv1d.

(** ** [nn.Linear] and [nn.Embedding] *)

Module Linear.
Section Linear.
Context {R : Type} `{Scalar R}.

Record t : Type := Build {
  in_features : nat;
  out_features : nat;
  weight : nat -> nat -> R;          (* [out][in] *)
  bias : option (nat -> R)
}.

Definition forward (m : t) (v : list R) : option (list R) :=
  if negb (length v =? in_features m) then None
  else Some (map (fun o =>
                    let s := sum_n (in_features m) (fun i => rmul (weight m o i) (nth i v rzero)) in
                    match bias m with
                    | Some b => radd s (b o)
                    | None => s
                    end)
                 (seq 0 (out_features m))).

End Linear.
Arguments t R : clear implicits.
End Linear.

Module Embedding.
Section Embedding.
Context {R : Type}.

Record t : Type := Build {
  num_embeddings : nat;
  embedding_dim : nat;
  weight : nat -> nat -> R
}.

(** A token outside the table is an index error. *)
Definition forward (m : t) (tok : nat) : option (list R) :=
  if tok <? num_embeddings m
  then Some (map (weight m tok) (seq 0 (embedding_dim m)))
  else None.

End Embedding.
Arguments t R : clear implicits.
End Embedding.

(** ** [ConvLayer] (model.py, lines 7-30) *)

Module ConvLayer.
Section ConvLayer.
Context {R : Type} `{Scalar R}.

Record t : Type := Build {
  conv : Conv1d.t R;
  dilation : nat;
  padding : nat;
  dropout : R;
  trans : option (Conv1d.t R)
}.

(** The values held by the layer's parameters. *)
Record params : Type := Params {
  conv_weight_g : nat -> R;
  conv_weight_v : nat -> nat -> nat -> R;
  conv_bias : nat -> R;
  trans_weight : nat -> nat -> nat -> R;
  trans_bias : nat -> R
}.

Definition init (n_inputs n_outputs kernel_size stride dilation padding : nat)
           (dropout : R) (w : params) : t :=
  {| conv := Conv1d.weight_norm
               (Conv1d.Build n_inputs (n_outputs * 2) kernel_size stride padding dilation
                             (conv_weight_v w) (conv_bias w))
               (conv_weight_g w);
     dilation := dilation;
     padding := padding;
     dropout := dropout;
     trans := if negb (n_inputs =? n_outputs)
              then Some (Conv1d.Build n_inputs n_outputs 1 1 0 1 (trans_weight w) (trans_bias w))
              else None |}.

(** [y[:,:,:-self.padding]] when [dilation != padding], [y] otherwise. *)
Definition chomp (l : t) (y : list (list R)) : list (list R) :=
  if negb (dilation l =? padding l) then map (slice_until_neg (padding l)) y else y.

Definition forward (l : t) (md : option (nat -> nat -> bool)) (x : list (list R))
  : option (list (list R)) :=
  y <- Conv1d.forward (conv l) x ;;
  out <- GLU (chomp l y) ;;
  let out := Dropout (dropout l) md out in
  x <- match trans l with
       | Some tr => Conv1d.forward tr x
       | None => Some x
       end ;;
  tensor_add out x.

End ConvLayer.
Arguments t R : clear implicits.
Arguments params R : clear implicits.
End ConvLayer.

(** ** [GenEncoder] (model.py, lines 33-49) *)

Module GenEncoder.
Section GenEncoder.
Context {R : Type} `{Scalar R}.

(** The padding is [(kernel_size - 1) * dilation_size]; for an empty
    kernel Python makes it negative, and [Conv1d.out_len] rejects the
    empty kernel. *)
Definition init (input_size hid_size n_levels kernel_size : nat) (dropout : R)
           (w : nat -> ConvLayer.params R) : list (ConvLayer.t R) :=
  map (fun i =>
         let dilation_size := 2 ^ i in
         if i =? 0
         then ConvLayer.init input_size hid_size kernel_size 1 dilation_size
                             ((kernel_size - 1) * dilation_size) dropout (w i)
         else ConvLayer.init hid_size hid_size kernel_size 1 dilation_size
                             ((kernel_size - 1) * dilation_size) dropout (w i))
      (seq 0 n_levels).

(** [nn.Sequential]; [i] is the index of the first layer of [layers],
    which selects its dropout mask in training mode. *)
Fixpoint Sequential (layers : list (ConvLayer.t R)) (md : option (nat -> nat -> nat -> bool))
         (i : nat) (x : list (list R)) : option (list (list R)) :=
  match layers with
  | [] => Some x
  | l :: rest =>
      y <- ConvLayer.forward l (option_map (fun keep => keep (S i)) md) x ;;
      Sequential rest md (S i) y
  end.

Definition forward (network : list (ConvLayer.t R)) (md : option (nat -> nat -> nat -> bool))
           (x : list (list R)) : option (list (list R)) :=
  Sequential network md 0 x.

End GenEncoder.
End GenEncoder.

(** ** [GEN] (model.py, lines 52-69) *)

Module GEN.
Section GEN.
Context {R : Type} `{Scalar R}.

Record t : Type := Build {
  emb : Embedding.t R;
  drop : R;
  linear : Linear.t R;
  encoder : list (ConvLayer.t R);
  decoder : Linear.t R
}.

Record params : Type := Params {
  emb_weight : nat -> nat -> R;
  linear_weight : nat -> nat -> R;
  encoder_params : nat -> ConvLayer.params R;
  decoder_weight : nat -> nat -> R;
  decoder_bias : nat -> R
}.

Definition init (input_size dic_size output_size hid_size n_levels kernel_size : nat)
           (emb_dropout dropout : R) (w : params) : t :=
  {| emb := Embedding.Build dic_size input_size (emb_weight w);
     drop := emb_dropout;
     linear := Linear.Build input_size hid_size (linear_weight w) None;
     encoder := GenEncoder.init input_size hid_size n_levels kernel_size dropout
                                (encoder_params w);
     decoder := Linear.Build hid_size output_size (decoder_weight w) (Some (decoder_bias w)) |}.

(** The forward pass on one sequence of the batch.  In training mode
    [keep s] is the keep-mask of dropout site [s]: site [0] is the
    embedding dropout, site [i + 1] the dropout of layer [i]. *)
Definition forward1 (m : t) (md : option (nat -> nat -> nat -> bool)) (input : list nat)
  : option (list (list R)) :=
  e <- mapM (Embedding.forward (emb m)) input ;;
  let e := Dropout (drop m) (option_map (fun keep => keep 0) md) e in
  y <- GenEncoder.forward (encoder m) md
         (transpose (Embedding.embedding_dim (emb m)) e) ;;
  mapM (Linear.forward (decoder m)) (transpose (width y) y).

(** The forward pass on a batch [(B, L)]; the result is [(B, L, V)].
    [md b] holds the masks drawn for batch row [b]. *)
Definition forward (m : t) (md : option (nat -> nat -> nat -> nat -> bool))
           (input : list (list nat)) : option (list (list (list R))) :=
  mapM (fun bi => forward1 m (option_map (fun keep => keep (fst bi)) md) (snd bi))
       (combine (seq 0 (length input)) input).

End GEN.
Arguments t R : clear implicits.
Arguments params R : clear implicits.
End GEN.

(** ** [PreEncoder] (model.py, lines 72-87)

    The encoder of the predictive model: the same layers with padding
    equal to the dilation, which [ConvLayer.chomp] leaves untrimmed. *)

Module PreEncoder.
Section PreEncoder.
Context {R : Type} `{Scalar R}.

Definition init (num_inputs : nat) (num_channels : list nat) (kernel_size : nat)
           (dropout : R) (w : nat -> ConvLayer.params R) : list (ConvLayer.t R) :=
  let num_levels := length num_channels in
  map (fun i =>
         let dilation_size := 2 ^ i in
         let in_channels := if i =? 0 then num_inputs else nth (i - 1) num_channels 0 in
         let out_channels := nth i num_channels 0 in
         ConvLayer.init in_channels out_channels kernel_size 1 dilation_size
                        dilation_size dropout (w i))
      (seq 0 num_levels).

Definition forward (network : list (ConvLayer.t R)) (md : option (nat -> nat -> nat -> bool))
           (x : list (list R)) : option (list (list R)) :=
  GenEncoder.Sequential network md 0 x.

End PreEncoder.
End PreEncoder.

(** ** Results of code that can raise or loop forever *)

Inductive outcome (A : Type) : Type :=
| Done (a : A)
| Raised
| Timeout.

Arguments Raised {A}.
Arguments Timeout {A}.

Definition obind {A B : Type} (m : outcome A) (f : A -> outcome B) : outcome B :=
  match m with
  | Done a => f a
  | Raised => Raised
  | Timeout => Timeout
  end.

Definition try {A : Type} (m : option A) : outcome A :=
  match m with
  | Some a => Done a
  | None => Raised
  end.

Notation "x <~ m ;; k" := (obind m (fun x => k))
  (at level 61, m at next level, right associativity).

(** What a call of an external Python function can do: return a value
    (of which only the truth value is used) or raise. *)
Inductive call_result : Type :=
| Returns (truthy : bool)
| Raises.

(** ** Strings (Python [str]) *)

Definition newline : ascii := "010"%char.

Definition nl : string := String newline EmptyString.

(** [word[-1]]; an index error on the empty string. *)
Fixpoint last_char (w : string) : option ascii :=
  match w with
  | EmptyString => None
  | String c EmptyString => Some c
  | String _ r => last_char r
  end.

(** [word[1:]]. *)
Definition drop_first (w : string) : string :=
  match w with
  | EmptyString => EmptyString
  | String _ r => r
  end.

Definition ends_with_newline (w : string) : Prop := last_char w = Some newline.

(** [s in l] for a list of strings. *)
Definition mem (s : string) (l : list string) : bool := existsb (String.eqb s) l.

(** [f.readlines()]: the lines of a text, each with its terminator; text
    after the last terminator is a final line without one. *)
Fixpoint readlines_from (cur : string) (text : string) : list string :=
  match text with
  | EmptyString =>
      match cur with
      | EmptyString => []
      | _ => [cur]
      end
  | String c r =>
      if Ascii.eqb c newline
      then (cur ++ nl)%string :: readlines_from EmptyString r
      else readlines_from (cur ++ String c EmptyString)%string r
  end.

Definition readlines (text : string) : list string := readlines_from EmptyString text.

(** [f.writelines(ss)] on a fresh file: the strings one after another. *)
Definition writelines (ss : list string) : string := String.concat EmptyString ss.

(** ** [gen.py]

    [gen.py] takes the model classes from a module it calls [model_gen];
    the classes of [model.py] stand for them.  Its functions read the
    model, the optimizer and the data iterators from globals, which are
    arguments here.  The script builds the model with [args.lvels] where
    the parser defines [levels] (line 129), so as written it stops there;
    the loops below are what runs once the model exists. *)

Module Gen.
Section Gen.
Context {R : Type} `{Scalar R}.

(** *** Loss framing (lines 14-55) *)

(** [nn.CrossEntropyLoss()] with its default mean reduction: the
    negative log-softmax at the target class, averaged over the rows.
    A target outside the classes and a row count different from the
    target count are errors. *)
Definition log_softmax (logits : list R) : list R :=
  let lse := rlog (fold_left radd (map rexp logits) rzero) in
  map (fun a => rsub a lse) logits.

Definition nll (logits : list R) (target : nat) : option R :=
  if target <? length logits
  then Some (rsub rzero (nth target (log_softmax logits) rzero))
  else None.

Definition mean (ls : list R) : R :=
  rdiv (fold_left radd ls rzero) (rofnat (length ls)).

Definition criterion (output : list (list R)) (target : list nat) : option R :=
  if negb (length output =? length target) then None
  else
    ls <- mapM (fun ot => nll (fst ot) (snd ot)) (combine output target) ;;
    Some (mean ls).

Fixpoint chunks (n cnt : nat) (l : list R) : list (list R) :=
  match cnt with
  | 0 => []
  | S c => firstn n l :: chunks n c (skipn n l)
  end.

(** [output.contiguous().view(-1, n)] of the flattened entries. *)
Definition view_rows (n : nat) (flat : list R) : option (list (list R)) :=
  if n =? 0 then None
  else if length flat mod n =? 0 then Some (chunks n (length flat / n) flat)
  else None.

(** The loss of one batch, as [train] (lines 20-28) and [evaluate]
    (lines 45-52) both compute it. *)
Definition batch_loss (model : GEN.t R) (md : option (nat -> nat -> nat -> nat -> bool))
           (n_words : nat) (data : list (list nat)) : option R :=
  let targets := map (skipn 1) data in
  let inputs := map (slice_until_neg 1) data in
  output <- GEN.forward model md inputs ;;
  final_output <- view_rows n_words (concat (concat output)) ;;
  let final_target := concat targets in
  criterion final_output final_target.

Section Training.
(** The optimizer and the scheduler of the learning rate are the
    library's: [step] stands for [loss.backward(); optimizer.step()],
    which reads the parameters, the masks drawn and the batch. *)
Variable optimizer : Type.
Variable step : optimizer -> GEN.t R -> (nat -> nat -> nat -> nat -> bool) ->
                list (list nat) -> GEN.t R * optimizer.
Variable scheduler_step : optimizer -> R -> optimizer.
Variable n_words : nat.
(** Whether [math.exp] raises OverflowError on a loss: it does on a
    finite value whose exponential is out of the range of floats. *)
Variable exp_overflows : R -> bool.

Fixpoint train_batches (model : GEN.t R) (opt : optimizer)
         (masks : nat -> nat -> nat -> nat -> nat -> bool) (i : nat)
         (train_iter : list (list (list nat))) (total_loss : R)
  : option (GEN.t R * optimizer * R) :=
  match train_iter with
  | [] => Some (model, opt, total_loss)
  | data :: rest =>
      loss <- batch_loss model (Some (masks i)) n_words data ;;
      let mo := step opt model (masks i) data in
      train_batches (fst mo) (snd mo) masks (S i) rest (radd total_loss loss)
  end.

(** [train()]: one pass over the batches; the division by the number
    of batches raises when there is none. *)
Definition train (model : GEN.t R) (opt : optimizer)
           (masks : nat -> nat -> nat -> nat -> nat -> bool)
           (train_iter : list (list (list nat))) : option (GEN.t R * optimizer * R) :=
  r <- train_batches model opt masks 0 train_iter rzero ;;
  if length train_iter =? 0 then None
  else Some (fst (fst r), snd (fst r), rdiv (snd r) (rofnat (length train_iter))).

Fixpoint evaluate_batches (model : GEN.t R) (data_iter : list (list (list nat)))
         (total_loss : R) : option R :=
  match data_iter with
  | [] => Some total_loss
  | data :: rest =>
      loss <- batch_loss model None n_words data ;;
      evaluate_batches model rest (radd total_loss loss)
  end.

Definition evaluate (model : GEN.t R) (data_iter : list (list (list nat))) : option R :=
  total_loss <- evaluate_batches model data_iter rzero ;;
  if length data_iter =? 0 then None
  else Some (rdiv total_loss (rofnat (length data_iter))).

(** *** Model selection (lines 139-155)

    [saved] is the checkpoint file; [log] records, for every finished
    epoch, the validation loss printed and whether "Save model!" was. *)
Record trainer : Type := Trainer {
  model : GEN.t R;
  optim : optimizer;
  best_vloss : R;
  saved : option (GEN.t R);
  log : list (R * bool)
}.

Definition start (model : GEN.t R) (opt : optimizer) : trainer :=
  {| model := model; optim := opt; best_vloss := rofnat 100; saved := None; log := [] |}.

(** Lines 152-155. *)
Definition select (model : GEN.t R) (opt : optimizer) (val_loss : R) (tr : trainer)
  : trainer :=
  if rltb val_loss (best_vloss tr)
  then {| model := model; optim := opt; best_vloss := val_loss;
          saved := Some model; log := log tr ++ [(val_loss, true)] |}
  else {| model := model; optim := opt; best_vloss := best_vloss tr;
          saved := saved tr; log := log tr ++ [(val_loss, false)] |}.

(** The body of the loop over epochs.  The training batches are
    reshuffled every epoch: [train_iter epoch] is the order drawn.  The
    report of lines 148-149 prints [math.exp(val_loss)], which can
    raise; nothing in the loop catches it, so the run ends there,
    before the selection. *)
Definition epoch_body (train_iter : nat -> list (list (list nat)))
           (val_iter : list (list (list nat)))
           (masks : nat -> nat -> nat -> nat -> nat -> nat -> bool)
           (epoch : nat) (tr : trainer) : option trainer :=
  r <- train (model tr) (optim tr) (masks epoch) (train_iter epoch) ;;
  val_loss <- evaluate (fst (fst r)) val_iter ;;
  let opt := scheduler_step (snd (fst r)) val_loss in
  if exp_overflows val_loss then None
  else Some (select (fst (fst r)) opt val_loss tr).

(** [for epoch in range(epoch, epoch + n)]. *)
Fixpoint epochs_from (train_iter : nat -> list (list (list nat)))
         (val_iter : list (list (list nat)))
         (masks : nat -> nat -> nat -> nat -> nat -> nat -> bool)
         (n epoch : nat) (tr : trainer) : option trainer :=
  match n with
  | 0 => Some tr
  | S n' =>
      tr' <- epoch_body train_iter val_iter masks epoch tr ;;
      epochs_from train_iter val_iter masks n' (S epoch) tr'
  end.

Definition training_loop (train_iter : nat -> list (list (list nat)))
           (val_iter : list (list (list nat)))
           (masks : nat -> nat -> nat -> nat -> nat -> nat -> bool)
           (epochs : nat) (model : GEN.t R) (opt : optimizer) : option trainer :=
  epochs_from train_iter val_iter masks epochs 1 (start model opt).

(** The validation losses at which a checkpoint was written, oldest
    first. *)
Definition saved_losses (l : list (R * bool)) : list R :=
  map fst (filter snd l).

End Training.

(** *** Sampling (lines 58-83) *)

Section Sampling.
(** The generator state of the backend and [torch.multinomial(p, 1)],
    which raises on an invalid distribution. *)
Variable rng : Type.
Variable multinomial : rng -> list R -> option (nat * rng).
(** [Chem.MolFromSmiles]. *)
Variable MolFromSmiles : string -> call_result.
(** The global [model], in inference mode. *)
Variable model : GEN.t R.
Variable idx2word : list string.

(** One turn of the [while] body (lines 69-73). *)
Definition extend (g : rng) (input : list nat) (word : string)
  : option (list nat * string * rng) :=
  let n_words := length idx2word in
  output <- GEN.forward model None [input] ;;
  final_output <- view_rows n_words (concat (concat output)) ;;
  logits <- (match final_output with [] => None | _ => Some (last final_output []) end) ;;
  wg <- multinomial g (softmax logits) ;;
  sym <- nth_error idx2word (fst wg) ;;
  Some (input ++ [fst wg], (word ++ sym)%string, snd wg).

(** The [while] loop (lines 68-73); [fuel] bounds the number of
    evaluations of its condition. *)
Fixpoint generate (fuel : nat) (g : rng) (input : list nat) (word : string)
  : outcome (list nat * string * rng) :=
  match fuel with
  | 0 => Timeout
  | S fuel' =>
      c <~ try (last_char word) ;;
      if negb (Ascii.eqb c newline)
      then s <~ try (extend g input word) ;;
           generate fuel' (snd s) (fst (fst s)) (snd (fst s))
      else Done (input, word, g)
  end.

(** State of the [for] loop: the count [n] of valid strings, the
    list [ss] and the generator. *)
Record sampler : Type := Sampler {
  n : nat;
  ss : list string;
  gen : rng
}.

(** Lines 75-78. *)
Definition record (smi : list string) (word : string) (st : sampler) : outcome sampler :=
  match MolFromSmiles (drop_first word) with
  | Raises => Raised
  | Returns false => Done st
  | Returns true =>
      if negb (mem (drop_first word) smi) && negb (mem (drop_first word) (ss st))
      then Done {| n := S (n st); ss := ss st ++ [drop_first word]; gen := gen st |}
      else Done {| n := S (n st); ss := ss st; gen := gen st |}
  end.

(** One turn of the [for] body (lines 66-78); the progress report of
    lines 79-81 only prints. *)
Definition draw (fuel : nat) (smi : list string) (st : sampler) : outcome sampler :=
  w <~ generate fuel (gen st) [1] (String "&" EmptyString) ;;
  record smi (snd (fst w)) {| n := n st; ss := ss st; gen := snd w |}.

(** [for i in range(k)], from state [st]. *)
Fixpoint draws (fuel : nat) (smi : list string) (k : nat) (st : sampler) : outcome sampler :=
  match k with
  | 0 => Done st
  | S k' =>
      st' <~ draws fuel smi k' st ;;
      draw fuel smi st'
  end.

(** [sample(idx2word, smi, num_samples)]: the list [ss] and the
    validity rate printed on line 82, whose division raises for
    [num_samples = 0]. *)
Definition sample (fuel : nat) (g : rng) (smi : list string) (num_samples : nat)
  : outcome (list string * R) :=
  st <~ draws fuel smi num_samples {| n := 0; ss := []; gen := g |} ;;
  if num_samples =? 0 then Raised
  else Done (ss st, rdiv (rofnat (n st)) (rofnat num_samples)).

(** Lines 167-171: read the reference molecules, sample, write the
    result. *)
Definition sample_to_file (fuel : nat) (g : rng) (reference : string) (num_samples : nat)
  : outcome string :=
  let smiles := readlines reference in
  r <~ sample fuel g smiles num_samples ;;
  Done (writelines (fst r)).

End Sampling.

End Gen.
End Gen.

(** ** Vocabulary of the statements *)

Section Vocabulary.
Context {R : Type} `{Scalar R}.

(** [x] is a tensor of shape [(C, L)]. *)
Definition shape (C L : nat) (x : list (list R)) : Prop :=
  length x = C /\ Forall (fun r => length r = L) x.

(** Every row of [x] has the length of the first one. *)
Definition rect (x : list (list R)) : Prop :=
  Forall (fun r => length r = width x) x.

Definition entries (x : list (list R)) (c t : nat) : R :=
  nth t (nth c x []) rzero.

(** Two channel-first tensors agree at all positions before [i]. *)
Definition agree (i : nat) (x1 x2 : list (list R)) : Prop :=
  map (firstn i) x1 = map (firstn i) x2.

(** Entries of a gated tensor with [n] output channels. *)
Definition gate (n : nat) (Y : nat -> nat -> R) (c t : nat) : R :=
  rmul (Y c t) (rsigmoid (Y (c + n) t)).

(** Entries after dropout. *)
Definition dropped (p : R) (md : option (nat -> nat -> bool)) (G : nat -> nat -> R)
           (c t : nat) : R :=
  match md with
  | None => G c t
  | Some keep => if keep c t then rdiv (G c t) (rsub rone p) else rzero
  end.

(** Length left by [ConvLayer.chomp] of rows of length [Lout]. *)
Definition chomp_len (d p Lout : nat) : nat :=
  if negb (d =? p) then Nat.min (if p =? 0 then 0 else Lout - p) Lout else Lout.

(** The input length a 1x1 convolution accepts and returns. *)
Definition pointwise_len (L : nat) : option nat := if L =? 0 then None else Some L.

(** Entries of what a layer adds to its gated convolution: the input,
    or its projection when the channel counts differ. *)
Definition residual (n_inputs n_outputs : nat) (w : ConvLayer.params R)
           (x : list (list R)) : nat -> nat -> R :=
  if n_inputs =? n_outputs then entries x
  else Conv1d.at_ (Conv1d.Build n_inputs n_outputs 1 1 0 1
                                (ConvLayer.trans_weight w) (ConvLayer.trans_bias w)) x.

(** Entries of the gated convolution of a layer, after dropout. *)
Definition gated (n_inputs n_outputs kernel_size dilation padding : nat) (dropout : R)
           (w : ConvLayer.params R) (md : option (nat -> nat -> bool))
           (x : list (list R)) : nat -> nat -> R :=
  dropped dropout md
    (gate n_outputs
       (Conv1d.at_ (ConvLayer.conv
                      (ConvLayer.init n_inputs n_outputs kernel_size 1 dilation padding
                                      dropout w)) x)).

(** A layer as [GenEncoder] builds it: stride one and left context
    [(kernel_size - 1) * dilation]. *)
Definition causal_layer (l : ConvLayer.t R) : Prop :=
  exists n_inputs n_outputs kernel_size dilation dropout w,
    l = ConvLayer.init n_inputs n_outputs kernel_size 1 dilation
                       ((kernel_size - 1) * dilation) dropout w
    /\ 1 <= dilation.

End Vocabulary.

Section ModelVocabulary.
Context {R : Type} `{Scalar R}.

(** The gated convolution of a layer, before dropout and the residual
    connection. *)
Definition gated_conv (l : ConvLayer.t R) (x : list (list R)) : option (list (list R)) :=
  y <- Conv1d.forward (ConvLayer.conv l) x ;;
  GLU (ConvLayer.chomp l y).

(** The model [m] with another [linear] layer. *)
Definition with_linear (lin : Linear.t R) (m : GEN.t R) : GEN.t R :=
  {| GEN.emb := GEN.emb m;
     GEN.drop := GEN.drop m;
     GEN.linear := lin;
     GEN.encoder := GEN.encoder m;
     GEN.decoder := GEN.decoder m |}.

End ModelVocabulary.

Section SelectionVocabulary.
Context {R : Type} `{Scalar R}.

(** The best validation loss after the epochs logged in [l], starting
    from [best]. *)
Fixpoint final_best (best : R) (l : list (R * bool)) : R :=
  match l with
  | [] => best
  | (v, s) :: rest => final_best (if s then v else best) rest
  end.

(** Every logged decision is the comparison of that epoch's loss with
    the best one before it. *)
Fixpoint decisions_ok (best : R) (l : list (R * bool)) : Prop :=
  match l with
  | [] => True
  | (v, s) :: rest => s = rltb v best /\ decisions_ok (if s then v else best) rest
  end.

(** [v] is strictly below the sentinel and below every validation loss
    of the epochs [pre] before it. *)
Definition lowest_so_far (pre : list (R * bool)) (v : R) : Prop :=
  rltb v (rofnat 100) = true /\ forall u, In u (map fst pre) -> rltb v u = true.

(** Each element is strictly below the one before it, [prev] first. *)
Fixpoint falling (prev : R) (l : list R) : Prop :=
  match l with
  | [] => True
  | a :: rest => rltb a prev = true /\ falling a rest
  end.

(** The comparison is a strict order that ranks the values [vals]: what
    [<] is on floats none of which is NaN. *)
Definition ranks (vals : list R) : Prop :=
  (forall a, In a vals -> rltb a a = false)
  /\ (forall a b c, In a vals -> In b vals -> In c vals ->
                    rltb a b = true -> rltb b c = true -> rltb a c = true)
  /\ (forall a b c, In a vals -> In b vals -> In c vals ->
                    rltb a b = false -> rltb b c = false -> rltb a c = false).

(** What the loop over the epochs maintains. *)
Definition selection_inv {optimizer : Type} (tr : Gen.trainer optimizer) : Prop :=
  decisions_ok (rofnat 100) (Gen.log tr)
  /\ Gen.best_vloss tr = final_best (rofnat 100) (Gen.log tr)
  /\ (Gen.saved tr = None <-> Gen.saved_losses (Gen.log tr) = []).

End SelectionVocabulary.

Section LossVocabulary.
Context {R : Type} `{Scalar R}.

(** The logits at position [t] of each row paired with the token at
    position [t + 1] of that row, row after row. *)
Definition next_token_pairs (output : list (list (list R))) (data : list (list nat))
  : list (list R * nat) :=
  concat (map2 (fun o d => combine o (skipn 1 d)) output data).

(** Mean cross-entropy of a list of (logits, class) pairs. *)
Definition mean_cross_entropy (pairs : list (list R * nat)) : option R :=
  ls <- mapM (fun ot => Gen.nll (fst ot) (snd ot)) pairs ;;
  Some (Gen.mean ls).

End LossVocabulary.

Section SamplerVocabulary.
Context {R : Type} `{Scalar R}.
Variable rng : Type.
Variable multinomial : rng -> list R -> option (nat * rng).
Variable model : GEN.t R.
Variable idx2word : list string.

(** Step of the sampler: the whole current sequence goes through the
    model, the logits of the last position become a distribution by
    softmax, and one token is drawn from it.  The result is the token,
    its symbol and the next generator state. *)
Definition sampler_step (g : rng) (sequence : list nat) : option (nat * string * rng) :=
  output <- GEN.forward model None [sequence] ;;
  logits <- match output with
            | [[]] => None
            | [positions] => Some (last positions [])
            | _ => None
            end ;;
  tg <- multinomial g (softmax logits) ;;
  sym <- nth_error idx2word (fst tg) ;;
  Some (fst tg, sym, snd tg).

(** Runs of the sampler's state machine from a sequence to the finished
    one: steps are taken until the symbol drawn is the terminator. *)
Inductive sampler_run : rng -> list nat -> list nat -> rng -> Prop :=
| run_terminal (g : rng) (sequence : list nat) (tok : nat) (g' : rng) :
    sampler_step g sequence = Some (tok, nl, g') ->
    sampler_run g sequence (sequence ++ [tok]) g'
| run_step (g : rng) (sequence : list nat) (tok : nat) (sym : string) (g' : rng)
           (final : list nat) (g'' : rng) :
    sampler_step g sequence = Some (tok, sym, g') ->
    sym <> nl ->
    sampler_run g' (sequence ++ [tok]) final g'' ->
    sampler_run g sequence final g''.

(** The string of a token sequence. *)
Definition decode (toks : list nat) : string :=
  String.concat EmptyString (map (fun tok => nth tok idx2word EmptyString) toks).

End SamplerVocabulary.

Section CoverageVocabulary.
Context {R : Type} `{Scalar R}.

(** Number of positions, the current one included, that one logit of a
    stack of [n_levels] layers can read. *)
Definition receptive_field (kernel_size n_levels : nat) : nat :=
  (kernel_size - 1) * (2 ^ n_levels - 1) + 1.

(** Two channel-first tensors agree at the [reach] positions before [t]
    and at [t]. *)
Definition agree_back (reach t : nat) (x1 x2 : list (list R)) : Prop :=
  forall c u, u <= t -> t <= u + reach -> entries x1 c u = entries x2 c u.

(** Channel count that enters level [i] of a [PreEncoder]. *)
Definition pre_channels (num_inputs : nat) (num_channels : list nat) (i : nat) : nat :=
  if i =? 0 then num_inputs else nth (i - 1) num_channels 0.

End CoverageVocabulary.

Section ValidityVocabulary.
Context {R : Type} `{Scalar R}.
Variable rng : Type.
Variable multinomial : rng -> list R -> option (nat * rng).
Variable MolFromSmiles : string -> call_result.
Variable model : GEN.t R.
Variable idx2word : list string.

(** The oracle accepts [s]: the call returns a truthy value. *)
Definition accepted (s : string) : bool :=
  match MolFromSmiles s with
  | Returns true => true
  | _ => false
  end.

(** The strings of the first [k] words the loop finishes from the
    generator state [g], oldest first, and the state after them. *)
Fixpoint words_drawn (fuel k : nat) (g : rng) : list string * rng :=
  match k with
  | 0 => ([], g)
  | S k' =>
      let wg := words_drawn fuel k' g in
      match Gen.generate multinomial model idx2word fuel (snd wg) [1]
                         (String "&" EmptyString) with
      | Done (_, word, g') => (fst wg ++ [drop_first word], g')
      | _ => wg
      end
  end.

End ValidityVocabulary.

(** A string without the terminator. *)
Fixpoint newline_free (s : string) : Prop :=
  match s with
  | EmptyString => True
  | String c r => c <> newline /\ newline_free r
  end.

(** A line: characters other than the terminator, then the terminator. *)
Definition is_line (s : string) : Prop :=
  exists body, s = (body ++ nl)%string /\ newline_free body.

(** ** Concrete instances

    Small integer-valued parameters on which the definitions run. *)

Module Example.

Definition layer_params : ConvLayer.params Z :=
  ConvLayer.Params (fun _ => 40%Z)
                   (fun o c j => Z.of_nat (o + c + j + 1))
                   (fun o => Z.of_nat o)
                   (fun o c _ => Z.of_nat (o + c + 1))
                   (fun _ => 1%Z).

Definition gen_params : GEN.params Z :=
  GEN.Params (fun tok i => Z.of_nat (tok + i))
             (fun _ _ => 0%Z)
             (fun _ => layer_params)
             (fun o i => Z.of_nat (o + i))
             (fun _ => 1%Z).

(** [GEN(2, 4, 4, hid_size=3, n_levels=2, kernel_size=3)]. *)
Definition model : GEN.t Z := GEN.init 2 4 4 3 2 3 0%Z 0%Z gen_params.

Definition x23 : list (list Z) := [[1; 2; 3]; [4; 5; 6]]%Z.

(** The logits of [model] on the sequences [1 2 3] and [1 2 0]. *)
Definition logits_123 : list (list (list Z)) :=
  Eval vm_compute in
    match GEN.forward model None [[1; 2; 3]] with
    | Some o => o
    | None => []
    end.

Definition logits_120 : list (list (list Z)) :=
  Eval vm_compute in
    match GEN.forward model None [[1; 2; 0]] with
    | Some o => o
    | None => []
    end.

(** A vocabulary of four symbols; token 1 is the start symbol and
    token 2 the terminator. *)
Definition idx2word : list string :=
  [String "C" EmptyString; String "&" EmptyString; nl; String "O" EmptyString].

(** A generator whose state is the list of the tokens it will draw. *)
Definition multinomial (g : list nat) (p : list Z) : option (nat * list nat) :=
  match g with
  | tok :: rest => Some (tok, rest)
  | [] => None
  end.

Definition tape : list nat := [0; 2; 3; 2; 0; 2].

(** An oracle that accepts the strings that start with a carbon and
    returns nothing for the others. *)
Definition accepts_carbon (s : string) : call_result :=
  match s with
  | String "C" _ => Returns true
  | _ => Returns false
  end.

(** An oracle that raises on the strings that start with an oxygen. *)
Definition raises_on_oxygen (s : string) : call_result :=
  match s with
  | String "C" _ => Returns true
  | String "O" _ => Raises
  | _ => Returns false
  end.

Definition reference : string :=
  String "O" (String newline (String "N" (String newline EmptyString))).

(** Model selection: the optimizer state is the list of the losses the
    next steps will reach; a model with loss [c] has all weights zero
    and the decoder bias [(c, 0, 0, 0)].  The convolution has the
    magnitude [g = 0] on the direction [v = 1], so its normalised weight
    is zero. *)
Definition zero_layer : ConvLayer.params Z :=
  ConvLayer.Params (fun _ => 0%Z) (fun _ _ _ => 1%Z) (fun _ => 0%Z)
                   (fun _ _ _ => 0%Z) (fun _ => 0%Z).

Definition model_with_loss (c : Z) : GEN.t Z :=
  GEN.init 1 4 4 2 1 3 0%Z 0%Z
           (GEN.Params (fun _ _ => 0%Z) (fun _ _ => 0%Z) (fun _ => zero_layer)
                       (fun _ _ => 0%Z) (fun o => if o =? 0 then c else 0%Z)).

Definition step (opt : list Z) (m : GEN.t Z) (masks : nat -> nat -> nat -> nat -> bool)
           (data : list (list nat)) : GEN.t Z * list Z :=
  match opt with
  | c :: rest => (model_with_loss c, rest)
  | [] => (m, [])
  end.

Definition scheduler_step (opt : list Z) (val_loss : Z) : list Z := opt.

(** [math.exp] is out of range from about 709.78 on. *)
Definition exp_overflows (val_loss : Z) : bool := (709 <? val_loss)%Z.

Definition batches : list (list (list nat)) := [[[1; 3; 2]; [1; 3; 2]]].

End Example.

(** * Properties *)

(** ** Lists and the error monad *)

Lemma firstn_seq (i s L : nat) : firstn i (seq s L) = seq s (min i L).
Proof.
  revert s L; induction i as [|i IH]; intros s [|L]; simpl; auto.
  f_equal; apply IH.
Qed.

Lemma firstn_map_seq {A : Type} (f : nat -> A) (i L : nat) :
  firstn i (map f (seq 0 L)) = map f (seq 0 (min i L)).
Proof. now rewrite firstn_map, firstn_seq. Qed.

Lemma nth_firstn_lt {A : Type} (l : list A) (i t : nat) (d : A) :
  t < i -> nth t (firstn i l) d = nth t l d.
Proof.
  revert l t; induction i as [|i IH]; intros l t Ht; [lia|].
  destruct l as [|a l]; simpl; [reflexivity|].
  destruct t; [reflexivity|]. apply IH; lia.
Qed.

Lemma list_tabulate {A : Type} (l : list A) (d : A) :
  l = map (fun t => nth t l d) (seq 0 (length l)).
Proof.
  apply nth_ext with (d := d) (d' := d).
  - now rewrite length_map, length_seq.
  - intros k Hk.
    rewrite (nth_indep (map (fun t => nth t l d) (seq 0 (length l))) d (nth 0 l d))
      by (rewrite length_map, length_seq; exact Hk).
    rewrite (map_nth (fun t => nth t l d)), seq_nth by exact Hk. reflexivity.
Qed.

Lemma map2_map_seq {A B C : Type} (f : A -> B -> C) (g : nat -> A) (h : nat -> B) (n : nat) :
  map2 f (map g (seq 0 n)) (map h (seq 0 n)) = map (fun k => f (g k) (h k)) (seq 0 n).
Proof.
  unfold map2. generalize 0. induction n as [|n IH]; intro s; simpl; [reflexivity|].
  f_equal. apply IH.
Qed.

Lemma imap_map_seq {A B : Type} (f : nat -> A -> B) (g : nat -> A) (n : nat) :
  imap f (map g (seq 0 n)) = map (fun k => f k (g k)) (seq 0 n).
Proof.
  unfold imap. rewrite length_map, length_seq.
  rewrite <- (map_id (seq 0 n)) at 1. apply map2_map_seq.
Qed.

Lemma mapM_map {A B : Type} (f : A -> B) (l : list A) :
  mapM (fun a => Some (f a)) l = Some (map f l).
Proof. induction l as [|a l IH]; simpl; [reflexivity|]. now rewrite IH. Qed.

Lemma mapM_ext_in {A B : Type} (f g : A -> option B) (l : list A) :
  (forall a, In a l -> f a = g a) -> mapM f l = mapM g l.
Proof.
  induction l as [|a l IH]; intro E; simpl; [reflexivity|].
  rewrite E by (left; reflexivity). rewrite IH; [reflexivity|].
  intros b Hb; apply E; right; exact Hb.
Qed.

Lemma mapM_length {A B : Type} (f : A -> option B) (l : list A) (r : list B) :
  mapM f l = Some r -> length r = length l.
Proof.
  revert r; induction l as [|a l IH]; simpl; intros r E.
  - injection E as <-. reflexivity.
  - destruct (f a); simpl in E; [|discriminate].
    destruct (mapM f l); simpl in E; [|discriminate].
    injection E as <-. simpl. f_equal. now apply IH.
Qed.

Lemma mapM_Forall2 {A B : Type} (f : A -> option B) (l : list A) (r : list B) :
  mapM f l = Some r -> Forall2 (fun a b => f a = Some b) l r.
Proof.
  revert r; induction l as [|a l IH]; simpl; intros r E.
  - injection E as <-. constructor.
  - destruct (f a) eqn:Ea; simpl in E; [|discriminate].
    destruct (mapM f l); simpl in E; [|discriminate].
    injection E as <-. constructor; auto.
Qed.

Lemma mapM_firstn {A B : Type} (f : A -> option B) (i : nat) (l : list A) (r : list B) :
  mapM f l = Some r -> mapM f (firstn i l) = Some (firstn i r).
Proof.
  revert l r; induction i as [|i IH]; intros l r E; [reflexivity|].
  destruct l as [|a l]; simpl in *.
  - injection E as <-. reflexivity.
  - destruct (f a); simpl in *; [|discriminate].
    destruct (mapM f l) eqn:El; simpl in E; [|discriminate].
    injection E as <-. now rewrite (IH _ _ El).
Qed.

(** A map over a sequence is causal: equal prefixes give equal prefixes. *)
Lemma mapM_prefix {A B : Type} (f : A -> option B) (i : nat) (l1 l2 : list A)
      (r1 r2 : list B) :
  firstn i l1 = firstn i l2 ->
  mapM f l1 = Some r1 -> mapM f l2 = Some r2 ->
  firstn i r1 = firstn i r2.
Proof.
  intros E E1 E2.
  apply (mapM_firstn _ i) in E1. apply (mapM_firstn _ i) in E2.
  rewrite E in E1. congruence.
Qed.

Lemma seq_plus (s n : nat) : seq s n = map (fun k => k + s) (seq 0 n).
Proof.
  revert s; induction n as [|n IH]; intro s; simpl; [reflexivity|].
  f_equal. rewrite (IH (S s)), <- seq_shift, map_map.
  apply map_ext. intro k. lia.
Qed.

Lemma combine_map_same {A B C : Type} (f : A -> B) (g : A -> C) (l : list A) :
  combine (map f l) (map g l) = map (fun a => (f a, g a)) l.
Proof. induction l as [|a l IH]; simpl; [reflexivity|]. now rewrite IH. Qed.

Lemma mapM_compose {A B C : Type} (f : B -> option C) (g : A -> B) (l : list A) :
  mapM f (map g l) = mapM (fun a => f (g a)) l.
Proof. induction l as [|a l IH]; simpl; [reflexivity|]. now rewrite IH. Qed.

(** ** Tensors in tabulated form *)

Section TensorFacts.
Context {R : Type} `{Scalar R}.

Lemma tab_length (C L : nat) (F : nat -> nat -> R) : length (tab C L F) = C.
Proof. unfold tab. now rewrite length_map, length_seq. Qed.

Lemma tab_ext (C L : nat) (F G : nat -> nat -> R) :
  (forall c t, c < C -> t < L -> F c t = G c t) -> tab C L F = tab C L G.
Proof.
  intro E. unfold tab. apply map_ext_in. intros c Hc. apply in_seq in Hc.
  apply map_ext_in. intros t Ht. apply in_seq in Ht. apply E; lia.
Qed.

Lemma map_firstn_tab (i C L : nat) (F : nat -> nat -> R) :
  map (firstn i) (tab C L F) = tab C (Nat.min i L) F.
Proof.
  unfold tab. rewrite map_map. apply map_ext. intro c. apply firstn_map_seq.
Qed.

Lemma width_tab (C L : nat) (F : nat -> nat -> R) : 0 < C -> width (tab C L F) = L.
Proof.
  destruct C as [|C]; [lia|]. intros _. unfold tab. simpl.
  now rewrite length_map, length_seq.
Qed.

Lemma shape_tab (C L : nat) (F : nat -> nat -> R) : shape C L (tab C L F).
Proof.
  split; [apply tab_length|]. unfold tab. apply Forall_forall. intros r Hr.
  apply in_map_iff in Hr. destruct Hr as [c [<- _]].
  now rewrite length_map, length_seq.
Qed.

Lemma shape_rect (C L : nat) (x : list (list R)) : shape C L x -> rect x.
Proof.
  intros [_ HF]. unfold rect. destruct x as [|r x]; [constructor|].
  simpl. inversion HF as [|? ? Hr Hx]; subst.
  constructor; [reflexivity|exact Hx].
Qed.

Lemma rect_shape (x : list (list R)) : rect x -> shape (length x) (width x) x.
Proof. intro Hx. split; [reflexivity|exact Hx]. Qed.

Lemma shape_width (C L : nat) (x : list (list R)) : shape C L x -> 0 < C -> width x = L.
Proof.
  intros [HC HF] Hpos. destruct x as [|r x]; simpl in *; [lia|].
  now inversion HF.
Qed.

(** A tensor is the table of its entries. *)
Lemma shape_entries (C L : nat) (x : list (list R)) :
  shape C L x -> x = tab C L (entries x).
Proof.
  intros [HC HF]. unfold tab, entries. subst C.
  rewrite (list_tabulate x []) at 1. apply map_ext_in.
  intros c Hc. apply in_seq in Hc.
  assert (Hlen : length (nth c x []) = L).
  { rewrite Forall_forall in HF. apply HF. apply nth_In. lia. }
  rewrite (list_tabulate (nth c x []) rzero) at 1. now rewrite Hlen.
Qed.

Lemma GLU_tab (n L : nat) (Y : nat -> nat -> R) :
  GLU (tab (n * 2) L Y) = Some (tab n L (gate n Y)).
Proof.
  unfold GLU. rewrite tab_length.
  rewrite Nat.even_mul, orb_true_r, Nat.div_mul by discriminate.
  f_equal. unfold tab.
  rewrite firstn_map, firstn_seq, skipn_map, skipn_seq.
  replace (Nat.min n (n * 2)) with n by lia.
  replace (n * 2 - n) with n by lia.
  simpl. rewrite (seq_plus n n), map_map, map2_map_seq.
  apply map_ext. intro c. rewrite map2_map_seq. reflexivity.
Qed.

Lemma chomp_tab (p C L : nat) (Y : nat -> nat -> R) :
  map (slice_until_neg p) (tab C L Y)
  = tab C (Nat.min (if p =? 0 then 0 else L - p) L) Y.
Proof.
  unfold tab. rewrite map_map. apply map_ext. intro c.
  unfold slice_until_neg. rewrite length_map, length_seq.
  apply firstn_map_seq.
Qed.

Lemma Dropout_tab (p : R) (md : option (nat -> nat -> bool)) (C L : nat)
      (G : nat -> nat -> R) :
  Dropout p md (tab C L G) = tab C L (dropped p md G).
Proof.
  destruct md as [keep|]; simpl; [|reflexivity].
  unfold tab. rewrite imap_map_seq. apply map_ext. intro c.
  apply imap_map_seq.
Qed.

Lemma add_rows_same (L : nat) (f g : nat -> R) :
  add_rows (map f (seq 0 L)) (map g (seq 0 L))
  = Some (map (fun t => radd (f t) (g t)) (seq 0 L)).
Proof.
  unfold add_rows. rewrite !length_map, Nat.eqb_refl. now rewrite map2_map_seq.
Qed.

Lemma tensor_add_tab (C L : nat) (F G : nat -> nat -> R) :
  tensor_add (tab C L F) (tab C L G) = Some (tab C L (fun c t => radd (F c t) (G c t))).
Proof.
  unfold tensor_add. rewrite !tab_length, Nat.eqb_refl. unfold tab.
  rewrite combine_map_same, mapM_compose. simpl.
  rewrite <- mapM_map. apply mapM_ext_in. intros c _. apply add_rows_same.
Qed.

(** Length of a broadcast sum of rows of lengths [La] and [Lb]. *)
Lemma add_rows_length (a b o : list R) :
  add_rows a b = Some o ->
  (length a = length b \/ length a = 1 \/ length b = 1)
  /\ length o = (if length a =? length b then length a
                 else if length a =? 1 then length b else length a).
Proof.
  unfold add_rows. destruct (length a =? length b) eqn:E.
  - apply Nat.eqb_eq in E. intro Ho. injection Ho as <-. split; [now left|].
    unfold map2. rewrite length_map, length_combine. lia.
  - apply Nat.eqb_neq in E.
    destruct a as [|a0 [|a1 a]]; destruct b as [|b0 [|b1 b]]; simpl in *;
      intro Ho; try discriminate; injection Ho as <-; simpl;
      rewrite ?length_map; (split; [lia|reflexivity]).
Qed.

Lemma sum_n_ext (n : nat) (f g : nat -> R) :
  (forall k, k < n -> f k = g k) -> sum_n n f = sum_n n g.
Proof.
  intro E. unfold sum_n. f_equal. apply map_ext_in.
  intros k Hk. apply in_seq in Hk. apply E; lia.
Qed.

End TensorFacts.

(** ** One layer in closed form *)

Section LayerFacts.
Context {R : Type} `{Scalar R}.

Lemma tensor_add_length (a b o : list (list R)) :
  tensor_add a b = Some o -> length a = length b -> length o = length a.
Proof.
  unfold tensor_add. intros Ho E. rewrite E, Nat.eqb_refl in Ho.
  apply mapM_length in Ho. rewrite length_combine in Ho. lia.
Qed.

Lemma tensor_add_tab_compat (C La Lb : nat) (F G : nat -> nat -> R) (o : list (list R)) :
  0 < C -> tensor_add (tab C La F) (tab C Lb G) = Some o ->
  La = Lb \/ La = 1 \/ Lb = 1.
Proof.
  intros HC. unfold tensor_add. rewrite !tab_length, Nat.eqb_refl.
  destruct C as [|C]; [lia|]. unfold tab. simpl.
  destruct (add_rows _ _) as [r|] eqn:Er; simpl; [|discriminate].
  intros _. apply add_rows_length in Er. destruct Er as [Hc _].
  now rewrite !length_map, !length_seq in Hc.
Qed.

Lemma tensor_add_rect (a b o : list (list R)) (La Lb : nat) :
  tensor_add a b = Some o -> length a = length b ->
  Forall (fun r => length r = La) a -> Forall (fun r => length r = Lb) b ->
  rect o.
Proof.
  unfold tensor_add. intros Ho E Ha Hb. rewrite E, Nat.eqb_refl in Ho.
  apply mapM_Forall2 in Ho.
  apply shape_rect with (C := length o)
                        (L := if La =? Lb then La else if La =? 1 then Lb else La).
  split; [reflexivity|].
  clear E. revert b Hb o Ho. induction Ha as [|ra a Hra Ha IH]; intros b Hb o Ho.
  - simpl in Ho. inversion Ho. constructor.
  - destruct b as [|rb b]; simpl in Ho; inversion Ho as [|? r ? o' Hr Ho' ]; subst.
    + constructor.
    + inversion Hb; subst. constructor; [|eapply IH; eauto].
      simpl in Hr. apply add_rows_length in Hr. tauto.
Qed.

Lemma out_len_pointwise (n_in n_out : nat) (W : nat -> nat -> nat -> R) (b : nat -> R)
      (L : nat) :
  Conv1d.out_len (Conv1d.Build n_in n_out 1 1 0 1 W b) L = pointwise_len L.
Proof.
  unfold Conv1d.out_len, pointwise_len.
  cbn [Conv1d.kernel_size Conv1d.stride Conv1d.dilation Conv1d.padding].
  change (1 =? 0) with false. cbn [orb].
  rewrite Nat.div_1_r.
  destruct L as [|L]; [reflexivity|].
  replace (S L + 2 * 0 <? 1 * (1 - 1) + 1) with false
    by (symmetry; apply Nat.ltb_ge; lia).
  cbn [Nat.eqb]. f_equal. lia.
Qed.

(** Up to the residual connection, any layer whose convolution has an
    even number of output channels. *)
Lemma forward_generic (l : ConvLayer.t R) (n : nat) (md : option (nat -> nat -> bool))
      (x : list (list R)) :
  length x = Conv1d.in_channels (ConvLayer.conv l) ->
  Conv1d.out_channels (ConvLayer.conv l) = n * 2 ->
  ConvLayer.forward l md x =
    (Lout <- Conv1d.out_len (ConvLayer.conv l) (width x) ;;
     x' <- match ConvLayer.trans l with
           | Some tr => Conv1d.forward tr x
           | None => Some x
           end ;;
     tensor_add (tab n (chomp_len (ConvLayer.dilation l) (ConvLayer.padding l) Lout)
                     (dropped (ConvLayer.dropout l) md
                              (gate n (Conv1d.at_ (ConvLayer.conv l) x))))
                x').
Proof.
  intros Hlen Hout.
  unfold ConvLayer.forward, Conv1d.forward at 1.
  rewrite Hlen, Nat.eqb_refl. cbn [negb].
  destruct (Conv1d.out_len (ConvLayer.conv l) (width x)) as [Lout|]; cbn [bind];
    [|reflexivity].
  rewrite Hout.
  assert (Hg : GLU (ConvLayer.chomp l (tab (n * 2) Lout (Conv1d.at_ (ConvLayer.conv l) x)))
               = Some (tab n (chomp_len (ConvLayer.dilation l) (ConvLayer.padding l) Lout)
                           (gate n (Conv1d.at_ (ConvLayer.conv l) x)))).
  { unfold ConvLayer.chomp, chomp_len.
    destruct (negb (ConvLayer.dilation l =? ConvLayer.padding l)).
    - rewrite chomp_tab. apply GLU_tab.
    - apply GLU_tab. }
  rewrite Hg. cbn [bind]. now rewrite Dropout_tab.
Qed.

Variables (n_inputs n_outputs kernel_size dilation padding : nat).
Variables (dropout : R) (w : ConvLayer.params R).

Local Abbreviation residual' := (@residual R _ n_inputs n_outputs w).
Local Abbreviation gated' :=
  (@gated R _ n_inputs n_outputs kernel_size dilation padding dropout w).

Lemma forward_needs_channels (md : option (nat -> nat -> bool)) (x o : list (list R)) :
  ConvLayer.forward
    (ConvLayer.init n_inputs n_outputs kernel_size 1 dilation padding dropout w) md x
  = Some o ->
  length x = n_inputs.
Proof.
  unfold ConvLayer.forward, Conv1d.forward at 1.
  cbn [ConvLayer.init ConvLayer.conv Conv1d.weight_norm Conv1d.in_channels].
  destruct (length x =? n_inputs) eqn:E; cbn [negb bind]; [|discriminate].
  intros _. now apply Nat.eqb_eq.
Qed.

Lemma forward_closed (md : option (nat -> nat -> bool)) (x : list (list R)) :
  length x = n_inputs -> rect x ->
  ConvLayer.forward
    (ConvLayer.init n_inputs n_outputs kernel_size 1 dilation padding dropout w) md x =
    (Lout <- Conv1d.out_len
               (ConvLayer.conv
                  (ConvLayer.init n_inputs n_outputs kernel_size 1 dilation padding
                                  dropout w)) (width x) ;;
     Lx <- (if n_inputs =? n_outputs then Some (width x) else pointwise_len (width x)) ;;
     tensor_add (tab n_outputs (chomp_len dilation padding Lout) (gated' md x))
                (tab n_outputs Lx (residual' x))).
Proof.
  intros Hlen Hrect.
  rewrite (@forward_generic _ n_outputs) by (try exact Hlen; reflexivity).
  destruct (Conv1d.out_len _ (width x)) as [Lout|]; cbn [bind]; [|reflexivity].
  cbn [ConvLayer.init ConvLayer.trans ConvLayer.dilation ConvLayer.padding
       ConvLayer.dropout].
  unfold gated, residual.
  destruct (n_inputs =? n_outputs) eqn:E; cbn [negb bind].
  - apply Nat.eqb_eq in E.
    f_equal. rewrite <- E, <- Hlen.
    exact (shape_entries (rect_shape Hrect)).
  - unfold Conv1d.forward. cbn [Conv1d.in_channels Conv1d.out_channels].
    rewrite Hlen, Nat.eqb_refl. cbn [negb].
    rewrite out_len_pointwise.
    destruct (pointwise_len (width x)); reflexivity.
Qed.

Lemma out_len_init (L : nat) :
  Conv1d.out_len
    (ConvLayer.conv
       (ConvLayer.init n_inputs n_outputs kernel_size 1 dilation padding dropout w)) L
  = if (kernel_size =? 0) || (dilation =? 0) then None
    else if L + 2 * padding <? dilation * (kernel_size - 1) + 1 then None
         else Some (L + 2 * padding - (dilation * (kernel_size - 1) + 1) + 1).
Proof.
  unfold Conv1d.out_len.
  cbn [ConvLayer.init ConvLayer.conv Conv1d.weight_norm Conv1d.kernel_size
       Conv1d.stride Conv1d.dilation Conv1d.padding].
  change (1 =? 0) with false. rewrite orb_false_r, Nat.div_1_r. reflexivity.
Qed.

(** With the padding [GenEncoder] chooses, the convolution returns
    [padding] more positions than it is given. *)
Lemma out_len_causal (L : nat) :
  1 <= kernel_size -> 1 <= dilation -> padding = (kernel_size - 1) * dilation ->
  1 <= L + padding ->
  Conv1d.out_len
    (ConvLayer.conv
       (ConvLayer.init n_inputs n_outputs kernel_size 1 dilation padding dropout w)) L
  = Some (L + padding).
Proof.
  intros Hk Hd Hp HL. rewrite out_len_init.
  replace (kernel_size =? 0) with false by (symmetry; apply Nat.eqb_neq; lia).
  replace (dilation =? 0) with false by (symmetry; apply Nat.eqb_neq; lia).
  cbn [orb].
  assert (Hspan : dilation * (kernel_size - 1) = padding) by (subst padding; lia).
  rewrite Hspan.
  replace (L + 2 * padding <? padding + 1) with false
    by (symmetry; apply Nat.ltb_ge; lia).
  f_equal. lia.
Qed.

Lemma chomp_len_causal (L : nat) :
  3 <= kernel_size -> 1 <= dilation -> padding = (kernel_size - 1) * dilation ->
  chomp_len dilation padding (L + padding) = L.
Proof.
  intros Hk Hd Hp. unfold chomp_len.
  assert (2 * dilation <= padding) by (subst padding; nia).
  replace (dilation =? padding) with false by (symmetry; apply Nat.eqb_neq; lia).
  replace (padding =? 0) with false by (symmetry; apply Nat.eqb_neq; lia).
  cbn [negb]. lia.
Qed.

(** A causal layer with a kernel of at least three taps: the output has
    the length of the input, and entry [(c, t)] is the gated
    convolution plus the residual.  Only an empty input to the 1x1
    projection is rejected. *)
Lemma forward_causal_closed (md : option (nat -> nat -> bool)) (x : list (list R)) :
  3 <= kernel_size -> 1 <= dilation -> padding = (kernel_size - 1) * dilation ->
  length x = n_inputs -> rect x ->
  ConvLayer.forward
    (ConvLayer.init n_inputs n_outputs kernel_size 1 dilation padding dropout w) md x
  = if negb (n_inputs =? n_outputs) && (width x =? 0) then None
    else Some (tab n_outputs (width x)
                   (fun c t => radd (gated' md x c t) (residual' x c t))).
Proof.
  intros Hk Hd Hp Hlen Hrect.
  rewrite forward_closed by assumption.
  rewrite out_len_causal by (try assumption; try lia; subst padding; nia). cbn [bind].
  rewrite chomp_len_causal by assumption.
  destruct (n_inputs =? n_outputs) eqn:E; cbn [bind negb andb].
  - apply tensor_add_tab.
  - unfold pointwise_len. destruct (width x =? 0); cbn [bind]; [reflexivity|].
    apply tensor_add_tab.
Qed.

Lemma forward_causal (md : option (nat -> nat -> bool)) (x : list (list R)) :
  3 <= kernel_size -> 1 <= dilation -> padding = (kernel_size - 1) * dilation ->
  length x = n_inputs -> rect x ->
  n_inputs = n_outputs \/ 1 <= width x ->
  ConvLayer.forward
    (ConvLayer.init n_inputs n_outputs kernel_size 1 dilation padding dropout w) md x
  = Some (tab n_outputs (width x)
              (fun c t => radd (gated' md x c t) (residual' x c t))).
Proof.
  intros Hk Hd Hp Hlen Hrect HL.
  rewrite forward_causal_closed by assumption.
  destruct HL as [HL|HL].
  - replace (n_inputs =? n_outputs) with true by (symmetry; now apply Nat.eqb_eq).
    reflexivity.
  - replace (width x =? 0) with false by (symmetry; apply Nat.eqb_neq; lia).
    now rewrite andb_false_r.
Qed.

Lemma forward_rect (md : option (nat -> nat -> bool)) (x o : list (list R)) :
  rect x ->
  ConvLayer.forward
    (ConvLayer.init n_inputs n_outputs kernel_size 1 dilation padding dropout w) md x
  = Some o ->
  rect o /\ length o = n_outputs.
Proof.
  intros Hrect Ho. pose proof (forward_needs_channels _ _ Ho) as Hlen.
  rewrite forward_closed in Ho by assumption.
  destruct (Conv1d.out_len _ _) as [Lout|]; cbn [bind] in Ho; [|discriminate].
  destruct (if n_inputs =? n_outputs then Some (width x) else pointwise_len (width x))
    as [Lx|]; cbn [bind] in Ho; [|discriminate].
  split.
  - eapply tensor_add_rect; [exact Ho| | |].
    + now rewrite !tab_length.
    + apply shape_tab.
    + apply shape_tab.
  - apply tensor_add_length in Ho; rewrite ?tab_length in *; auto.
Qed.

(** With one or two taps the sum with the residual only succeeds on
    inputs of length at most one. *)
Lemma forward_short (md : option (nat -> nat -> bool)) (x o : list (list R)) :
  kernel_size <= 2 -> 1 <= dilation -> padding = (kernel_size - 1) * dilation ->
  rect x -> 0 < n_outputs ->
  ConvLayer.forward
    (ConvLayer.init n_inputs n_outputs kernel_size 1 dilation padding dropout w) md x
  = Some o ->
  width x <= 1.
Proof.
  intros Hk Hd Hp Hrect Hn Ho. pose proof (forward_needs_channels _ _ Ho) as Hlen.
  rewrite forward_closed in Ho by assumption.
  rewrite out_len_init in Ho.
  destruct (kernel_size =? 0) eqn:Ek; cbn [orb bind] in Ho; [discriminate|].
  apply Nat.eqb_neq in Ek.
  replace (dilation =? 0) with false in Ho by (symmetry; apply Nat.eqb_neq; lia).
  destruct (width x + 2 * padding <? dilation * (kernel_size - 1) + 1) eqn:El;
    cbn [bind] in Ho; [discriminate|].
  apply Nat.ltb_ge in El.
  assert (HLx : exists Lx,
             tensor_add
               (tab n_outputs
                    (chomp_len dilation padding
                       (width x + 2 * padding - (dilation * (kernel_size - 1) + 1) + 1))
                    (gated' md x))
               (tab n_outputs Lx (residual' x)) = Some o
             /\ Lx = width x).
  { destruct (n_inputs =? n_outputs); cbn [bind] in Ho.
    - now exists (width x).
    - unfold pointwise_len in Ho. destruct (width x =? 0); cbn [bind] in Ho;
        [discriminate|]. now exists (width x). }
  destruct HLx as [Lx [Hadd ->]].
  apply tensor_add_tab_compat in Hadd; [|exact Hn].
  unfold chomp_len in Hadd.
  assert (Hcases : kernel_size = 1 \/ kernel_size = 2) by lia.
  destruct Hcases as [-> | ->].
  - replace padding with 0 in * by lia.
    replace (dilation =? 0) with false in Hadd by (symmetry; apply Nat.eqb_neq; lia).
    cbn [negb Nat.eqb] in Hadd. lia.
  - replace padding with dilation in * by lia.
    rewrite Nat.eqb_refl in Hadd. cbn [negb] in Hadd. lia.
Qed.

End LayerFacts.

(** ** Causality of the convolutions *)

Section Causality.
Context {R : Type} `{Scalar R}.

Lemma nth_zero_pad_left (p k : nat) (r : list R) :
  k < p -> nth k (Conv1d.zero_pad p r) rzero = rzero.
Proof.
  intro Hk. unfold Conv1d.zero_pad.
  rewrite app_nth1 by (rewrite repeat_length; exact Hk). apply nth_repeat.
Qed.

Lemma nth_zero_pad_mid (p k : nat) (r : list R) :
  p <= k -> k < p + length r ->
  nth k (Conv1d.zero_pad p r) rzero = nth (k - p) r rzero.
Proof.
  intros Hp Hk. unfold Conv1d.zero_pad.
  rewrite app_nth2 by (rewrite repeat_length; lia).
  rewrite repeat_length. apply app_nth1. lia.
Qed.

Lemma pad_prefix (p i k : nat) (r1 r2 : list R) :
  firstn i r1 = firstn i r2 -> i <= length r1 -> i <= length r2 -> k < p + i ->
  nth k (Conv1d.zero_pad p r1) rzero = nth k (Conv1d.zero_pad p r2) rzero.
Proof.
  intros E H1 H2 Hk.
  destruct (lt_dec k p) as [Hlt|Hge].
  - now rewrite !nth_zero_pad_left.
  - rewrite (@nth_zero_pad_mid p k r1), (@nth_zero_pad_mid p k r2) by lia.
    rewrite <- (nth_firstn_lt r1 (i := i)) by lia.
    rewrite <- (nth_firstn_lt r2 (i := i)) by lia.
    now rewrite E.
Qed.

Lemma agree_length (i : nat) (x1 x2 : list (list R)) :
  agree i x1 x2 -> length x1 = length x2.
Proof.
  intro E. apply (f_equal (@length _)) in E. now rewrite !length_map in E.
Qed.

Lemma agree_rows (i c : nat) (x1 x2 : list (list R)) :
  agree i x1 x2 -> firstn i (nth c x1 []) = firstn i (nth c x2 []).
Proof.
  unfold agree. revert x2 c. induction x1 as [|r1 x1 IH]; intros [|r2 x2] c E;
    simpl in E; try discriminate.
  - reflexivity.
  - injection E as Er Ex. destruct c; simpl; [exact Er|]. now apply IH.
Qed.

Lemma agree_width (i : nat) (x1 x2 : list (list R)) :
  agree i x1 x2 -> Nat.min i (width x1) = Nat.min i (width x2).
Proof.
  unfold agree. destruct x1 as [|r1 x1], x2 as [|r2 x2]; simpl; intro E;
    try discriminate; [reflexivity|].
  injection E as Er _. apply (f_equal (@length _)) in Er.
  now rewrite !length_firstn in Er.
Qed.

Lemma map_firstn_short (i : nat) (x : list (list R)) :
  Forall (fun r => length r <= i) x -> map (firstn i) x = x.
Proof.
  induction 1 as [|r x Hr _ IH]; simpl; [reflexivity|].
  now rewrite IH, firstn_all2.
Qed.

(** Tensors that agree before [i] are equal, or both reach [i]. *)
Lemma agree_cases (i : nat) (x1 x2 : list (list R)) :
  rect x1 -> rect x2 -> agree i x1 x2 ->
  x1 = x2 \/ (i <= width x1 /\ i <= width x2).
Proof.
  intros R1 R2 E. pose proof (agree_width E) as Hw.
  destruct (le_lt_dec i (width x1)) as [H1|H1];
    destruct (le_lt_dec i (width x2)) as [H2|H2]; try lia. left.
  unfold agree in E.
  rewrite (@map_firstn_short i x1), (@map_firstn_short i x2) in E; [exact E| |];
    eapply Forall_impl; try eassumption; cbv beta; intros; lia.
Qed.

(** An output entry of a causal convolution at a position before [i]
    reads the input only before [i]. *)
Lemma at_causal (m : Conv1d.t R) (x1 x2 : list (list R)) (i o t : nat) :
  Conv1d.stride m = 1 ->
  Conv1d.padding m = (Conv1d.kernel_size m - 1) * Conv1d.dilation m ->
  agree i x1 x2 -> rect x1 -> rect x2 -> i <= width x1 -> i <= width x2 ->
  t < i ->
  Conv1d.at_ m x1 o t = Conv1d.at_ m x2 o t.
Proof.
  intros Hs Hp E R1 R2 W1 W2 Ht. unfold Conv1d.at_. f_equal.
  apply sum_n_ext. intros c _. apply sum_n_ext. intros j Hj. f_equal.
  pose proof (agree_length E) as Hlen.
  destruct (lt_dec c (length x1)) as [Hc|Hc].
  - apply pad_prefix with (i := i).
    + now apply agree_rows.
    + unfold rect in R1. rewrite Forall_forall in R1.
      rewrite (R1 (nth c x1 [])) by (apply nth_In; exact Hc). exact W1.
    + unfold rect in R2. rewrite Forall_forall in R2.
      rewrite (R2 (nth c x2 [])) by (apply nth_In; lia). exact W2.
    + rewrite Hs, Hp. nia.
  - rewrite (nth_overflow x1) by lia. rewrite (nth_overflow x2) by lia. reflexivity.
Qed.

Lemma entries_prefix (i c t : nat) (x1 x2 : list (list R)) :
  agree i x1 x2 -> t < i -> entries x1 c t = entries x2 c t.
Proof.
  intros E Ht. unfold entries.
  rewrite <- (nth_firstn_lt (nth c x1 []) (i := i)) by exact Ht.
  rewrite <- (nth_firstn_lt (nth c x2 []) (i := i)) by exact Ht.
  now rewrite (agree_rows c E).
Qed.

End Causality.

Section LayerCausality.
Context {R : Type} `{Scalar R}.

Lemma agree_zero (x1 x2 : list (list R)) : length x1 = length x2 -> agree 0 x1 x2.
Proof.
  unfold agree. revert x2. induction x1 as [|r1 x1 IH]; intros [|r2 x2] E;
    simpl in *; try discriminate; [reflexivity|].
  f_equal. apply IH. lia.
Qed.

Lemma agree_refl (i : nat) (x : list (list R)) : agree i x x.
Proof. reflexivity. Qed.

(** One causal layer keeps agreement before [i], in either mode, with
    the same masks. *)
Lemma layer_causal (l : ConvLayer.t R) (md : option (nat -> nat -> bool)) (i : nat)
      (x1 x2 o1 o2 : list (list R)) :
  causal_layer l -> rect x1 -> rect x2 -> agree i x1 x2 ->
  ConvLayer.forward l md x1 = Some o1 -> ConvLayer.forward l md x2 = Some o2 ->
  agree i o1 o2.
Proof.
  intros (n_in & n_out & k & d & dr & w & -> & Hd) R1 R2 E Ho1 Ho2.
  assert (Hl1 : length x1 = n_in) by (eapply forward_needs_channels; eauto).
  assert (Hl2 : length x2 = n_in) by (eapply forward_needs_channels; eauto).
  assert (L1 : length o1 = n_out)
    by (eapply proj2, forward_rect with (x := x1); eassumption).
  assert (L2 : length o2 = n_out)
    by (eapply proj2, forward_rect with (x := x2); eassumption).
  destruct (agree_cases R1 R2 E) as [-> | [W1 W2]].
  { rewrite Ho1 in Ho2. injection Ho2 as ->. apply agree_refl. }
  destruct (le_lt_dec 3 k) as [Hk|Hk].
  - rewrite forward_causal_closed in Ho1, Ho2 by (try assumption; reflexivity).
    destruct (negb (n_in =? n_out) && (width x1 =? 0)); [discriminate|].
    destruct (negb (n_in =? n_out) && (width x2 =? 0)); [discriminate|].
    injection Ho1 as <-. injection Ho2 as <-.
    unfold agree. rewrite !map_firstn_tab, !Nat.min_l by assumption.
    apply tab_ext. intros c t Hc Ht.
    assert (HY : forall o,
               Conv1d.at_ (ConvLayer.conv
                             (ConvLayer.init n_in n_out k 1 d ((k - 1) * d) dr w)) x1 o t
               = Conv1d.at_ (ConvLayer.conv
                               (ConvLayer.init n_in n_out k 1 d ((k - 1) * d) dr w)) x2 o t).
    { intro o. apply at_causal with (i := i); auto. }
    f_equal.
    + unfold gated, dropped, gate. rewrite !HY. reflexivity.
    + unfold residual. destruct (n_in =? n_out).
      * now apply entries_prefix with (i := i).
      * apply at_causal with (i := i); auto.
  - destruct (Nat.eq_dec n_out 0) as [Hn|Hn].
    { destruct o1; destruct o2; simpl in *; try lia. apply agree_refl. }
    assert (S1 : width x1 <= 1)
      by (apply (@forward_short _ _ n_in n_out k d ((k - 1) * d) dr w md x1 o1
                                ltac:(lia) Hd eq_refl R1 ltac:(lia) Ho1)).
    assert (S2 : width x2 <= 1)
      by (apply (@forward_short _ _ n_in n_out k d ((k - 1) * d) dr w md x2 o2
                                ltac:(lia) Hd eq_refl R2 ltac:(lia) Ho2)).
    destruct (Nat.eq_dec i 0) as [-> | Hi].
    + apply agree_zero. lia.
    + assert (x1 = x2) as ->.
      { unfold agree in E.
        rewrite (@map_firstn_short _ i x1), (@map_firstn_short _ i x2) in E; [exact E| |];
          eapply Forall_impl; try eassumption; cbv beta; intros; lia. }
      rewrite Ho1 in Ho2. injection Ho2 as ->. apply agree_refl.
Qed.

Lemma layer_rect (l : ConvLayer.t R) (md : option (nat -> nat -> bool))
      (x o : list (list R)) :
  causal_layer l -> rect x -> ConvLayer.forward l md x = Some o -> rect o.
Proof.
  intros (n_in & n_out & k & d & dr & w & -> & Hd) Hx Ho.
  eapply proj1, forward_rect with (x := x); eassumption.
Qed.

Lemma Sequential_causal (layers : list (ConvLayer.t R))
      (md : option (nat -> nat -> nat -> bool)) (i j : nat)
      (x1 x2 y1 y2 : list (list R)) :
  Forall causal_layer layers -> rect x1 -> rect x2 -> agree i x1 x2 ->
  GenEncoder.Sequential layers md j x1 = Some y1 ->
  GenEncoder.Sequential layers md j x2 = Some y2 ->
  agree i y1 y2 /\ rect y1 /\ rect y2.
Proof.
  intro HF. revert j x1 x2. induction HF as [|l layers Hl _ IH];
    intros j x1 x2 R1 R2 E; simpl; intros H1 H2.
  - injection H1 as <-. injection H2 as <-. auto.
  - destruct (ConvLayer.forward l _ x1) as [o1|] eqn:E1; cbn [bind] in H1; [|discriminate].
    destruct (ConvLayer.forward l _ x2) as [o2|] eqn:E2; cbn [bind] in H2; [|discriminate].
    apply (IH (S j) o1 o2); auto.
    + eapply layer_rect; [exact Hl|exact R1|exact E1].
    + eapply layer_rect; [exact Hl|exact R2|exact E2].
    + eapply layer_causal; [exact Hl|exact R1|exact R2|exact E|exact E1|exact E2].
Qed.

Lemma GenEncoder_init_causal (input_size hid_size n_levels kernel_size : nat)
      (dropout : R) (w : nat -> ConvLayer.params R) :
  Forall causal_layer
         (GenEncoder.init input_size hid_size n_levels kernel_size dropout w).
Proof.
  unfold GenEncoder.init. apply Forall_forall. intros l Hl.
  apply in_map_iff in Hl. destruct Hl as [i [<- _]].
  assert (Hpow : 1 <= 2 ^ i) by (pose proof (Nat.pow_nonzero 2 i); lia).
  cbv zeta. destruct (i =? 0).
  - exists input_size, hid_size, kernel_size, (2 ^ i), dropout, (w i). auto.
  - exists hid_size, hid_size, kernel_size, (2 ^ i), dropout, (w i). auto.
Qed.

End LayerCausality.

(** ** The generative model *)

Section ModelFacts.
Context {R : Type} `{Scalar R}.

Lemma map_firstn_transpose (i n : nat) (e : list (list R)) :
  map (firstn i) (transpose n e) = transpose n (firstn i e).
Proof.
  unfold transpose. rewrite map_map. apply map_ext. intro c.
  apply firstn_map.
Qed.

Lemma shape_transpose (n : nat) (e : list (list R)) : shape n (length e) (transpose n e).
Proof.
  unfold transpose. split.
  - now rewrite length_map, length_seq.
  - apply Forall_forall. intros r Hr. apply in_map_iff in Hr.
    destruct Hr as [c [<- _]]. apply length_map.
Qed.

Lemma column_prefix (i t : nat) (y1 y2 : list (list R)) :
  agree i y1 y2 -> t < i ->
  map (fun row => nth t row rzero) y1 = map (fun row => nth t row rzero) y2.
Proof.
  intros E Ht.
  assert (P : forall y : list (list R),
             map (fun row => nth t row rzero) y
             = map (fun row => nth t row rzero) (map (firstn i) y)).
  { intro y. rewrite map_map. apply map_ext. intro r.
    symmetry. now apply nth_firstn_lt. }
  rewrite (P y1), (P y2). unfold agree in E. now rewrite E.
Qed.

Lemma firstn_transpose_back (i : nat) (y1 y2 : list (list R)) :
  agree i y1 y2 ->
  firstn i (transpose (width y1) y1) = firstn i (transpose (width y2) y2).
Proof.
  intro E. unfold transpose. rewrite !firstn_map_seq, (agree_width E).
  apply map_ext_in. intros t Ht. apply in_seq in Ht.
  apply column_prefix with (i := i); [exact E|lia].
Qed.

(** In inference mode the batch rows are processed alike. *)
Lemma forward_eval_rows (m : GEN.t R) (input : list (list nat)) :
  GEN.forward m None input = mapM (GEN.forward1 m None) input.
Proof.
  unfold GEN.forward. generalize 0.
  induction input as [|s input IH]; intro k; simpl; [reflexivity|].
  now rewrite IH.
Qed.

Lemma forward1_causal (m : GEN.t R) (i : nat) (s1 s2 : list nat) (o1 o2 : list (list R)) :
  Forall causal_layer (GEN.encoder m) ->
  firstn i s1 = firstn i s2 ->
  GEN.forward1 m None s1 = Some o1 -> GEN.forward1 m None s2 = Some o2 ->
  firstn i o1 = firstn i o2.
Proof.
  intros Hc Es. unfold GEN.forward1, GenEncoder.forward. cbn [option_map Dropout].
  destruct (mapM (Embedding.forward (GEN.emb m)) s1) as [e1|] eqn:E1; cbn [bind];
    [|discriminate].
  destruct (mapM (Embedding.forward (GEN.emb m)) s2) as [e2|] eqn:E2; cbn [bind];
    [|discriminate].
  assert (Ee : firstn i e1 = firstn i e2)
    by (eapply mapM_prefix; [exact Es|exact E1|exact E2]).
  set (E := Embedding.embedding_dim (GEN.emb m)).
  destruct (GenEncoder.Sequential (GEN.encoder m) None 0 (transpose E e1)) as [y1|] eqn:Y1;
    cbn [bind]; [|discriminate].
  destruct (GenEncoder.Sequential (GEN.encoder m) None 0 (transpose E e2)) as [y2|] eqn:Y2;
    cbn [bind]; [|discriminate].
  intros D1 D2.
  assert (Hy : agree i y1 y2 /\ rect y1 /\ rect y2).
  { eapply Sequential_causal; [exact Hc| | | |exact Y1|exact Y2].
    - eapply shape_rect, shape_transpose.
    - eapply shape_rect, shape_transpose.
    - unfold agree. now rewrite !map_firstn_transpose, Ee. }
  destruct Hy as [Hy _].
  eapply mapM_prefix; [|exact D1|exact D2].
  now apply firstn_transpose_back.
Qed.

End ModelFacts.

(** C2. Causality of the generative model: in inference mode, two batches
    of token sequences that agree, row by row, at all positions before
    [i] get the same logits at every position before [i], whatever the
    tokens from position [i] on. *)
Theorem GEN_forward_causal {R : Type} `{Scalar R}
        (input_size dic_size output_size hid_size n_levels kernel_size : nat)
        (emb_dropout dropout : R) (w : GEN.params R)
        (i : nat) (input1 input2 : list (list nat)) (o1 o2 : list (list (list R))) :
  map (firstn i) input1 = map (firstn i) input2 ->
  GEN.forward (GEN.init input_size dic_size output_size hid_size n_levels kernel_size
                        emb_dropout dropout w) None input1 = Some o1 ->
  GEN.forward (GEN.init input_size dic_size output_size hid_size n_levels kernel_size
                        emb_dropout dropout w) None input2 = Some o2 ->
  map (firstn i) o1 = map (firstn i) o2.
Proof.
  rewrite !forward_eval_rows.
  set (m := GEN.init _ _ _ _ _ _ _ _ _).
  assert (Hc : Forall causal_layer (GEN.encoder m)) by apply GenEncoder_init_causal.
  clearbody m.
  revert input2 o1 o2. induction input1 as [|s1 b1 IH]; intros [|s2 b2] o1 o2 E;
    simpl in E; try discriminate; simpl.
  - intros F1 F2. injection F1 as <-. injection F2 as <-. reflexivity.
  - injection E as Es Eb.
    destruct (GEN.forward1 m None s1) as [r1|] eqn:E1; cbn [bind]; [|discriminate].
    destruct (mapM (GEN.forward1 m None) b1) as [t1|] eqn:T1; cbn [bind]; [|discriminate].
    destruct (GEN.forward1 m None s2) as [r2|] eqn:E2; cbn [bind]; [|discriminate].
    destruct (mapM (GEN.forward1 m None) b2) as [t2|] eqn:T2; cbn [bind]; [|discriminate].
    intros F1 F2. injection F1 as <-. injection F2 as <-. simpl. f_equal.
    + eapply forward1_causal; [exact Hc|exact Es|exact E1|exact E2].
    + now apply (IH b2).
Qed.

Lemma GEN_forward_causal_witness :
  map (firstn 2) Example.logits_123 = map (firstn 2) Example.logits_120
  /\ Example.logits_123 <> Example.logits_120.
Proof.
  split; [|discriminate].
  apply (GEN_forward_causal 2 4 4 3 2 3 0%Z 0%Z Example.gen_params 2
                            [[1; 2; 3]] [[1; 2; 0]]);
    vm_compute; reflexivity.
Defined.

(** ** The gated residual block *)

Section BlockFacts.
Context {R : Type} `{Scalar R}.

Lemma tensor_add_same_shape (C L : nat) (a b : list (list R)) :
  shape C L a -> shape C L b -> tensor_add a b = Some (map2 (map2 radd) a b).
Proof.
  intros Ha Hb.
  rewrite (shape_entries Ha), (shape_entries Hb), tensor_add_tab.
  f_equal. unfold tab. rewrite map2_map_seq. apply map_ext. intro c.
  now rewrite map2_map_seq.
Qed.

Lemma forward_unfold (l : ConvLayer.t R) (x : list (list R)) :
  ConvLayer.forward l None x =
    (g <- gated_conv l x ;;
     x' <- match ConvLayer.trans l with
           | Some tr => Conv1d.forward tr x
           | None => Some x
           end ;;
     tensor_add g x').
Proof.
  unfold ConvLayer.forward, gated_conv.
  destruct (Conv1d.forward (ConvLayer.conv l) x) as [y|]; cbn [bind]; [|reflexivity].
  destruct (GLU (ConvLayer.chomp l y)); reflexivity.
Qed.

End BlockFacts.

(** C1. With the padding the stack passes, [(kernel_size - 1) *
    dilation], a layer with one or two taps does not return a tensor of
    the input's length: on every input of length two or more its forward
    pass raises, at the sum with the residual.  The guard
    [dilation != padding] skips the trimming for two taps, and the slice
    [:-0] keeps nothing for one. *)
Theorem ConvLayer_forward_small_kernel_raises {R : Type} `{Scalar R}
        (n_inputs n_outputs kernel_size dilation : nat) (dropout : R)
        (w : ConvLayer.params R) (md : option (nat -> nat -> bool))
        (L : nat) (x : list (list R)) :
  kernel_size <= 2 -> 1 <= dilation ->
  0 < n_inputs -> 0 < n_outputs ->
  shape n_inputs L x -> 2 <= L ->
  ConvLayer.forward
    (ConvLayer.init n_inputs n_outputs kernel_size 1 dilation
                    ((kernel_size - 1) * dilation) dropout w) md x
  = None.
Proof.
  intros Hk Hd Hi Ho Hx HL.
  destruct (ConvLayer.forward _ md x) as [o|] eqn:E; [|reflexivity].
  exfalso.
  assert (Hw : width x <= 1).
  { apply (@forward_short _ _ n_inputs n_outputs kernel_size dilation
                          ((kernel_size - 1) * dilation) dropout w md x o);
      auto. eapply shape_rect; exact Hx. }
  rewrite (shape_width Hx Hi) in Hw. lia.
Qed.

Lemma ConvLayer_forward_small_kernel_raises_witness :
  ConvLayer.forward (ConvLayer.init 2 2 2 1 1 ((2 - 1) * 1) 0%Z Example.layer_params)
                    None Example.x23
  = None.
Proof.
  apply (@ConvLayer_forward_small_kernel_raises Z _ 2 2 2 1 0%Z Example.layer_params
                                                None 3 Example.x23);
    try lia.
  split; [reflexivity|]. repeat constructor.
Defined.

(** X1. With three taps or more the layer keeps the length: the causal
    padding is added and trimmed before gating. *)
Lemma ConvLayer_forward_keeps_length {R : Type} `{Scalar R}
      (n_inputs n_outputs kernel_size dilation : nat) (dropout : R)
      (w : ConvLayer.params R) (md : option (nat -> nat -> bool))
      (L : nat) (x : list (list R)) :
  3 <= kernel_size -> 1 <= dilation ->
  0 < n_inputs -> shape n_inputs L x -> 1 <= L ->
  exists o,
    ConvLayer.forward
      (ConvLayer.init n_inputs n_outputs kernel_size 1 dilation
                      ((kernel_size - 1) * dilation) dropout w) md x
    = Some o
    /\ shape n_outputs L o.
Proof.
  intros Hk Hd Hi Hx HL.
  pose proof (shape_width Hx Hi) as Hw.
  eexists. split.
  - apply forward_causal; auto.
    + apply Hx.
    + eapply shape_rect; exact Hx.
    + right. lia.
  - rewrite Hw. apply shape_tab.
Qed.

(** C8. The residual path.  When the channel counts are equal the layer
    has no projection and its output in inference mode is the gated
    convolution plus the input itself, entry by entry when the shapes
    match; when they differ the input first goes through the 1x1
    convolution [trans]. *)
Theorem ConvLayer_residual_path {R : Type} `{Scalar R}
        (n_inputs n_outputs kernel_size stride dilation padding : nat) (dropout : R)
        (w : ConvLayer.params R) (x : list (list R)) :
  let l := ConvLayer.init n_inputs n_outputs kernel_size stride dilation padding
                          dropout w in
  (n_inputs = n_outputs ->
   ConvLayer.trans l = None
   /\ ConvLayer.forward l None x = (g <- gated_conv l x ;; tensor_add g x)
   /\ forall g C L, gated_conv l x = Some g -> shape C L g -> shape C L x ->
                    ConvLayer.forward l None x = Some (map2 (map2 radd) g x))
  /\ (n_inputs <> n_outputs ->
      let tr := Conv1d.Build n_inputs n_outputs 1 1 0 1
                             (ConvLayer.trans_weight w) (ConvLayer.trans_bias w) in
      ConvLayer.trans l = Some tr
      /\ ConvLayer.forward l None x =
           (g <- gated_conv l x ;; x' <- Conv1d.forward tr x ;; tensor_add g x')).
Proof.
  intro l. split.
  - intro E. apply Nat.eqb_eq in E.
    assert (Ht : ConvLayer.trans l = None).
    { unfold l. cbn [ConvLayer.init ConvLayer.trans]. now rewrite E. }
    split; [exact Ht|]. split.
    + rewrite forward_unfold, Ht. destruct (gated_conv l x); reflexivity.
    + intros g C L Hg Sg Sx. rewrite forward_unfold, Ht, Hg. cbn [bind].
      now apply tensor_add_same_shape with (C := C) (L := L).
  - intro E. apply Nat.eqb_neq in E. cbv zeta.
    assert (Ht : ConvLayer.trans l
                 = Some (Conv1d.Build n_inputs n_outputs 1 1 0 1
                                      (ConvLayer.trans_weight w) (ConvLayer.trans_bias w))).
    { unfold l. cbn [ConvLayer.init ConvLayer.trans]. now rewrite E. }
    split; [exact Ht|]. now rewrite forward_unfold, Ht.
Qed.

Lemma ConvLayer_residual_path_witness :
  ConvLayer.forward (ConvLayer.init 2 2 3 1 1 2 0%Z Example.layer_params) None Example.x23
  = (g <- gated_conv (ConvLayer.init 2 2 3 1 1 2 0%Z Example.layer_params) Example.x23 ;;
     tensor_add g Example.x23)
  /\ ConvLayer.forward (ConvLayer.init 2 3 3 1 1 2 0%Z Example.layer_params) None Example.x23
     = (g <- gated_conv (ConvLayer.init 2 3 3 1 1 2 0%Z Example.layer_params) Example.x23 ;;
        x' <- Conv1d.forward
                (Conv1d.Build 2 3 1 1 0 1 (ConvLayer.trans_weight Example.layer_params)
                              (ConvLayer.trans_bias Example.layer_params)) Example.x23 ;;
        tensor_add g x').
Proof.
  split.
  - apply (proj1 (ConvLayer_residual_path 2 2 3 1 1 2 0%Z Example.layer_params
                                          Example.x23) eq_refl).
  - apply (proj2 (ConvLayer_residual_path 2 3 3 1 1 2 0%Z Example.layer_params
                                          Example.x23)).
    discriminate.
Defined.

(** C9. The layer [GEN.linear] is built by the constructor, a
    [Linear(input_size, hid_size)] without bias, and held by the model,
    but the forward pass never applies it: replacing it, in any mode and
    on any input, leaves the output unchanged. *)
Theorem GEN_forward_ignores_linear {R : Type} `{Scalar R}
        (input_size dic_size output_size hid_size n_levels kernel_size : nat)
        (emb_dropout dropout : R) (w : GEN.params R)
        (m : GEN.t R) (lin : Linear.t R)
        (md : option (nat -> nat -> nat -> nat -> bool)) (input : list (list nat)) :
  GEN.linear (GEN.init input_size dic_size output_size hid_size n_levels kernel_size
                       emb_dropout dropout w)
  = Linear.Build input_size hid_size (GEN.linear_weight w) None
  /\ GEN.linear (with_linear lin m) = lin
  /\ GEN.forward (with_linear lin m) md input = GEN.forward m md input.
Proof. repeat split. Qed.

(** ** Model selection *)

Section SelectionFacts.
Context {R : Type} `{Scalar R}.

Lemma final_best_app (best : R) (l1 l2 : list (R * bool)) :
  final_best best (l1 ++ l2) = final_best (final_best best l1) l2.
Proof.
  revert best; induction l1 as [|[v s] l1 IH]; intro best; simpl; [reflexivity|].
  apply IH.
Qed.

Lemma decisions_ok_app (best : R) (l1 l2 : list (R * bool)) :
  decisions_ok best (l1 ++ l2)
  <-> decisions_ok best l1 /\ decisions_ok (final_best best l1) l2.
Proof.
  revert best; induction l1 as [|[v s] l1 IH]; intro best; simpl; [tauto|].
  rewrite IH. tauto.
Qed.

Lemma saved_losses_app (l1 l2 : list (R * bool)) :
  Gen.saved_losses (l1 ++ l2) = Gen.saved_losses l1 ++ Gen.saved_losses l2.
Proof. unfold Gen.saved_losses. now rewrite filter_app, map_app. Qed.

(** The checkpoints are written at strictly falling losses. *)
Lemma decisions_falling (best : R) (l : list (R * bool)) :
  decisions_ok best l -> falling best (Gen.saved_losses l).
Proof.
  revert best; induction l as [|[v s] l IH]; intro best; simpl; [tauto|].
  intros [Hs Hl]. destruct s; unfold Gen.saved_losses in *; simpl.
  - split; [now symmetry|]. now apply IH.
  - now apply IH.
Qed.

Lemma falling_nth (prev : R) (l : list R) (k : nat) (a b : R) :
  falling prev l -> nth_error l k = Some a -> nth_error l (S k) = Some b ->
  rltb b a = true.
Proof.
  revert prev k; induction l as [|c l IH]; intros prev k Hf Ha Hb; [destruct k; discriminate|].
  destruct Hf as [_ Hf]. destruct k as [|k].
  - simpl in Ha. injection Ha as ->. destruct l as [|d l]; [discriminate|].
    simpl in Hb. injection Hb as ->. apply Hf.
  - simpl in Ha. apply (IH c k); auto.
Qed.

(** The tracked best loss is the loss of the latest checkpoint, or the
    value it started from. *)
Lemma final_best_last (best : R) (l : list (R * bool)) :
  final_best best l = last (Gen.saved_losses l) best.
Proof.
  assert (Hlast : forall (l' : list R) (a d d' : R), last (a :: l') d = last (a :: l') d').
  { induction l' as [|b l' IH]; intros a d d'; [reflexivity|]. apply (IH b). }
  revert best; induction l as [|[v s] l IH]; intro best; [reflexivity|].
  cbn [final_best]. rewrite IH. unfold Gen.saved_losses.
  destruct s; simpl; [|reflexivity].
  destruct (map fst (filter snd l)) as [|a rest]; [reflexivity|]. apply Hlast.
Qed.

Section Order.
(** The comparison ranks the values [vals]. *)
Variable vals : list R.
Hypothesis Hranks : ranks vals.

Lemma rltb_asym (a b : R) :
  In a vals -> In b vals -> rltb a b = true -> rltb b a = false.
Proof.
  destruct Hranks as (Hirr & Htrans & _). intros Ha Hb Hab.
  destruct (rltb b a) eqn:Hba; [|reflexivity].
  rewrite <- (Hirr a Ha). symmetry. now apply Htrans with (b := b).
Qed.

(** The tracked best loss is a least element of what was seen. *)
Lemma final_best_least (best : R) (l : list (R * bool)) :
  In best vals -> incl (map fst l) vals ->
  decisions_ok best l ->
  (final_best best l = best \/ In (final_best best l) (map fst l))
  /\ rltb best (final_best best l) = false
  /\ forall u, In u (map fst l) -> rltb u (final_best best l) = false.
Proof.
  destruct Hranks as (Hirr & Htrans & Hneg).
  revert best; induction l as [|[v s] l IH]; intros best Hbest Hl; simpl.
  - intros _. split; [now left|]. split; [now apply Hirr|]. intros u [].
  - intros [Hs Hd].
    assert (Hv : In v vals) by (apply Hl; now left).
    assert (Hl' : incl (map fst l) vals) by (intros u Hu; apply Hl; now right).
    assert (Hnext : In (if s then v else best) vals) by (now destruct s).
    destruct (IH _ Hnext Hl' Hd) as (Hin & Hb & Hall).
    assert (Hfin : In (final_best (if s then v else best) l) vals).
    { destruct Hin as [->|Hin]; [exact Hnext|now apply Hl']. }
    destruct s.
    + symmetry in Hs. split; [right; destruct Hin as [->|Hin]; auto|].
      split.
      * apply Hneg with (b := v); auto. now apply rltb_asym.
      * intros u [<-|Hu]; auto.
    + symmetry in Hs. split; [destruct Hin as [->|Hin]; auto|].
      split; [exact Hb|].
      intros u [<-|Hu]; auto.
      apply Hneg with (b := best); auto.
Qed.

Lemma decision_lowest (pre post : list (R * bool)) (v : R) (s : bool) :
  incl (rofnat 100 :: map fst (pre ++ (v, s) :: post)) vals ->
  decisions_ok (rofnat 100) (pre ++ (v, s) :: post) ->
  (s = true <-> lowest_so_far pre v).
Proof.
  destruct Hranks as (Hirr & Htrans & Hneg).
  intros Hincl Hd. apply decisions_ok_app in Hd. destruct Hd as [Hpre [Hs _]].
  assert (H100 : In (rofnat 100) vals) by (apply Hincl; now left).
  assert (Hv : In v vals).
  { apply Hincl. right. rewrite map_app. apply in_or_app. right. now left. }
  assert (Hp : incl (map fst pre) vals).
  { intros u Hu. apply Hincl. right. rewrite map_app. apply in_or_app. now left. }
  destruct (@final_best_least (rofnat 100) pre H100 Hp Hpre) as (Hin & Hb & Hall).
  assert (Hfin : In (final_best (rofnat 100) pre) vals).
  { destruct Hin as [->|Hin]; [exact H100|now apply Hp]. }
  rewrite Hs. unfold lowest_so_far. split.
  - intro Hlt. split.
    + destruct (rltb v (rofnat 100)) eqn:E; [reflexivity|].
      rewrite <- Hlt. symmetry. now apply Hneg with (b := rofnat 100).
    + intros u Hu. destruct (rltb v u) eqn:E; [reflexivity|].
      rewrite <- Hlt. symmetry. apply Hneg with (b := u); auto.
  - intros [Hlow Hless]. destruct Hin as [->|Hin]; auto.
Qed.

End Order.

Section Loop.
Variable optimizer : Type.
Variable step : optimizer -> GEN.t R -> (nat -> nat -> nat -> nat -> bool) ->
                list (list nat) -> GEN.t R * optimizer.
Variable scheduler_step : optimizer -> R -> optimizer.
Variable n_words : nat.
Variable exp_overflows : R -> bool.
Variable train_iter : nat -> list (list (list nat)).
Variable val_iter : list (list (list nat)).
Variable masks : nat -> nat -> nat -> nat -> nat -> nat -> bool.

Local Abbreviation epoch_body :=
  (Gen.epoch_body step scheduler_step n_words exp_overflows train_iter val_iter masks).
Local Abbreviation epochs_from :=
  (Gen.epochs_from step scheduler_step n_words exp_overflows train_iter val_iter masks).

Lemma select_inv (model : GEN.t R) (opt : optimizer) (val_loss : R)
      (tr : Gen.trainer optimizer) :
  selection_inv tr ->
  selection_inv (Gen.select model opt val_loss tr)
  /\ length (Gen.log (Gen.select model opt val_loss tr)) = S (length (Gen.log tr)).
Proof.
  intros (Hd & Hb & Hs). unfold Gen.select.
  destruct (rltb val_loss (Gen.best_vloss tr)) eqn:E;
    (split; [|cbn [Gen.log]; rewrite length_app; simpl; lia]);
    unfold selection_inv; cbn [Gen.log Gen.best_vloss Gen.saved];
    rewrite decisions_ok_app, final_best_app, saved_losses_app, <- Hb; simpl;
    rewrite E.
  - repeat split; auto; try discriminate.
    intro Habs. apply app_eq_nil in Habs. destruct Habs; discriminate.
  - repeat split; auto; unfold Gen.saved_losses at 2; simpl;
      rewrite app_nil_r; apply Hs.
Qed.

(** One epoch: the loss logged is the validation loss of the
    parameters the epoch ends with, the decision is its comparison
    with the best loss before, and the checkpoint becomes these
    parameters when it is taken and is left alone when it is not. *)
Lemma epoch_body_spec (epoch : nat) (tr tr' : Gen.trainer optimizer) :
  epoch_body epoch tr = Some tr' ->
  exists v,
    Gen.evaluate n_words (Gen.model tr') val_iter = Some v
    /\ Gen.log tr' = Gen.log tr ++ [(v, rltb v (Gen.best_vloss tr))]
    /\ Gen.saved tr' = (if rltb v (Gen.best_vloss tr)
                        then Some (Gen.model tr') else Gen.saved tr)
    /\ Gen.best_vloss tr' = (if rltb v (Gen.best_vloss tr)
                             then v else Gen.best_vloss tr)
    /\ (selection_inv tr -> selection_inv tr').
Proof.
  unfold Gen.epoch_body.
  destruct (Gen.train _ _ _ _ _ _) as [r|]; cbn [bind]; [|discriminate].
  destruct (Gen.evaluate n_words (fst (fst r)) val_iter) as [v|] eqn:Ev;
    cbn [bind]; [|discriminate].
  cbv zeta. destruct (exp_overflows v); [discriminate|].
  intro E. injection E as <-. exists v.
  split; [|split; [|split; [|split]]].
  - unfold Gen.select. now destruct (rltb v (Gen.best_vloss tr)).
  - unfold Gen.select. now destruct (rltb v (Gen.best_vloss tr)).
  - unfold Gen.select. now destruct (rltb v (Gen.best_vloss tr)).
  - unfold Gen.select. now destruct (rltb v (Gen.best_vloss tr)).
  - intro Hinv. now apply select_inv.
Qed.

Lemma epochs_from_inv (k epoch : nat) (tr tr' : Gen.trainer optimizer) :
  selection_inv tr ->
  epochs_from k epoch tr = Some tr' ->
  selection_inv tr'
  /\ exists more, Gen.log tr' = Gen.log tr ++ more /\ length more = k.
Proof.
  revert epoch tr. induction k as [|k IH]; intros epoch tr Hinv; simpl.
  - intro E. injection E as <-. split; [exact Hinv|].
    exists []. now rewrite app_nil_r.
  - destruct (epoch_body epoch tr) as [tr1|] eqn:E1; cbn [bind]; [|discriminate].
    apply epoch_body_spec in E1. destruct E1 as (v & _ & Hlog & _ & _ & Hstep).
    intro E. apply IH in E; [|now apply Hstep].
    destruct E as [Hinv' (more & Hmore & Hlen)]. split; [exact Hinv'|].
    exists ((v, rltb v (Gen.best_vloss tr)) :: more).
    rewrite Hmore, Hlog, <- app_assoc. simpl. now rewrite Hlen.
Qed.

(** A run of [k + j] epochs is a run of [k] epochs followed by one of
    [j] epochs. *)
Lemma epochs_from_split (k j epoch : nat) (tr : Gen.trainer optimizer) :
  epochs_from (k + j) epoch tr
  = (trk <- epochs_from k epoch tr ;; epochs_from j (k + epoch) trk).
Proof.
  revert epoch tr. induction k as [|k IH]; intros epoch tr; simpl; [reflexivity|].
  destruct (epoch_body epoch tr) as [tr1|]; cbn [bind]; [|reflexivity].
  rewrite IH. now replace (k + S epoch) with (S (k + epoch)) by lia.
Qed.

End Loop.

End SelectionFacts.

(** C6. Model selection.  After any number of epochs the log has one
    entry per epoch.  For every epoch [k + 1] of the run: the loss
    logged is the validation loss of the parameters the epoch ends
    with; the prior best is the loss of the latest checkpoint, or the
    sentinel 100 when there is none; the epoch takes a checkpoint
    exactly when its loss is strictly below the prior best; when it
    does, the checkpoint holds the parameters of this epoch and the best
    loss becomes this loss, and when it does not, checkpoint and best
    loss are those of the epoch before.  Each checkpoint is written at
    a loss strictly below that of the checkpoint before.  When no loss
    is NaN (the comparison ranks the sentinel and the losses logged),
    an epoch takes a checkpoint exactly when its loss is strictly below
    the sentinel and every validation loss before it, and the losses of
    the checkpoints never increase. *)
Theorem best_checkpoint_selection {R : Type} `{Scalar R}
        (optimizer : Type)
        (step : optimizer -> GEN.t R -> (nat -> nat -> nat -> nat -> bool) ->
                list (list nat) -> GEN.t R * optimizer)
        (scheduler_step : optimizer -> R -> optimizer) (n_words : nat)
        (exp_overflows : R -> bool)
        (train_iter : nat -> list (list (list nat))) (val_iter : list (list (list nat)))
        (masks : nat -> nat -> nat -> nat -> nat -> nat -> bool)
        (epochs : nat) (model : GEN.t R) (opt : optimizer)
        (tr : Gen.trainer optimizer) :
  Gen.training_loop step scheduler_step n_words exp_overflows train_iter val_iter masks
                    epochs model opt
  = Some tr ->
  length (Gen.log tr) = epochs
  /\ (forall k, k < epochs ->
        exists before after v s,
          Gen.training_loop step scheduler_step n_words exp_overflows train_iter val_iter
                            masks k model opt = Some before
          /\ Gen.training_loop step scheduler_step n_words exp_overflows train_iter
                               val_iter masks (S k) model opt = Some after
          /\ Gen.log before = firstn k (Gen.log tr)
          /\ nth_error (Gen.log tr) k = Some (v, s)
          /\ Gen.evaluate n_words (Gen.model after) val_iter = Some v
          /\ Gen.best_vloss before
             = last (Gen.saved_losses (Gen.log before)) (rofnat 100)
          /\ s = rltb v (Gen.best_vloss before)
          /\ Gen.saved after = (if s then Some (Gen.model after) else Gen.saved before)
          /\ Gen.best_vloss after = (if s then v else Gen.best_vloss before))
  /\ (Gen.saved tr = None <-> Gen.saved_losses (Gen.log tr) = [])
  /\ (forall k a b,
        nth_error (Gen.saved_losses (Gen.log tr)) k = Some a ->
        nth_error (Gen.saved_losses (Gen.log tr)) (S k) = Some b ->
        rltb b a = true)
  /\ (ranks (rofnat 100 :: map fst (Gen.log tr)) ->
      (forall pre v s post,
          Gen.log tr = pre ++ (v, s) :: post -> (s = true <-> lowest_so_far pre v))
      /\ (forall k a b,
             nth_error (Gen.saved_losses (Gen.log tr)) k = Some a ->
             nth_error (Gen.saved_losses (Gen.log tr)) (S k) = Some b ->
             rltb a b = false)).
Proof.
  intros Hrun. unfold Gen.training_loop in *.
  assert (Hstart : selection_inv (Gen.start model opt)).
  { unfold selection_inv, Gen.start. cbn [Gen.log Gen.best_vloss Gen.saved].
    simpl. repeat split; auto. }
  destruct (epochs_from_inv _ _ _ _ _ _ _ _ _ Hstart Hrun)
    as [(Hd & Hb & Hs) (all & Hall & Hlen)].
  cbn [Gen.start Gen.log app] in Hall.
  assert (Hfall : forall k a b,
             nth_error (Gen.saved_losses (Gen.log tr)) k = Some a ->
             nth_error (Gen.saved_losses (Gen.log tr)) (S k) = Some b ->
             rltb b a = true).
  { intros k a b Ha Hb'.
    eapply falling_nth; [apply decisions_falling; exact Hd|exact Ha|exact Hb']. }
  split; [now rewrite Hall|]. split; [|split; [exact Hs|split; [exact Hfall|]]].
  - intros k Hk.
    replace epochs with (k + (1 + (epochs - k - 1))) in Hrun by lia.
    rewrite epochs_from_split in Hrun.
    destruct (Gen.epochs_from _ _ _ _ _ _ _ k 1 (Gen.start model opt))
      as [before|] eqn:Ek; cbn [bind] in Hrun; [|discriminate].
    rewrite epochs_from_split in Hrun.
    destruct (Gen.epochs_from _ _ _ _ _ _ _ 1 (k + 1) before)
      as [after|] eqn:E1; cbn [bind] in Hrun; [|discriminate].
    destruct (epochs_from_inv _ _ _ _ _ _ _ _ _ Hstart Ek)
      as [Hinvk (lk & Hlk & Hlenk)].
    cbn [Gen.start Gen.log app] in Hlk.
    pose proof E1 as Ebody. simpl in Ebody.
    destruct (Gen.epoch_body _ _ _ _ _ _ _ (k + 1) before) as [tr1|] eqn:Eb;
      cbn [bind] in Ebody; [|discriminate].
    injection Ebody as ->.
    apply epoch_body_spec in Eb.
    destruct Eb as (v & Hev & Hlog & Hsaved & Hbest & Hstep).
    destruct (epochs_from_inv _ _ _ _ _ _ _ _ _ (Hstep Hinvk) Hrun)
      as [_ (rest & Hrest & _)].
    assert (Htr : Gen.log tr
                  = Gen.log before ++ (v, rltb v (Gen.best_vloss before)) :: rest).
    { rewrite Hrest, Hlog, <- app_assoc. reflexivity. }
    exists before, after, v, (rltb v (Gen.best_vloss before)).
    split; [reflexivity|]. split.
    { replace (S k) with (k + 1) by lia. rewrite epochs_from_split, Ek. exact E1. }
    split.
    { rewrite Htr, firstn_app, firstn_all2 by (rewrite Hlk; lia).
      replace (k - length (Gen.log before)) with 0 by (rewrite Hlk; lia).
      simpl. now rewrite app_nil_r. }
    split.
    { rewrite Htr, nth_error_app2 by (rewrite Hlk; lia).
      replace (k - length (Gen.log before)) with 0 by (rewrite Hlk; lia).
      reflexivity. }
    split; [exact Hev|].
    split.
    { destruct Hinvk as (_ & Hbk & _). rewrite Hbk. apply final_best_last. }
    split; [reflexivity|]. split; [exact Hsaved|exact Hbest].
  - intro Hranks. split.
    + intros pre v s post E. rewrite E in Hd, Hranks.
      eapply decision_lowest; [exact Hranks|apply incl_refl|exact Hd].
    + intros k a b Ha Hb'.
      assert (Hin : forall u, In u (Gen.saved_losses (Gen.log tr)) ->
                              In u (rofnat 100 :: map fst (Gen.log tr))).
      { intros u Hu. right. unfold Gen.saved_losses in Hu.
        apply in_map_iff in Hu. destruct Hu as (x & <- & Hx).
        apply filter_In in Hx. apply in_map, Hx. }
      eapply rltb_asym; [exact Hranks| | |exact (Hfall k a b Ha Hb')].
      * apply Hin. eapply nth_error_In; exact Hb'.
      * apply Hin. eapply nth_error_In; exact Ha.
Qed.

(** ** Shapes through the model *)

Section ShapeFacts.
Context {R : Type} `{Scalar R}.

Lemma mapM_total {A B : Type} (f : A -> option B) (P : B -> Prop) (l : list A) :
  (forall a, In a l -> exists b, f a = Some b /\ P b) ->
  exists r, mapM f l = Some r /\ Forall P r /\ length r = length l.
Proof.
  induction l as [|a l IH]; intro Hf; simpl.
  - exists []. auto.
  - destruct (Hf a (or_introl eq_refl)) as [b [Eb Pb]].
    destruct IH as [r [Er [Pr Lr]]]; [intros; apply Hf; now right|].
    exists (b :: r). rewrite Eb, Er. simpl. auto.
Qed.

Lemma nth_map_seq (f : nat -> R) (n c : nat) :
  c < n -> nth c (map f (seq 0 n)) rzero = f c.
Proof.
  intro Hc.
  rewrite (nth_indep (map f (seq 0 n)) rzero (f 0)) by (now rewrite length_map, length_seq).
  now rewrite map_nth, seq_nth.
Qed.

Lemma transpose_tab (L n : nat) (F : nat -> nat -> R) :
  transpose n (tab L n F) = tab n L (fun c t => F t c).
Proof.
  unfold transpose, tab. apply map_ext_in. intros c Hc. apply in_seq in Hc.
  rewrite map_map. apply map_ext. intro t. apply nth_map_seq. lia.
Qed.

Lemma embed_tab (emb : Embedding.t R) (input : list nat) :
  Forall (fun tok => tok < Embedding.num_embeddings emb) input ->
  mapM (Embedding.forward emb) input
  = Some (tab (length input) (Embedding.embedding_dim emb)
              (fun t c => Embedding.weight emb (nth t input 0) c)).
Proof.
  intro Hin. rewrite Forall_forall in Hin.
  rewrite (mapM_ext_in (Embedding.forward emb)
             (fun tok => Some (map (Embedding.weight emb tok)
                                   (seq 0 (Embedding.embedding_dim emb))))).
  - rewrite mapM_map. f_equal. unfold tab.
    rewrite (list_tabulate input 0) at 1. now rewrite map_map.
  - intros tok Ht. unfold Embedding.forward.
    apply Hin in Ht. apply Nat.ltb_lt in Ht. now rewrite Ht.
Qed.

Lemma decode_tab (dec : Linear.t R) (L : nat) (Y : nat -> nat -> R) :
  exists G,
    mapM (Linear.forward dec) (tab L (Linear.in_features dec) Y)
    = Some (tab L (Linear.out_features dec) G).
Proof.
  exists (fun t o =>
            let s := sum_n (Linear.in_features dec)
                           (fun i => rmul (Linear.weight dec o i)
                                          (nth i (map (Y t) (seq 0 (Linear.in_features dec)))
                                               rzero)) in
            match Linear.bias dec with
            | Some b => radd s (b o)
            | None => s
            end).
  unfold tab. rewrite mapM_compose.
  rewrite <- mapM_map. apply mapM_ext_in. intros t _.
  unfold Linear.forward. now rewrite length_map, length_seq, Nat.eqb_refl.
Qed.

Variables (input_size hid_size kernel_size : nat) (dropout : R).
Variable w : nat -> ConvLayer.params R.
Hypothesis Hk : 3 <= kernel_size.
Hypothesis Hin : 0 < input_size.
Hypothesis Hhid : 0 < hid_size.

Lemma hidden_layers_shape (md : option (nat -> nat -> nat -> bool)) (L n s j : nat)
      (x : list (list R)) :
  1 <= s -> shape hid_size L x ->
  exists Y,
    GenEncoder.Sequential
      (map (fun i =>
              let dilation_size := 2 ^ i in
              if i =? 0
              then ConvLayer.init input_size hid_size kernel_size 1 dilation_size
                                  ((kernel_size - 1) * dilation_size) dropout (w i)
              else ConvLayer.init hid_size hid_size kernel_size 1 dilation_size
                                  ((kernel_size - 1) * dilation_size) dropout (w i))
           (seq s n)) md j x
    = Some (tab hid_size L Y).
Proof.
  revert s j x. induction n as [|n IH]; intros s j x Hs Hx.
  - exists (entries x). simpl. f_equal. now apply shape_entries.
  - cbn [seq map GenEncoder.Sequential]. cbv zeta.
    replace (s =? 0) with false by (symmetry; apply Nat.eqb_neq; lia).
    assert (Hpow : 1 <= 2 ^ s) by (pose proof (Nat.pow_nonzero 2 s); lia).
    rewrite forward_causal; auto.
    + cbn [bind]. rewrite (shape_width Hx Hhid).
      apply IH; [lia|apply shape_tab].
    + apply Hx.
    + eapply shape_rect; exact Hx.
Qed.

Lemma encoder_shape (md : option (nat -> nat -> nat -> bool)) (n_levels L : nat)
      (x : list (list R)) :
  1 <= n_levels -> 1 <= L -> shape input_size L x ->
  exists Y,
    GenEncoder.forward
      (GenEncoder.init input_size hid_size n_levels kernel_size dropout w) md x
    = Some (tab hid_size L Y).
Proof.
  intros Hn HL Hx. unfold GenEncoder.forward, GenEncoder.init.
  destruct n_levels as [|n]; [lia|].
  cbn [seq map GenEncoder.Sequential]. cbv zeta. cbn [Nat.eqb].
  rewrite forward_causal; auto.
  - cbn [bind]. rewrite (shape_width Hx Hin).
    apply hidden_layers_shape; [lia|apply shape_tab].
  - apply Hx.
  - eapply shape_rect; exact Hx.
  - right. rewrite (shape_width Hx Hin). exact HL.
Qed.

End ShapeFacts.

Section ForwardShape.
Context {R : Type} `{Scalar R}.

Variables (input_size dic_size output_size hid_size n_levels kernel_size : nat).
Variables (emb_dropout dropout : R) (w : GEN.params R).
Hypothesis Hk : 3 <= kernel_size.
Hypothesis Hlev : 1 <= n_levels.
Hypothesis Hin : 0 < input_size.
Hypothesis Hhid : 0 < hid_size.

(** On a non-empty sequence of known tokens the forward pass returns one
    row of [output_size] logits per position, in either mode. *)
Lemma forward1_shape (md : option (nat -> nat -> nat -> bool)) (input : list nat) :
  1 <= length input -> Forall (fun tok => tok < dic_size) input ->
  exists o,
    GEN.forward1 (GEN.init input_size dic_size output_size hid_size n_levels kernel_size
                           emb_dropout dropout w) md input
    = Some o
    /\ shape (length input) output_size o.
Proof.
  intros HL Htok. unfold GEN.forward1.
  cbn [GEN.init GEN.emb GEN.drop GEN.encoder GEN.decoder Embedding.embedding_dim].
  rewrite embed_tab by exact Htok. cbn [bind Embedding.embedding_dim Embedding.weight].
  rewrite Dropout_tab, transpose_tab.
  match goal with
  | |- context [GenEncoder.forward _ _ (tab _ _ ?F)] =>
      destruct (@encoder_shape _ _ input_size hid_size kernel_size dropout
                               (GEN.encoder_params w) Hk Hin Hhid md n_levels
                               (length input) _ Hlev HL
                               (shape_tab input_size (length input) F)) as [Y EY]
  end.
  rewrite EY. cbn [bind].
  rewrite (width_tab _ _ Hhid), transpose_tab.
  destruct (decode_tab (Linear.Build hid_size output_size (GEN.decoder_weight w)
                                     (Some (GEN.decoder_bias w)))
                       (length input) (fun t c => Y c t)) as [G EG].
  cbn [Linear.in_features Linear.out_features] in EG.
  exists (tab (length input) output_size G). split; [exact EG|apply shape_tab].
Qed.

Lemma forward_shape (md : option (nat -> nat -> nat -> nat -> bool)) (L : nat)
      (input : list (list nat)) :
  1 <= L ->
  Forall (fun row => length row = L /\ Forall (fun tok => tok < dic_size) row) input ->
  exists o,
    GEN.forward (GEN.init input_size dic_size output_size hid_size n_levels kernel_size
                          emb_dropout dropout w) md input
    = Some o
    /\ length o = length input
    /\ Forall (shape L output_size) o.
Proof.
  intros HL Hrows. unfold GEN.forward. rewrite Forall_forall in Hrows.
  destruct (@mapM_total _ _
              (fun bi => GEN.forward1
                           (GEN.init input_size dic_size output_size hid_size n_levels
                                     kernel_size emb_dropout dropout w)
                           (option_map (fun keep => keep (fst bi)) md) (snd bi))
              (shape L output_size)
              (combine (seq 0 (length input)) input)) as [o [Eo [Po Lo]]].
  - intros [b row] Hb. apply in_combine_r in Hb.
    destruct (Hrows row Hb) as [Hlen Htok]. cbn [fst snd].
    destruct (@forward1_shape (option_map (fun keep => keep b) md) row) as [o [Eo So]];
      [lia|exact Htok|].
    exists o. split; [exact Eo|]. now rewrite <- Hlen.
  - exists o. split; [exact Eo|]. split; [|exact Po].
    rewrite Lo, length_combine, length_seq. lia.
Qed.

End ForwardShape.

(** ** The loss *)

Lemma Forall_firstn {A : Type} (P : A -> Prop) (n : nat) (l : list A) :
  Forall P l -> Forall P (firstn n l).
Proof.
  intro Hl. rewrite <- (firstn_skipn n l) in Hl. now apply Forall_app in Hl.
Qed.

Lemma Forall_skipn {A : Type} (P : A -> Prop) (n : nat) (l : list A) :
  Forall P l -> Forall P (skipn n l).
Proof.
  intro Hl. rewrite <- (firstn_skipn n l) in Hl. now apply Forall_app in Hl.
Qed.

Lemma length_concat_uniform {A : Type} (n : nat) (rows : list (list A)) :
  Forall (fun r => length r = n) rows -> length (concat rows) = length rows * n.
Proof.
  induction 1 as [|r rows Hr _ IH]; simpl; [reflexivity|].
  rewrite length_app, IH, Hr. reflexivity.
Qed.

Lemma combine_concat {A B : Type} (xs : list (list A)) (ys : list (list B)) :
  Forall2 (fun x y => length x = length y) xs ys ->
  combine (concat xs) (concat ys) = concat (map2 (@combine A B) xs ys).
Proof.
  induction 1 as [|x y xs ys Hxy _ IH]; [reflexivity|].
  unfold map2 in *. simpl. rewrite <- IH. clear IH.
  revert y Hxy. induction x as [|a x IHx]; intros [|b y] Hxy; simpl in *;
    try discriminate; [reflexivity|].
  f_equal. apply IHx. lia.
Qed.

Lemma map2_map_r {A B B' C : Type} (f : A -> B -> C) (g : B' -> B) (l : list A)
      (l' : list B') :
  map2 f l (map g l') = map2 (fun a b => f a (g b)) l l'.
Proof.
  unfold map2. revert l'. induction l as [|a l IH]; intros [|b l']; simpl; auto.
  f_equal. apply IH.
Qed.

Lemma in_map2 {A B C : Type} (f : A -> B -> C) (l : list A) (l' : list B) (c : C) :
  In c (map2 f l l') -> exists a b, In a l /\ In b l' /\ c = f a b.
Proof.
  unfold map2. intro Hc. apply in_map_iff in Hc. destruct Hc as [[a b] [<- Hab]].
  exists a, b. split; [eapply in_combine_l; exact Hab|].
  split; [eapply in_combine_r; exact Hab|reflexivity].
Qed.

Section LossFacts.
Context {R : Type} `{Scalar R}.

Lemma chunks_concat (n : nat) (rows : list (list R)) :
  Forall (fun r => length r = n) rows ->
  Gen.chunks n (length rows) (concat rows) = rows.
Proof.
  induction 1 as [|r rows Hr _ IH]; simpl; [reflexivity|].
  rewrite firstn_app, skipn_app, Hr, Nat.sub_diag. simpl.
  rewrite app_nil_r, (firstn_all2 r), (skipn_all2 r) by lia. simpl. now rewrite IH.
Qed.

Lemma view_rows_concat (n : nat) (rows : list (list R)) :
  0 < n -> Forall (fun r => length r = n) rows ->
  Gen.view_rows n (concat rows) = Some rows.
Proof.
  intros Hn Hrows. unfold Gen.view_rows.
  replace (n =? 0) with false by (symmetry; apply Nat.eqb_neq; lia).
  rewrite (length_concat_uniform Hrows), Nat.Div0.mod_mul, Nat.div_mul by lia.
  cbn [Nat.eqb]. f_equal. now apply chunks_concat.
Qed.

Lemma nll_known (logits : list R) (target : nat) :
  target < length logits -> exists v, Gen.nll logits target = Some v.
Proof.
  intro Ht. unfold Gen.nll. apply Nat.ltb_lt in Ht. rewrite Ht. eauto.
Qed.

End LossFacts.

(** C5. The loss framing.  For a batch of sequences of length [L] over
    the vocabulary, a model built as [gen.py] builds it (kernel of at
    least three taps) and either mode: the inputs are the sequences
    without their last token and the targets the sequences without their
    first; the forward pass returns logits of shape
    [(batch, L - 1, vocab)]; the flattened logits are [batch * (L - 1)]
    rows; and the loss is the mean cross-entropy over the pairs of the
    logits at a position and the token that follows it. *)
Theorem loss_framing {R : Type} `{Scalar R}
        (input_size n_words hid_size n_levels kernel_size : nat)
        (emb_dropout dropout : R) (w : GEN.params R)
        (md : option (nat -> nat -> nat -> nat -> bool))
        (L : nat) (data : list (list nat)) :
  3 <= kernel_size -> 1 <= n_levels -> 0 < input_size -> 0 < hid_size -> 0 < n_words ->
  2 <= L ->
  Forall (fun s => length s = L /\ Forall (fun tok => tok < n_words) s) data ->
  let model := GEN.init input_size n_words n_words hid_size n_levels kernel_size
                        emb_dropout dropout w in
  map (slice_until_neg 1) data = map (firstn (L - 1)) data
  /\ map (skipn 1) data = map (fun s => skipn 1 (firstn L s)) data
  /\ exists output loss,
       GEN.forward model md (map (firstn (L - 1)) data) = Some output
       /\ length output = length data
       /\ Forall (shape (L - 1) n_words) output
       /\ Gen.view_rows n_words (concat (concat output)) = Some (concat output)
       /\ length (concat output) = length data * (L - 1)
       /\ Gen.batch_loss model md n_words data = Gen.criterion (concat output)
                                                               (concat (map (skipn 1) data))
       /\ Gen.batch_loss model md n_words data
          = mean_cross_entropy (next_token_pairs output data)
       /\ Gen.batch_loss model md n_words data = Some loss.
Proof.
  intros Hk Hlev Hin Hhid Hn HL Hdata model.
  assert (Hslice : map (slice_until_neg 1) data = map (firstn (L - 1)) data).
  { apply map_ext_in. intros s Hs. rewrite Forall_forall in Hdata.
    destruct (Hdata s Hs) as [Hlen _]. unfold slice_until_neg. cbn [Nat.eqb].
    now rewrite Hlen. }
  split; [exact Hslice|]. split.
  { apply map_ext_in. intros s Hs. rewrite Forall_forall in Hdata.
    destruct (Hdata s Hs) as [Hlen _]. now rewrite <- Hlen, firstn_all. }
  destruct (@forward_shape _ _ input_size n_words n_words hid_size n_levels kernel_size
                           emb_dropout dropout w Hk Hlev Hin Hhid md (L - 1)
                           (map (firstn (L - 1)) data)) as [output [Eo [Lo So]]];
    [lia| |].
  { apply Forall_map. eapply Forall_impl; [|exact Hdata]. cbv beta.
    intros s [Hlen Htok]. split; [rewrite length_firstn; lia|now apply Forall_firstn]. }
  rewrite length_map in Lo.
  assert (Hrows : Forall (fun r => length r = n_words) (concat output)).
  { apply Forall_concat. eapply Forall_impl; [|exact So]. intros o [_ Ho]. exact Ho. }
  assert (Hpos : Forall (fun o : list (list R) => length o = L - 1) output).
  { eapply Forall_impl; [|exact So]. intros o [Ho _]. exact Ho. }
  assert (Hview : Gen.view_rows n_words (concat (concat output)) = Some (concat output))
    by (now apply view_rows_concat).
  assert (Hpair : Forall2 (fun (o : list (list R)) (t : list nat) => length o = length t)
                          output (map (skipn 1) data)).
  { clear Eo Hview Hrows So Hslice. revert data Hdata Lo.
    induction Hpos as [|o output Ho _ IH]; intros [|s data] Hdata Lo; simpl in *;
      try discriminate; constructor.
    - inversion Hdata as [|? ? [Hs _] _]; subst. rewrite Ho. destruct s; simpl in *; lia.
    - apply IH; [now inversion Hdata|lia]. }
  assert (Hloss : Gen.batch_loss model md n_words data
                  = Gen.criterion (concat output) (concat (map (skipn 1) data))).
  { unfold Gen.batch_loss. rewrite Hslice. fold model in Eo. rewrite Eo. cbn [bind].
    now rewrite Hview. }
  assert (Hmce : Gen.criterion (concat output) (concat (map (skipn 1) data))
                 = mean_cross_entropy (next_token_pairs output data)).
  { unfold Gen.criterion, mean_cross_entropy, next_token_pairs.
    assert (Hlen : length (concat output) = length (concat (map (skipn 1) data))).
    { clear -Hpair. induction Hpair as [|o t os ts Hot _ IH]; simpl; [reflexivity|].
      rewrite !length_app. lia. }
    rewrite Hlen, Nat.eqb_refl. cbn [negb].
    now rewrite (combine_concat Hpair), map2_map_r. }
  assert (Hsome : exists loss, mean_cross_entropy (next_token_pairs output data) = Some loss).
  { unfold mean_cross_entropy.
    destruct (@mapM_total _ _ (fun ot : list R * nat => Gen.nll (fst ot) (snd ot))
                          (fun _ => True) (next_token_pairs output data))
      as [ls [Els _]].
    - intros [logits tok] Hin'. unfold next_token_pairs in Hin'.
      apply in_concat in Hin'. destruct Hin' as [ps [Hps Hp]].
      apply in_map2 in Hps. destruct Hps as (o & s & Hin_o & Hin_s & ->).
      cbn [fst snd].
      destruct (@nll_known _ _ logits tok) as [v Ev]; [|eauto].
      rewrite Forall_forall in So, Hdata.
      destruct (So o Hin_o) as [_ Hw]. rewrite Forall_forall in Hw.
      rewrite (Hw logits) by (eapply in_combine_l; exact Hp).
      destruct (Hdata s Hin_s) as [_ Htok]. apply (Forall_skipn 1) in Htok.
      rewrite Forall_forall in Htok. apply Htok. eapply in_combine_r; exact Hp.
    - rewrite Els. cbn [bind]. eauto. }
  destruct Hsome as [loss Hsome].
  exists output, loss. fold model in Eo.
  split; [exact Eo|]. split; [exact Lo|]. split; [exact So|]. split; [exact Hview|].
  split; [rewrite (length_concat_uniform Hpos); lia|].
  split; [exact Hloss|]. split; [congruence|congruence].
Qed.

(** ** Strings *)

Lemma append_nil_r (s : string) : (s ++ EmptyString)%string = s.
Proof. induction s as [|c s IH]; simpl; [reflexivity|]. now rewrite IH. Qed.

Lemma append_assoc (s1 s2 s3 : string) :
  ((s1 ++ s2) ++ s3)%string = (s1 ++ (s2 ++ s3))%string.
Proof. induction s1 as [|c s1 IH]; simpl; [reflexivity|]. now rewrite IH. Qed.

Lemma last_char_append (s1 s2 : string) :
  s2 <> EmptyString -> last_char (s1 ++ s2) = last_char s2.
Proof.
  intro Hs2. induction s1 as [|c s1 IH]; [reflexivity|].
  simpl. rewrite IH.
  destruct (s1 ++ s2)%string eqn:E; [|reflexivity].
  destruct s1; simpl in E; [contradiction|discriminate].
Qed.

Lemma length_one_single (s : string) :
  String.length s = 1 -> exists c, s = String c EmptyString.
Proof.
  destruct s as [|c [|d s]]; simpl; try discriminate. intros _. now exists c.
Qed.

Lemma mem_In (s : string) (l : list string) : mem s l = true <-> In s l.
Proof.
  unfold mem. rewrite existsb_exists. split.
  - intros [x [Hx E]]. apply String.eqb_eq in E. now subst.
  - intro Hs. exists s. split; [exact Hs|apply String.eqb_refl].
Qed.

Lemma mem_not_In (s : string) (l : list string) : mem s l = false <-> ~ In s l.
Proof.
  rewrite <- mem_In. destruct (mem s l); split; intro E; try discriminate;
    try reflexivity.
  exfalso. now apply E.
Qed.

Lemma concat_app (l1 l2 : list string) :
  String.concat EmptyString (l1 ++ l2)
  = (String.concat EmptyString l1 ++ String.concat EmptyString l2)%string.
Proof.
  induction l1 as [|a l1 IH]; [reflexivity|].
  destruct l1 as [|b l1].
  - simpl. destruct l2; simpl; [now rewrite append_nil_r|reflexivity].
  - change (String.concat EmptyString ((a :: b :: l1) ++ l2))
      with (a ++ EmptyString ++ String.concat EmptyString ((b :: l1) ++ l2))%string.
    rewrite IH. simpl. now rewrite append_assoc.
Qed.



(** ** The sampler *)

Section SamplingFacts.
Context {R : Type} `{Scalar R}.
Variable rng : Type.
Variable multinomial : rng -> list R -> option (nat * rng).
Variable MolFromSmiles : string -> call_result.
Variable model : GEN.t R.
Variable idx2word : list string.

Local Abbreviation extend := (@Gen.extend R _ rng multinomial model idx2word).
Local Abbreviation generate := (@Gen.generate R _ rng multinomial model idx2word).
Local Abbreviation record := (@Gen.record rng MolFromSmiles).
Local Abbreviation draw := (@Gen.draw R _ rng multinomial MolFromSmiles model idx2word).
Local Abbreviation draws := (@Gen.draws R _ rng multinomial MolFromSmiles model idx2word).
Local Abbreviation sample := (@Gen.sample R _ rng multinomial MolFromSmiles model idx2word).
Local Abbreviation step := (@sampler_step R _ rng multinomial model idx2word).
Local Abbreviation run := (@sampler_run R _ rng multinomial model idx2word).
Local Abbreviation decode := (decode idx2word).

Lemma forward1_row_width (md : option (nat -> nat -> nat -> bool)) (s : list nat)
      (o : list (list R)) :
  GEN.forward1 model md s = Some o ->
  Forall (fun r => length r = Linear.out_features (GEN.decoder model)) o.
Proof.
  unfold GEN.forward1.
  destruct (mapM _ s) as [e|]; cbn [bind]; [|discriminate].
  destruct (GenEncoder.forward _ _ _) as [y|]; cbn [bind]; [|discriminate].
  intro E. apply mapM_Forall2 in E.
  induction E as [|v r vs rs Hv _ IH]; constructor; [|exact IH].
  unfold Linear.forward in Hv. destruct (negb _); [discriminate|].
  injection Hv as <-. now rewrite length_map, length_seq.
Qed.

Lemma forward_single (s : list nat) :
  GEN.forward model None [s] = (o <- GEN.forward1 model None s ;; Some [o]).
Proof.
  unfold GEN.forward. simpl. destruct (GEN.forward1 model None s); reflexivity.
Qed.

(** The body of the loop is the sampler's step, followed by the two
    appends. *)
Lemma extend_step (g : rng) (input : list nat) (word : string) :
  Linear.out_features (GEN.decoder model) = length idx2word ->
  extend g input word
  = (r <- step g input ;;
     Some (input ++ [fst (fst r)], (word ++ snd (fst r))%string, snd r)).
Proof.
  intro Hv. unfold Gen.extend, sampler_step. rewrite forward_single.
  destruct (GEN.forward1 model None input) as [o|] eqn:Eo; cbn [bind]; [|reflexivity].
  apply forward1_row_width in Eo. rewrite Hv in Eo.
  simpl concat. rewrite app_nil_r.
  destruct idx2word as [|w0 ws] eqn:Ew.
  - unfold Gen.view_rows. cbn [length Nat.eqb bind].
    destruct o as [|r o]; cbn [bind]; [reflexivity|].
    destruct (multinomial g _) as [[tok g']|]; cbn [bind fst]; [|reflexivity].
    now destruct tok.
  - rewrite view_rows_concat by (simpl; lia || exact Eo). cbn [bind].
    destruct o as [|r o]; cbn [bind]; [reflexivity|].
    destruct (multinomial g _) as [[tok g']|]; cbn [bind fst snd]; [|reflexivity].
    destruct (nth_error (w0 :: ws) tok); reflexivity.
Qed.

Lemma extend_inv (g : rng) (input : list nat) (word : string)
      (input' : list nat) (word' : string) (g' : rng) :
  extend g input word = Some (input', word', g') ->
  exists tok sym,
    nth_error idx2word tok = Some sym
    /\ input' = input ++ [tok] /\ word' = (word ++ sym)%string.
Proof.
  unfold Gen.extend.
  destruct (GEN.forward model None [input]); cbn [bind]; [|discriminate].
  destruct (Gen.view_rows _ _) as [fo|]; cbn [bind]; [|discriminate].
  destruct fo as [|r fo]; cbn [bind]; [discriminate|].
  destruct (multinomial g _) as [[tok g1]|]; cbn [bind fst snd]; [|discriminate].
  destruct (nth_error idx2word tok) as [sym|] eqn:Es; cbn [bind]; [|discriminate].
  intro E. injection E as <- <- <-. now exists tok, sym.
Qed.

Lemma decode_cons (tok : nat) (sym : string) (toks : list nat) :
  nth_error idx2word tok = Some sym ->
  decode (tok :: toks) = (sym ++ decode toks)%string.
Proof.
  intro Es. change (tok :: toks) with ([tok] ++ toks).
  unfold decode. rewrite map_app, concat_app. simpl.
  now rewrite (nth_error_nth _ _ EmptyString Es).
Qed.

(** The loop leaves with a word that ends with the terminator, made of
    the word it started from and the symbols of the tokens drawn. *)
Lemma generate_done (fuel : nat) (g : rng) (input : list nat) (word : string)
      (final : list nat) (word' : string) (g' : rng) :
  generate fuel g input word = Done (final, word', g') ->
  last_char word' = Some newline
  /\ exists toks, final = input ++ toks /\ word' = (word ++ decode toks)%string.
Proof.
  revert g input word. induction fuel as [|fuel IH]; intros g input word; simpl;
    [discriminate|].
  destruct (last_char word) as [c|] eqn:Ec; cbn [try obind]; [|discriminate].
  destruct (Ascii.eqb c newline) eqn:Enl; cbn [negb].
  - intro E. injection E as <- <- <-. apply Ascii.eqb_eq in Enl. subst c.
    split; [exact Ec|]. exists []. now rewrite app_nil_r, append_nil_r.
  - destruct (extend g input word) as [[[input1 word1] g1]|] eqn:Ee;
      cbn [try obind fst snd]; [|discriminate].
    intro E. apply IH in E. destruct E as [Hl [toks [-> ->]]].
    split; [exact Hl|].
    apply extend_inv in Ee. destruct Ee as (tok & sym & Es & -> & ->).
    exists (tok :: toks). rewrite <- app_assoc. split; [reflexivity|].
    rewrite decode_cons with (sym := sym) by exact Es. now rewrite append_assoc.
Qed.

Section Vocabulary.
(** The model was built for this vocabulary, whose symbols are single
    characters. *)
Hypothesis Hvocab : Linear.out_features (GEN.decoder model) = length idx2word.
Hypothesis Hchars : Forall (fun sym => String.length sym = 1) idx2word.

Lemma symbol_char (tok : nat) (sym : string) :
  nth_error idx2word tok = Some sym -> exists c, sym = String c EmptyString.
Proof.
  intro Es. apply nth_error_In in Es. rewrite Forall_forall in Hchars.
  now apply length_one_single, Hchars.
Qed.

Lemma step_symbol (g : rng) (sequence : list nat) (tok : nat) (sym : string) (g' : rng) :
  step g sequence = Some (tok, sym, g') -> exists c, sym = String c EmptyString.
Proof.
  unfold sampler_step.
  destruct (GEN.forward model None [sequence]); cbn [bind]; [|discriminate].
  destruct (match l with [[]] => None | [p] => Some (last p []) | _ => None end);
    cbn [bind]; [|discriminate].
  destruct (multinomial g _) as [[t g1]|]; cbn [bind fst snd]; [|discriminate].
  destruct (nth_error idx2word t) as [s|] eqn:Es; cbn [bind]; [|discriminate].
  intro E. injection E as _ <- _. eapply symbol_char; exact Es.
Qed.

(** Every finished loop is a run of the sampler. *)
Lemma generate_run (fuel : nat) (g : rng) (input : list nat) (word : string) (c : ascii)
      (final : list nat) (word' : string) (g' : rng) :
  last_char word = Some c -> c <> newline ->
  generate fuel g input word = Done (final, word', g') ->
  run g input final g'.
Proof.
  revert g input word c. induction fuel as [|fuel IH]; intros g input word c Hc Hn;
    simpl; [discriminate|].
  rewrite Hc. cbn [try obind].
  replace (Ascii.eqb c newline) with false by (symmetry; now apply Ascii.eqb_neq).
  cbn [negb]. rewrite extend_step by exact Hvocab.
  destruct (step g input) as [[[tok sym] g1]|] eqn:Es; cbn [bind try obind fst snd];
    [|discriminate].
  destruct (step_symbol _ _ Es) as [d ->].
  destruct (Ascii.eqb_spec d newline) as [-> | Hd].
  - destruct fuel as [|fuel]; simpl; [discriminate|].
    rewrite last_char_append by discriminate. cbn [last_char try obind].
    rewrite Ascii.eqb_refl. cbn [negb].
    intro E. injection E as <- _ <-. now apply run_terminal.
  - intro E. eapply run_step; [exact Es| |].
    + intro Habs. injection Habs as ->. now apply Hd.
    + eapply IH; [|exact Hd|exact E].
      now rewrite last_char_append by discriminate.
Qed.

(** Every run of the sampler is computed by the loop, given enough
    fuel. *)
Lemma run_generate (g : rng) (sequence final : list nat) (g' : rng) :
  run g sequence final g' ->
  forall word c, last_char word = Some c -> c <> newline ->
  exists fuel word', generate fuel g sequence word = Done (final, word', g').
Proof.
  induction 1 as [g sequence tok g' Es | g sequence tok sym g' final g'' Es Hsym _ IH];
    intros word c Hc Hn.
  - exists 2, (word ++ nl)%string. simpl. rewrite Hc. cbn [try obind].
    replace (Ascii.eqb c newline) with false by (symmetry; now apply Ascii.eqb_neq).
    cbn [negb]. rewrite extend_step, Es by exact Hvocab. cbn [bind try obind fst snd].
    rewrite last_char_append by discriminate. reflexivity.
  - destruct (step_symbol _ _ Es) as [d ->].
    assert (Hd : d <> newline) by (intros ->; now apply Hsym).
    destruct (IH (word ++ String d EmptyString)%string d) as [fuel [word' E]];
      [now rewrite last_char_append by discriminate|exact Hd|].
    exists (S fuel), word'. simpl. rewrite Hc. cbn [try obind].
    replace (Ascii.eqb c newline) with false by (symmetry; now apply Ascii.eqb_neq).
    cbn [negb]. rewrite extend_step, Es by exact Hvocab. cbn [bind try obind fst snd].
    exact E.
Qed.

End Vocabulary.

End SamplingFacts.

Section SampleLoopFacts.
Context {R : Type} `{Scalar R}.
Variable rng : Type.
Variable multinomial : rng -> list R -> option (nat * rng).
Variable MolFromSmiles : string -> call_result.
Variable model : GEN.t R.
Variable idx2word : list string.

Local Abbreviation generate := (@Gen.generate R _ rng multinomial model idx2word).
Local Abbreviation record := (@Gen.record rng MolFromSmiles).
Local Abbreviation draw := (@Gen.draw R _ rng multinomial MolFromSmiles model idx2word).
Local Abbreviation draws := (@Gen.draws R _ rng multinomial MolFromSmiles model idx2word).
Local Abbreviation sample := (@Gen.sample R _ rng multinomial MolFromSmiles model idx2word).
Local Abbreviation decode := (decode idx2word).

(** What lines 75-78 can do to the state. *)
Lemma record_done (smi : list string) (word : string) (st st' : Gen.sampler rng) :
  record smi word st = Done st' ->
  Gen.gen st' = Gen.gen st
  /\ ((MolFromSmiles (drop_first word) = Returns false
       /\ Gen.n st' = Gen.n st /\ Gen.ss st' = Gen.ss st)
      \/ (MolFromSmiles (drop_first word) = Returns true
          /\ Gen.n st' = S (Gen.n st)
          /\ ((Gen.ss st' = Gen.ss st
               /\ (In (drop_first word) smi \/ In (drop_first word) (Gen.ss st)))
              \/ (Gen.ss st' = Gen.ss st ++ [drop_first word]
                  /\ ~ In (drop_first word) smi
                  /\ ~ In (drop_first word) (Gen.ss st))))).
Proof.
  unfold Gen.record.
  destruct (MolFromSmiles (drop_first word)) as [[|]|]; [| |discriminate].
  - destruct (mem (drop_first word) smi) eqn:E1;
      destruct (mem (drop_first word) (Gen.ss st)) eqn:E2; cbn [negb andb];
      intro E; injection E as <-; cbn [Gen.n Gen.ss Gen.gen];
      (split; [reflexivity|]); right; (split; [reflexivity|]);
      (split; [reflexivity|]).
    + left. split; [reflexivity|]. left. now apply mem_In.
    + left. split; [reflexivity|]. left. now apply mem_In.
    + left. split; [reflexivity|]. right. now apply mem_In.
    + right. split; [reflexivity|]. split; now apply mem_not_In.
  - intro E. injection E as <-. split; [reflexivity|]. left. auto.
Qed.

Lemma generated_string (fuel : nat) (g : rng) (final : list nat) (word : string) (g' : rng) :
  generate fuel g [1] (String "&" EmptyString) = Done (final, word, g') ->
  word = String "&" (drop_first word)
  /\ final = 1 :: skipn 1 final
  /\ drop_first word = decode (skipn 1 final)
  /\ ends_with_newline (drop_first word).
Proof.
  intro E. apply generate_done in E. destruct E as [Hl [toks [-> ->]]].
  cbn [drop_first append app skipn].
  repeat split.
  unfold ends_with_newline. cbn [append] in Hl.
  destruct (decode toks) as [|c s] eqn:Ed; [discriminate|exact Hl].
Qed.

(** What the loop over the draws maintains. *)
Lemma draws_inv (fuel : nat) (smi : list string) (k : nat) (g : rng)
      (st : Gen.sampler rng) :
  draws fuel smi k {| Gen.n := 0; Gen.ss := []; Gen.gen := g |} = Done st ->
  Gen.n st <= k
  /\ length (Gen.ss st) <= Gen.n st
  /\ NoDup (Gen.ss st)
  /\ Forall (fun s => MolFromSmiles s = Returns true
                      /\ ~ In s smi
                      /\ ends_with_newline s
                      /\ exists toks, s = decode toks) (Gen.ss st).
Proof.
  revert st. induction k as [|k IH]; intro st; simpl.
  - intro E. injection E as <-. cbn [Gen.n Gen.ss length].
    split; [lia|]. split; [lia|]. split; constructor.
  - destruct (draws fuel smi k _) as [st1| |]; cbn [obind]; try discriminate.
    destruct (IH st1 eq_refl) as (Hn & Hl & Hnd & Hall).
    unfold Gen.draw.
    destruct (generate fuel (Gen.gen st1) [1] _) as [[[final word] g']| |] eqn:Eg;
      cbn [obind fst snd]; try discriminate.
    intro Er. apply record_done in Er. cbn [Gen.n Gen.ss Gen.gen] in Er.
    destruct (generated_string _ _ Eg) as (_ & _ & Hdec & Hnl).
    destruct Er as [_ [(_ & -> & ->) | (Hv & -> & [[-> _] | (-> & Hsmi & Hss)])]].
    + auto.
    + split; [lia|]. split; [lia|]. auto.
    + split; [lia|]. split; [rewrite length_app; simpl; lia|]. split.
      * apply NoDup_rev in Hnd. rewrite <- (rev_involutive (_ ++ _)).
        apply NoDup_rev. rewrite rev_app_distr. simpl. constructor; [|exact Hnd].
        now rewrite <- in_rev.
      * apply Forall_app. split; [exact Hall|]. constructor; [|constructor].
        split; [exact Hv|]. split; [exact Hsmi|]. split; [exact Hnl|].
        now exists (skipn 1 final).
Qed.

Lemma sample_done (fuel : nat) (g : rng) (smi : list string) (num_samples : nat)
      (ss : list string) (rate : R) :
  sample fuel g smi num_samples = Done (ss, rate) ->
  exists st,
    draws fuel smi num_samples {| Gen.n := 0; Gen.ss := []; Gen.gen := g |} = Done st
    /\ ss = Gen.ss st /\ 0 < num_samples.
Proof.
  unfold Gen.sample.
  destruct (draws fuel smi num_samples _) as [st| |]; cbn [obind]; try discriminate.
  destruct num_samples; cbn [Nat.eqb]; [discriminate|].
  intro E. injection E as <- _. exists st. split; [reflexivity|]. split; [reflexivity|lia].
Qed.

Lemma draws_raised (fuel : nat) (smi : list string) (k j : nat) (st : Gen.sampler rng) :
  draws fuel smi k st = Raised -> draws fuel smi (j + k) st = Raised.
Proof.
  intro E. induction j as [|j IH]; [exact E|]. simpl. now rewrite IH.
Qed.

End SampleLoopFacts.

(** C3. The sampling step and its end.  For a model built for the
    vocabulary, whose symbols are single characters: one turn of the loop
    is the sampler's step (the whole sequence through the model, softmax
    of the logits at the last position, one multinomial draw) followed by
    the append; the loop started from [[1]] returns exactly the finished
    runs of the sampler, which stop at the first terminator drawn; and
    every draw of [sample] starts such a loop from [[1]]. *)
Theorem sampler_step_and_stop {R : Type} `{Scalar R} (rng : Type)
        (multinomial : rng -> list R -> option (nat * rng))
        (MolFromSmiles : string -> call_result)
        (model : GEN.t R) (idx2word : list string) :
  Linear.out_features (GEN.decoder model) = length idx2word ->
  Forall (fun sym => String.length sym = 1) idx2word ->
  (forall g input word,
      Gen.extend multinomial model idx2word g input word
      = (r <- sampler_step multinomial model idx2word g input ;;
         Some (input ++ [fst (fst r)], (word ++ snd (fst r))%string, snd r)))
  /\ (forall fuel g final word g',
         Gen.generate multinomial model idx2word fuel g [1] (String "&" EmptyString)
         = Done (final, word, g') ->
         sampler_run multinomial model idx2word g [1] final g'
         /\ word = String "&" (decode idx2word (skipn 1 final)))
  /\ (forall g final g',
         sampler_run multinomial model idx2word g [1] final g' ->
         exists fuel word,
           Gen.generate multinomial model idx2word fuel g [1] (String "&" EmptyString)
           = Done (final, word, g'))
  /\ (forall fuel smi k st st'',
         Gen.draws multinomial MolFromSmiles model idx2word fuel smi (S k) st = Done st'' ->
         exists st' final word g',
           Gen.draws multinomial MolFromSmiles model idx2word fuel smi k st = Done st'
           /\ Gen.generate multinomial model idx2word fuel (Gen.gen st') [1]
                           (String "&" EmptyString)
              = Done (final, word, g')
           /\ sampler_run multinomial model idx2word (Gen.gen st') [1] final g'
           /\ Gen.record MolFromSmiles smi word
                         {| Gen.n := Gen.n st'; Gen.ss := Gen.ss st'; Gen.gen := g' |}
              = Done st'').
Proof.
  intros Hvocab Hchars.
  assert (Hrun : forall fuel g final word g',
             Gen.generate multinomial model idx2word fuel g [1] (String "&" EmptyString)
             = Done (final, word, g') ->
             sampler_run multinomial model idx2word g [1] final g').
  { intros fuel g final word g' E.
    eapply generate_run with (word := String "&" EmptyString) (c := "&"%char);
      [exact Hvocab|exact Hchars|reflexivity| |exact E].
    discriminate. }
  split; [intros; now apply extend_step|]. split; [|split].
  - intros fuel g final word g' E. split; [eapply Hrun; exact E|].
    destruct (generated_string _ _ _ _ _ E) as (Hw & _ & Hd & _). now rewrite <- Hd.
  - intros g final g' Hr.
    apply (@run_generate R _ rng multinomial model idx2word Hvocab Hchars g [1] final g' Hr
                         (String "&" EmptyString) "&"%char eq_refl).
    discriminate.
  - intros fuel smi k st st''. simpl.
    destruct (Gen.draws _ _ _ _ fuel smi k st) as [st'| |]; cbn [obind]; try discriminate.
    unfold Gen.draw.
    destruct (Gen.generate _ _ _ fuel (Gen.gen st') [1] _) as [[[final word] g']| |] eqn:Eg;
      cbn [obind fst snd]; try discriminate.
    intro Er. exists st', final, word, g'.
    split; [reflexivity|]. split; [exact Eg|]. split; [eapply Hrun; exact Eg|exact Er].
Qed.

Lemma sampler_step_and_stop_witness :
  sampler_run Example.multinomial Example.model Example.idx2word
              Example.tape [1] [1; 0; 2] [3; 2; 0; 2].
Proof.
  refine (proj1 (proj1 (proj2 (@sampler_step_and_stop
                                 Z _ (list nat) Example.multinomial Example.accepts_carbon
                                 Example.model Example.idx2word eq_refl _))
                       5 Example.tape [1; 0; 2] _ [3; 2; 0; 2] _)).
  - repeat constructor.
  - vm_compute. reflexivity.
Defined.

(** C4. The generated set.  A string enters [ss] only when the oracle
    accepts it and it is neither in the reference corpus nor already in
    [ss]; so after [k] draws [ss] has at most [k] elements, no
    duplicates, and nothing from the reference corpus, and the list
    [sample] returns has at most [num_samples] elements. *)
Theorem generated_set_invariant {R : Type} `{Scalar R} (rng : Type)
        (multinomial : rng -> list R -> option (nat * rng))
        (MolFromSmiles : string -> call_result)
        (model : GEN.t R) (idx2word : list string) (smi : list string) :
  (forall word (st st' : Gen.sampler rng) s,
      Gen.record MolFromSmiles smi word st = Done st' ->
      In s (Gen.ss st') ->
      In s (Gen.ss st)
      \/ (s = drop_first word /\ MolFromSmiles s = Returns true
          /\ ~ In s smi /\ ~ In s (Gen.ss st)))
  /\ (forall fuel (g : rng) k st,
         Gen.draws multinomial MolFromSmiles model idx2word fuel smi k
                   {| Gen.n := 0; Gen.ss := []; Gen.gen := g |} = Done st ->
         length (Gen.ss st) <= k /\ NoDup (Gen.ss st)
         /\ forall s, In s (Gen.ss st) -> MolFromSmiles s = Returns true /\ ~ In s smi)
  /\ (forall fuel (g : rng) num_samples ss rate,
         Gen.sample multinomial MolFromSmiles model idx2word fuel g smi num_samples
         = Done (ss, rate) ->
         length ss <= num_samples /\ NoDup ss
         /\ forall s, In s ss -> MolFromSmiles s = Returns true /\ ~ In s smi).
Proof.
  assert (Hdraws : forall fuel (g : rng) k st,
             Gen.draws multinomial MolFromSmiles model idx2word fuel smi k
                       {| Gen.n := 0; Gen.ss := []; Gen.gen := g |} = Done st ->
             length (Gen.ss st) <= k /\ NoDup (Gen.ss st)
             /\ forall s, In s (Gen.ss st) -> MolFromSmiles s = Returns true /\ ~ In s smi).
  { intros fuel g k st E. apply draws_inv in E. destruct E as (Hn & Hl & Hnd & Hall).
    split; [lia|]. split; [exact Hnd|]. intros s Hs.
    rewrite Forall_forall in Hall. destruct (Hall s Hs) as (Hv & Hsmi & _). auto. }
  split; [|split; [exact Hdraws|]].
  - intros word st st' s Er Hs. apply record_done in Er.
    destruct Er as [_ [(_ & _ & E) | (Hv & _ & [[E _] | (E & Hsmi & Hss)])]];
      rewrite E in Hs; auto.
    apply in_app_or in Hs. destruct Hs as [Hs | [<- | []]]; auto.
  - intros fuel g num_samples ss rate E. apply sample_done in E.
    destruct E as (st & Ed & -> & _). eapply Hdraws; exact Ed.
Qed.

Lemma generated_set_invariant_witness :
  length [(String "C" nl)] <= 3
  /\ NoDup [(String "C" nl)]
  /\ forall s, In s [(String "C" nl)] ->
               Example.accepts_carbon s = Returns true
               /\ ~ In s (readlines Example.reference).
Proof.
  apply (proj2 (proj2 (@generated_set_invariant
                         Z _ (list nat) Example.multinomial Example.accepts_carbon
                         Example.model Example.idx2word (readlines Example.reference)))
               5 Example.tape 3 [(String "C" nl)] 0%Z).
  vm_compute. reflexivity.
Defined.

(** C7 as stated fails: an exception of the oracle is not caught.  With
    an oracle that raises on the second string drawn, [record] raises,
    and so does [sample], although every string was drawn without
    error. *)
Lemma oracle_exception_not_caught :
  ~ (forall (MolFromSmiles : string -> call_result) (smi : list string) (word : string)
            (st : Gen.sampler (list nat)),
        MolFromSmiles (drop_first word) = Raises ->
        exists st', Gen.record MolFromSmiles smi word st = Done st')
  /\ Gen.generate Example.multinomial Example.model Example.idx2word 5 [3; 2; 0; 2] [1]
                  (String "&" EmptyString)
     = Done ([1; 3; 2], String "&" (String "O" nl), [0; 2])
  /\ Gen.sample Example.multinomial Example.raises_on_oxygen Example.model Example.idx2word
                5 Example.tape (readlines Example.reference) 3
     = Raised.
Proof.
  split; [|split; vm_compute; reflexivity].
  intro Hclaim.
  destruct (Hclaim Example.raises_on_oxygen [] (String "&" (String "O" nl))
                   {| Gen.n := 0; Gen.ss := []; Gen.gen := [] |} eq_refl) as [st' E].
  discriminate E.
Qed.

(** C7, amended.  A string for which the oracle returns nothing is
    treated as invalid: the state is left as it is and sampling goes on.
    An exception of the oracle is not caught: [record] raises, and
    [sample] raises as soon as one drawn string makes the oracle raise.
    When the oracle only returns, validating a string never raises. *)
Theorem oracle_result_handling {R : Type} `{Scalar R} (rng : Type)
        (multinomial : rng -> list R -> option (nat * rng))
        (MolFromSmiles : string -> call_result)
        (model : GEN.t R) (idx2word : list string) :
  (forall smi word (st : Gen.sampler rng),
      MolFromSmiles (drop_first word) = Returns false ->
      Gen.record MolFromSmiles smi word st = Done st)
  /\ (forall smi word (st : Gen.sampler rng),
         MolFromSmiles (drop_first word) = Raises ->
         Gen.record MolFromSmiles smi word st = Raised)
  /\ (forall fuel g smi k st' final word g',
         Gen.draws multinomial MolFromSmiles model idx2word fuel smi k
                   {| Gen.n := 0; Gen.ss := []; Gen.gen := g |} = Done st' ->
         Gen.generate multinomial model idx2word fuel (Gen.gen st') [1]
                      (String "&" EmptyString) = Done (final, word, g') ->
         MolFromSmiles (drop_first word) = Raises ->
         forall num_samples, k < num_samples ->
           Gen.sample multinomial MolFromSmiles model idx2word fuel g smi num_samples
           = Raised)
  /\ ((forall s, MolFromSmiles s <> Raises) ->
      forall smi word (st : Gen.sampler rng),
      exists st', Gen.record MolFromSmiles smi word st = Done st').
Proof.
  split; [|split; [|split]].
  - intros smi word st E. unfold Gen.record. now rewrite E.
  - intros smi word st E. unfold Gen.record. now rewrite E.
  - intros fuel g smi k st' final word g' Ed Eg Er num_samples Hk.
    assert (Hnext : Gen.draws multinomial MolFromSmiles model idx2word fuel smi (S k)
                              {| Gen.n := 0; Gen.ss := []; Gen.gen := g |} = Raised).
    { simpl. rewrite Ed. cbn [obind]. unfold Gen.draw. rewrite Eg. cbn [obind fst snd].
      unfold Gen.record. now rewrite Er. }
    unfold Gen.sample.
    replace num_samples with ((num_samples - S k) + S k) by lia.
    now rewrite draws_raised.
  - intros Hret smi word st. unfold Gen.record.
    destruct (MolFromSmiles (drop_first word)) as [[|]|] eqn:E; eauto.
    + destruct (_ && _); eauto.
    + exfalso. eapply Hret; exact E.
Qed.

Lemma oracle_result_handling_witness :
  Gen.sample Example.multinomial Example.raises_on_oxygen Example.model Example.idx2word
             5 Example.tape [] 3
  = Raised.
Proof.
  apply (proj1 (proj2 (proj2 (@oracle_result_handling
                                Z _ (list nat) Example.multinomial
                                Example.raises_on_oxygen Example.model Example.idx2word)))
               5 Example.tape [] 1
               {| Gen.n := 1; Gen.ss := [(String "C" nl)]; Gen.gen := [3; 2; 0; 2] |}
               [1; 3; 2] (String "&" (String "O" nl)) [0; 2]).
  - vm_compute. reflexivity.
  - vm_compute. reflexivity.
  - reflexivity.
  - lia.
Defined.



Lemma loss_framing_witness :
  exists output loss,
    GEN.forward Example.model None (map (firstn (3 - 1)) [[1; 3; 2]; [1; 3; 0]])
    = Some output
    /\ length output = length [[1; 3; 2]; [1; 3; 0]]
    /\ Forall (shape (3 - 1) 4) output
    /\ Gen.view_rows 4 (concat (concat output)) = Some (concat output)
    /\ length (concat output) = length [[1; 3; 2]; [1; 3; 0]] * (3 - 1)
    /\ Gen.batch_loss Example.model None 4 [[1; 3; 2]; [1; 3; 0]]
       = Gen.criterion (concat output) (concat (map (skipn 1) [[1; 3; 2]; [1; 3; 0]]))
    /\ Gen.batch_loss Example.model None 4 [[1; 3; 2]; [1; 3; 0]]
       = mean_cross_entropy (next_token_pairs output [[1; 3; 2]; [1; 3; 0]])
    /\ Gen.batch_loss Example.model None 4 [[1; 3; 2]; [1; 3; 0]] = Some loss.
Proof.
  apply (@loss_framing Z _ 2 4 3 2 3 0%Z 0%Z Example.gen_params None 3
                       [[1; 3; 2]; [1; 3; 0]]); try lia.
  repeat constructor.
Defined.

Lemma best_checkpoint_selection_witness :
  exists tr,
    Gen.training_loop Example.step Example.scheduler_step 4 Example.exp_overflows
                      (fun _ => Example.batches) Example.batches
                      (fun _ _ _ _ _ _ => true) 3
                      (Example.model_with_loss 120) [50; 70; 30]%Z
    = Some tr
    /\ Gen.log tr = [(50, true); (70, false); (30, true)]%Z
    /\ Gen.saved tr = Some (Example.model_with_loss 30)
    /\ ranks (rofnat 100 :: map fst (Gen.log tr))
    /\ (forall k, k < 3 ->
          exists before after v s,
            Gen.training_loop Example.step Example.scheduler_step 4 Example.exp_overflows
                              (fun _ => Example.batches) Example.batches
                              (fun _ _ _ _ _ _ => true) k
                              (Example.model_with_loss 120) [50; 70; 30]%Z
            = Some before
            /\ Gen.training_loop Example.step Example.scheduler_step 4
                                 Example.exp_overflows
                                 (fun _ => Example.batches) Example.batches
                                 (fun _ _ _ _ _ _ => true) (S k)
                                 (Example.model_with_loss 120) [50; 70; 30]%Z
               = Some after
            /\ Gen.log before = firstn k (Gen.log tr)
            /\ nth_error (Gen.log tr) k = Some (v, s)
            /\ Gen.evaluate 4 (Gen.model after) Example.batches = Some v
            /\ Gen.best_vloss before
               = last (Gen.saved_losses (Gen.log before)) (rofnat 100)
            /\ s = rltb v (Gen.best_vloss before)
            /\ Gen.saved after = (if s then Some (Gen.model after) else Gen.saved before)
            /\ Gen.best_vloss after = (if s then v else Gen.best_vloss before))
    /\ (forall pre v s post,
           Gen.log tr = pre ++ (v, s) :: post -> (s = true <-> lowest_so_far pre v)).
Proof.
  eexists. split; [vm_compute; reflexivity|]. split; [reflexivity|].
  split; [reflexivity|].
  assert (Hranks : forall vals : list Z, ranks vals).
  { intro vals. split; [|split].
    - intros a _. apply Z.ltb_irrefl.
    - intros a b c _ _ _. cbn [rltb Z_Scalar]. rewrite !Z.ltb_lt. lia.
    - intros a b c _ _ _. cbn [rltb Z_Scalar]. rewrite !Z.ltb_ge. lia. }
  split; [apply Hranks|].
  refine ((fun Hthm => conj (proj1 (proj2 Hthm))
                            (proj1 (proj2 (proj2 (proj2 (proj2 Hthm))) (Hranks _))))
            (@best_checkpoint_selection
               Z _ (list Z) Example.step Example.scheduler_step 4
               Example.exp_overflows
               (fun _ => Example.batches) Example.batches
               (fun _ _ _ _ _ _ => true) 3
               (Example.model_with_loss 120) [50; 70; 30]%Z _ _)).
  vm_compute. reflexivity.
Defined.

(** * Further properties of the code *)

Lemma ConvLayer_forward_keeps_length_witness :
  exists o,
    ConvLayer.forward (ConvLayer.init 2 2 3 1 1 ((3 - 1) * 1) 0%Z Example.layer_params)
                      None Example.x23
    = Some o
    /\ shape 2 3 o.
Proof.
  apply (@ConvLayer_forward_keeps_length Z _ 2 2 3 1 0%Z Example.layer_params None 3
                                         Example.x23); try lia.
  split; [reflexivity|]. repeat constructor.
Defined.

(** ** The model *)

Lemma mapM_fails {A B : Type} (f : A -> option B) (l : list A) (a : A) :
  In a l -> f a = None -> mapM f l = None.
Proof.
  induction l as [|b l IH]; intros Hin Hf; [contradiction|].
  simpl. destruct Hin as [-> | Hin].
  - now rewrite Hf.
  - destruct (f b); cbn [bind]; [|reflexivity]. now rewrite IH.
Qed.

Lemma in_combine_seq {A : Type} (l : list A) (a : A) (s : nat) :
  In a l -> exists i, In (i, a) (combine (seq s (length l)) l).
Proof.
  revert s. induction l as [|b l IH]; intros s Hin; [contradiction|].
  destruct Hin as [-> | Hin].
  - exists s. now left.
  - destruct (IH (S s) Hin) as [i Hi]. exists i. now right.
Qed.

(** X2. Shape of the logits.  With a kernel of at least three taps, at
    least one level and positive sizes, the forward pass on a batch of
    [B] sequences of [L >= 1] known tokens returns, in either mode,
    logits of shape [(B, L, output_size)]. *)
Theorem GEN_forward_shape {R : Type} `{Scalar R}
        (input_size dic_size output_size hid_size n_levels kernel_size : nat)
        (emb_dropout dropout : R) (w : GEN.params R)
        (md : option (nat -> nat -> nat -> nat -> bool)) (L : nat)
        (input : list (list nat)) :
  3 <= kernel_size -> 1 <= n_levels -> 0 < input_size -> 0 < hid_size -> 1 <= L ->
  Forall (fun row => length row = L /\ Forall (fun tok => tok < dic_size) row) input ->
  exists o,
    GEN.forward (GEN.init input_size dic_size output_size hid_size n_levels kernel_size
                          emb_dropout dropout w) md input
    = Some o
    /\ length o = length input
    /\ Forall (shape L output_size) o.
Proof.
  intros Hk Hlev Hin Hhid HL Hrows. now apply forward_shape.
Qed.

Lemma GEN_forward_shape_witness :
  exists o,
    GEN.forward Example.model (Some (fun b s c t => Nat.even (b + s + c + t)))
                [[1; 2; 3]; [0; 0; 1]]
    = Some o
    /\ length o = length [[1; 2; 3]; [0; 0; 1]]
    /\ Forall (shape 3 4) o.
Proof.
  apply (@GEN_forward_shape Z _ 2 4 4 3 2 3 0%Z 0%Z Example.gen_params); try lia.
  repeat constructor.
Defined.

(** X3. A token outside the embedding table makes the forward pass
    raise, whatever the model, the mode and the rest of the batch. *)
Theorem GEN_forward_unknown_token {R : Type} `{Scalar R} (m : GEN.t R)
        (md : option (nat -> nat -> nat -> nat -> bool))
        (input : list (list nat)) (row : list nat) (tok : nat) :
  In row input -> In tok row -> Embedding.num_embeddings (GEN.emb m) <= tok ->
  GEN.forward m md input = None.
Proof.
  intros Hrow Htok Hbig. unfold GEN.forward.
  destruct (in_combine_seq input row 0 Hrow) as [b Hb].
  apply mapM_fails with (a := (b, row)); [exact Hb|].
  cbn [fst snd]. unfold GEN.forward1.
  rewrite (mapM_fails (Embedding.forward (GEN.emb m)) row tok Htok); [reflexivity|].
  unfold Embedding.forward.
  replace (tok <? Embedding.num_embeddings (GEN.emb m)) with false; [reflexivity|].
  symmetry. apply Nat.ltb_ge. exact Hbig.
Qed.

Lemma GEN_forward_unknown_token_witness :
  GEN.forward Example.model None [[1; 2; 3]; [1; 4; 0]] = None.
Proof.
  apply (@GEN_forward_unknown_token Z _ Example.model None [[1; 2; 3]; [1; 4; 0]]
                                    [1; 4; 0] 4).
  - right. left. reflexivity.
  - right. left. reflexivity.
  - apply le_n.
Defined.

Lemma Sequential_eval_dropout {R : Type} `{Scalar R}
      (f : R -> nat -> ConvLayer.t R) (dropout dropout' : R) (idx : list nat) (j : nat)
      (x : list (list R)) :
  (forall i y, ConvLayer.forward (f dropout i) None y = ConvLayer.forward (f dropout' i) None y) ->
  GenEncoder.Sequential (map (f dropout) idx) None j x
  = GenEncoder.Sequential (map (f dropout') idx) None j x.
Proof.
  intro Hf. revert j x. induction idx as [|i idx IH]; intros j x; simpl; [reflexivity|].
  rewrite Hf. destruct (ConvLayer.forward (f dropout' i) None x); cbn [bind]; [|reflexivity].
  apply IH.
Qed.

(** X6. In inference mode the dropout rates do not matter: two models
    that differ only in [emb_dropout] and [dropout] return the same
    logits on every input. *)
Theorem GEN_eval_ignores_dropout {R : Type} `{Scalar R}
        (input_size dic_size output_size hid_size n_levels kernel_size : nat)
        (emb_dropout dropout emb_dropout' dropout' : R) (w : GEN.params R)
        (input : list (list nat)) :
  GEN.forward (GEN.init input_size dic_size output_size hid_size n_levels kernel_size
                        emb_dropout dropout w) None input
  = GEN.forward (GEN.init input_size dic_size output_size hid_size n_levels kernel_size
                          emb_dropout' dropout' w) None input.
Proof.
  rewrite !forward_eval_rows. apply mapM_ext_in. intros s _.
  unfold GEN.forward1.
  cbn [GEN.init GEN.emb GEN.drop GEN.encoder GEN.decoder option_map Dropout].
  destruct (mapM _ s) as [e|]; cbn [bind]; [|reflexivity].
  unfold GenEncoder.forward, GenEncoder.init.
  rewrite (Sequential_eval_dropout
             (fun dr i =>
                let dilation_size := 2 ^ i in
                if i =? 0
                then ConvLayer.init input_size hid_size kernel_size 1 dilation_size
                                    ((kernel_size - 1) * dilation_size) dr
                                    (GEN.encoder_params w i)
                else ConvLayer.init hid_size hid_size kernel_size 1 dilation_size
                                    ((kernel_size - 1) * dilation_size) dr
                                    (GEN.encoder_params w i))
             dropout dropout'); [reflexivity|].
  intros i y. cbv zeta. destruct (i =? 0); reflexivity.
Qed.

(** ** Reshaping and the mean loss *)

Section ReshapeFacts.
Context {R : Type} `{Scalar R}.

Lemma chunks_spec (n cnt : nat) (l : list R) :
  length l = cnt * n ->
  concat (Gen.chunks n cnt l) = l
  /\ Forall (fun r => length r = n) (Gen.chunks n cnt l)
  /\ length (Gen.chunks n cnt l) = cnt.
Proof.
  revert l. induction cnt as [|cnt IH]; intros l Hl; simpl.
  - destruct l; [auto|discriminate].
  - destruct (IH (skipn n l)) as (Hc & Hf & Hn).
    { rewrite length_skipn. simpl in Hl. lia. }
    split; [now rewrite Hc, firstn_skipn|].
    split; [|now rewrite Hn].
    constructor; [|exact Hf]. rewrite length_firstn. simpl in Hl. lia.
Qed.

Lemma evaluate_batches_fold (n_words : nat) (model : GEN.t R)
      (data_iter : list (list (list nat))) (total_loss : R) :
  Gen.evaluate_batches n_words model data_iter total_loss
  = (ls <- mapM (Gen.batch_loss model None n_words) data_iter ;;
     Some (fold_left radd ls total_loss)).
Proof.
  revert total_loss. induction data_iter as [|data rest IH]; intro total_loss; simpl;
    [reflexivity|].
  destruct (Gen.batch_loss model None n_words data) as [loss|]; cbn [bind]; [|reflexivity].
  rewrite IH. destruct (mapM _ rest); reflexivity.
Qed.

End ReshapeFacts.

(** X8. [view(-1, n)] raises exactly when [n] is zero or does not divide
    the number of entries; otherwise it returns the only list of rows of
    length [n] whose concatenation is the flattened data. *)
Theorem view_rows_spec {R : Type} `{Scalar R} (n : nat) (flat : list R) :
  (Gen.view_rows n flat = None <-> n = 0 \/ length flat mod n <> 0)
  /\ (forall rows,
         Gen.view_rows n flat = Some rows
         <-> 0 < n /\ Forall (fun r => length r = n) rows /\ concat rows = flat).
Proof.
  split.
  - unfold Gen.view_rows. destruct (Nat.eqb_spec n 0) as [-> | Hn].
    + split; auto.
    + destruct (Nat.eqb_spec (length flat mod n) 0) as [Hm | Hm].
      * split; [discriminate|]. intros [? | ?]; contradiction.
      * split; auto.
  - intro rows. split.
    + unfold Gen.view_rows. destruct (Nat.eqb_spec n 0) as [-> | Hn]; [discriminate|].
      destruct (Nat.eqb_spec (length flat mod n) 0) as [Hm | Hm]; [|discriminate].
      intro E. injection E as <-.
      destruct (@chunks_spec _ n (length flat / n) flat) as (Hc & Hf & _).
      { apply Nat.Div0.div_exact in Hm. lia. }
      split; [lia|]. split; assumption.
    + intros (Hn & Hf & <-). now apply view_rows_concat.
Qed.

(** X9. [evaluate] raises on an empty iterator and when the loss of a
    batch raises; otherwise it returns the mean of the losses of the
    batches, each batch counting once whatever its size. *)
Theorem evaluate_mean {R : Type} `{Scalar R} (n_words : nat) (model : GEN.t R)
        (data_iter : list (list (list nat))) :
  Gen.evaluate n_words model data_iter
  = match data_iter with
    | [] => None
    | _ :: _ =>
        ls <- mapM (Gen.batch_loss model None n_words) data_iter ;;
        Some (Gen.mean ls)
    end.
Proof.
  unfold Gen.evaluate. rewrite evaluate_batches_fold.
  destruct data_iter as [|data rest]; [reflexivity|].
  destruct (mapM _ (data :: rest)) as [ls|] eqn:E; cbn [bind]; [|reflexivity].
  apply mapM_length in E. unfold Gen.mean. now rewrite E.
Qed.

(** ** More on the sampler *)

Section SamplerCoverage.
Context {R : Type} `{Scalar R}.
Variable rng : Type.
Variable multinomial : rng -> list R -> option (nat * rng).
Variable MolFromSmiles : string -> call_result.
Variable model : GEN.t R.
Variable idx2word : list string.

Local Abbreviation extend := (@Gen.extend R _ rng multinomial model idx2word).
Local Abbreviation generate := (@Gen.generate R _ rng multinomial model idx2word).
Local Abbreviation record := (@Gen.record rng MolFromSmiles).
Local Abbreviation draw := (@Gen.draw R _ rng multinomial MolFromSmiles model idx2word).
Local Abbreviation draws := (@Gen.draws R _ rng multinomial MolFromSmiles model idx2word).
Local Abbreviation sample := (@Gen.sample R _ rng multinomial MolFromSmiles model idx2word).

Lemma draw_grows (fuel : nat) (smi : list string) (st1 st2 : Gen.sampler rng) :
  draw fuel smi st1 = Done st2 ->
  exists more, Gen.ss st2 = Gen.ss st1 ++ more /\ length more <= 1
               /\ Gen.n st1 <= Gen.n st2.
Proof.
  unfold Gen.draw.
  destruct (generate fuel (Gen.gen st1) [1] _) as [[[final word] g']| |];
    cbn [obind fst snd]; try discriminate.
  intro Er. apply record_done in Er. cbn [Gen.n Gen.ss Gen.gen] in Er.
  destruct Er as [_ [(_ & -> & ->) | (_ & -> & [[-> _] | (-> & _)])]].
  - exists []. rewrite app_nil_r. simpl. auto.
  - exists []. rewrite app_nil_r. simpl. auto.
  - exists [drop_first word]. simpl. auto.
Qed.

Lemma generate_more_fuel (extra fuel : nat) (g : rng) (input : list nat) (word : string)
      (r : outcome (list nat * string * rng)) :
  generate fuel g input word = r -> r <> Timeout ->
  generate (extra + fuel) g input word = r.
Proof.
  revert g input word. induction fuel as [|fuel IH]; intros g input word E Hr.
  - simpl in E. congruence.
  - rewrite Nat.add_succ_r. simpl in *.
    destruct (last_char word) as [c|]; cbn [try obind] in *; [|exact E].
    destruct (negb (Ascii.eqb c newline)); [|exact E].
    destruct (extend g input word) as [[[i1 w1] g1]|]; cbn [try obind fst snd] in *;
      [|exact E].
    now apply IH.
Qed.

Lemma draw_more_fuel (extra fuel : nat) (smi : list string) (st : Gen.sampler rng)
      (r : outcome (Gen.sampler rng)) :
  draw fuel smi st = r -> r <> Timeout -> draw (extra + fuel) smi st = r.
Proof.
  unfold Gen.draw. intros E Hr.
  destruct (generate fuel (Gen.gen st) [1] _) as [w| |] eqn:Eg.
  - now rewrite generate_more_fuel with (r := Done w) by (exact Eg || discriminate).
  - now rewrite generate_more_fuel with (r := Raised) by (exact Eg || discriminate).
  - cbn [obind] in E. congruence.
Qed.

Lemma draws_more_fuel (extra fuel : nat) (smi : list string) (k : nat)
      (st : Gen.sampler rng) (r : outcome (Gen.sampler rng)) :
  draws fuel smi k st = r -> r <> Timeout -> draws (extra + fuel) smi k st = r.
Proof.
  revert r. induction k as [|k IH]; intros r E Hr; [exact E|].
  simpl in *. destruct (draws fuel smi k st) as [st1| |] eqn:Ed.
  - rewrite (IH (Done st1) eq_refl) by discriminate. cbn [obind] in *.
    now apply draw_more_fuel.
  - rewrite (IH Raised eq_refl) by discriminate. exact E.
  - cbn [obind] in E. congruence.
Qed.

Lemma last_char_extended (word sym : string) :
  last_char word <> Some newline -> last_char sym <> Some newline ->
  last_char (word ++ sym) <> Some newline.
Proof.
  intros Hw Hs. destruct sym as [|c sym].
  - now rewrite append_nil_r.
  - now rewrite last_char_append by discriminate.
Qed.

Lemma generate_not_done (fuel : nat) (g : rng) (input : list nat) (word : string)
      (r : list nat * string * rng) :
  (forall sym, In sym idx2word -> last_char sym <> Some newline) ->
  last_char word <> Some newline ->
  generate fuel g input word <> Done r.
Proof.
  intro Hsym. revert g input word. induction fuel as [|fuel IH]; intros g input word Hw;
    simpl; [discriminate|].
  destruct (last_char word) as [c|] eqn:Ec; cbn [try obind]; [|discriminate].
  destruct (Ascii.eqb_spec c newline) as [-> | Hc]; [now contradiction Hw|]. cbn [negb].
  destruct (extend g input word) as [[[i1 w1] g1]|] eqn:Ee; cbn [try obind fst snd];
    [|discriminate].
  apply extend_inv in Ee. destruct Ee as (tok & sym & Es & -> & ->).
  apply IH. apply last_char_extended; [now rewrite Ec|].
  apply Hsym. eapply nth_error_In; exact Es.
Qed.

End SamplerCoverage.

Section ValidityFacts.
Context {R : Type} `{Scalar R}.
Variable rng : Type.
Variable multinomial : rng -> list R -> option (nat * rng).
Variable MolFromSmiles : string -> call_result.
Variable model : GEN.t R.
Variable idx2word : list string.

Local Abbreviation words := (words_drawn multinomial model idx2word).
Local Abbreviation valid := (filter (accepted MolFromSmiles)).

(** After [k] draws the counter is the number of the [k] words drawn
    that the oracle accepted, and every string added to the list is one
    of them. *)
Lemma draws_count (fuel : nat) (smi : list string) (k : nat) (st st' : Gen.sampler rng) :
  Gen.draws multinomial MolFromSmiles model idx2word fuel smi k st = Done st' ->
  length (fst (words fuel k (Gen.gen st))) = k
  /\ snd (words fuel k (Gen.gen st)) = Gen.gen st'
  /\ Gen.n st' = Gen.n st + length (valid (fst (words fuel k (Gen.gen st))))
  /\ exists more,
       Gen.ss st' = Gen.ss st ++ more
       /\ incl more (valid (fst (words fuel k (Gen.gen st))))
       /\ length more <= length (valid (fst (words fuel k (Gen.gen st)))).
Proof.
  revert st'. induction k as [|k IH]; intro st'.
  - simpl. intro E. injection E as <-.
    split; [reflexivity|]. split; [reflexivity|]. split; [lia|].
    exists []. rewrite app_nil_r.
    split; [reflexivity|]. split; [apply incl_refl|apply Nat.le_refl].
  - cbn [Gen.draws words_drawn].
    destruct (Gen.draws _ _ _ _ fuel smi k st) as [st1| |]; cbn [obind]; try discriminate.
    destruct (IH st1 eq_refl) as (Hlen & Hgen & Hn & more & Hss & Hincl & Hmore).
    cbv zeta. rewrite Hgen. unfold Gen.draw.
    destruct (Gen.generate _ _ _ fuel (Gen.gen st1) [1] (String "&" EmptyString))
      as [[[final word] g']| |]; cbn [obind fst snd]; try discriminate.
    unfold Gen.record. cbn [Gen.n Gen.ss Gen.gen].
    rewrite filter_app, !length_app. cbn [filter]. unfold accepted at 2 4 6.
    destruct (MolFromSmiles (drop_first word)) as [[|]|]; try discriminate.
    + destruct (negb (mem (drop_first word) smi)
                && negb (mem (drop_first word) (Gen.ss st1)));
        intro E; injection E as <-; cbn [Gen.n Gen.ss Gen.gen length];
        (split; [lia|]); (split; [reflexivity|]); (split; [lia|]).
      * exists (more ++ [drop_first word]). rewrite Hss, app_assoc.
        split; [reflexivity|]. split.
        -- apply incl_app; [now apply incl_appl|apply incl_appr, incl_refl].
        -- rewrite !length_app. simpl. lia.
      * exists more. split; [exact Hss|]. split; [now apply incl_appl|lia].
    + intro E. injection E as <-. cbn [Gen.n Gen.ss Gen.gen length].
      rewrite app_nil_r.
      split; [lia|]. split; [reflexivity|]. split; [lia|].
      exists more. split; [exact Hss|]. split; [exact Hincl|lia].
Qed.

End ValidityFacts.

(** X10. The validity rate.  [sample] raises when asked for no sample
    (the rate divides by [num_samples]).  When it returns, the loop has
    finished [num_samples] words, and the rate is the number of these
    words that the oracle accepted, divided by [num_samples]: words
    accepted more than once or present in the reference count each
    time.  Every string returned is one of the accepted words, so the
    list is no longer than that number. *)
Theorem sample_validity_rate {R : Type} `{Scalar R} (rng : Type)
        (multinomial : rng -> list R -> option (nat * rng))
        (MolFromSmiles : string -> call_result)
        (model : GEN.t R) (idx2word : list string)
        (fuel : nat) (g : rng) (smi : list string) :
  Gen.sample multinomial MolFromSmiles model idx2word fuel g smi 0 = Raised
  /\ forall num_samples ss rate,
       Gen.sample multinomial MolFromSmiles model idx2word fuel g smi num_samples
       = Done (ss, rate) ->
       0 < num_samples
       /\ length (fst (words_drawn multinomial model idx2word fuel num_samples g))
          = num_samples
       /\ rate
          = rdiv (rofnat (length (filter (accepted MolFromSmiles)
                                         (fst (words_drawn multinomial model idx2word
                                                           fuel num_samples g)))))
                 (rofnat num_samples)
       /\ incl ss (filter (accepted MolFromSmiles)
                          (fst (words_drawn multinomial model idx2word fuel
                                            num_samples g)))
       /\ length ss
          <= length (filter (accepted MolFromSmiles)
                            (fst (words_drawn multinomial model idx2word fuel
                                              num_samples g)))
          <= num_samples.
Proof.
  split; [reflexivity|].
  intros num_samples ss rate. unfold Gen.sample.
  destruct (Gen.draws _ _ _ _ fuel smi num_samples _) as [st| |] eqn:Ed; cbn [obind];
    try discriminate.
  destruct num_samples as [|k]; cbn [Nat.eqb]; [discriminate|].
  intro E. injection E as <- <-. split; [lia|].
  apply draws_count in Ed. cbn [Gen.n Gen.ss Gen.gen] in Ed.
  destruct Ed as (Hlen & _ & Hn & more & Hss & Hincl & Hmore).
  simpl in Hn, Hss. subst more.
  split; [exact Hlen|]. split; [now rewrite Hn|]. split; [exact Hincl|].
  split; [exact Hmore|].
  rewrite <- Hlen at 2. apply filter_length_le.
Qed.

Lemma sample_validity_rate_witness :
  Gen.sample Example.multinomial Example.accepts_carbon Example.model Example.idx2word
             5 Example.tape (readlines Example.reference) 3
  = Done ([String "C" nl], rdiv (rofnat 2) (rofnat 3))
  /\ fst (words_drawn Example.multinomial Example.model Example.idx2word 5 3 Example.tape)
     = [String "C" nl; String "O" nl; String "C" nl]
  /\ filter (accepted Example.accepts_carbon)
            (fst (words_drawn Example.multinomial Example.model Example.idx2word 5 3
                              Example.tape))
     = [String "C" nl; String "C" nl]
  /\ 0 < 3
  /\ length (fst (words_drawn Example.multinomial Example.model Example.idx2word 5 3
                              Example.tape)) = 3
  /\ (rdiv (rofnat 2) (rofnat 3) : Z)
     = rdiv (rofnat (length (filter (accepted Example.accepts_carbon)
                                    (fst (words_drawn Example.multinomial Example.model
                                                      Example.idx2word 5 3
                                                      Example.tape)))))
            (rofnat 3)
  /\ incl [String "C" nl]
          (filter (accepted Example.accepts_carbon)
                  (fst (words_drawn Example.multinomial Example.model Example.idx2word
                                    5 3 Example.tape)))
  /\ length [String "C" nl]
     <= length (filter (accepted Example.accepts_carbon)
                       (fst (words_drawn Example.multinomial Example.model
                                         Example.idx2word 5 3 Example.tape)))
     <= 3.
Proof.
  split; [vm_compute; reflexivity|].
  split; [vm_compute; reflexivity|].
  split; [vm_compute; reflexivity|].
  apply (proj2 (@sample_validity_rate Z _ (list nat) Example.multinomial
                                      Example.accepts_carbon Example.model
                                      Example.idx2word 5 Example.tape
                                      (readlines Example.reference))
               3 [(String "C" nl)] (rdiv (rofnat 2) (rofnat 3))).
  vm_compute. reflexivity.
Defined.

(** X11. The list of generated strings only grows, at its end and by at
    most one string per draw: what [k] draws have recorded is a prefix
    of what any later state holds, and the count of accepted strings
    never decreases. *)
Theorem generated_list_grows {R : Type} `{Scalar R} (rng : Type)
        (multinomial : rng -> list R -> option (nat * rng))
        (MolFromSmiles : string -> call_result)
        (model : GEN.t R) (idx2word : list string)
        (fuel : nat) (smi : list string) (j k : nat) (st st1 st2 : Gen.sampler rng) :
  Gen.draws multinomial MolFromSmiles model idx2word fuel smi k st = Done st1 ->
  Gen.draws multinomial MolFromSmiles model idx2word fuel smi (j + k) st = Done st2 ->
  exists more,
    Gen.ss st2 = Gen.ss st1 ++ more /\ length more <= j /\ Gen.n st1 <= Gen.n st2.
Proof.
  intro E1. revert st2. induction j as [|j IH]; intros st2 E2.
  - simpl in E2. rewrite E1 in E2. injection E2 as <-.
    exists []. rewrite app_nil_r. simpl. auto.
  - simpl in E2.
    destruct (Gen.draws _ _ _ _ fuel smi (j + k) st) as [st'| |]; cbn [obind] in E2;
      try discriminate.
    destruct (IH st' eq_refl) as (more & Hs & Hl & Hn).
    apply draw_grows in E2. destruct E2 as (more' & Hs' & Hl' & Hn').
    exists (more ++ more'). rewrite Hs', Hs, app_assoc, length_app.
    split; [reflexivity|]. split; lia.
Qed.

Lemma generated_list_grows_witness :
  exists more,
    [(String "C" nl)] = [(String "C" nl)] ++ more /\ length more <= 2 /\ 1 <= 2.
Proof.
  apply (@generated_list_grows
           Z _ (list nat) Example.multinomial Example.accepts_carbon Example.model
           Example.idx2word 5 (readlines Example.reference) 2 1
           {| Gen.n := 0; Gen.ss := []; Gen.gen := Example.tape |}
           {| Gen.n := 1; Gen.ss := [(String "C" nl)]; Gen.gen := [3; 2; 0; 2] |}
           {| Gen.n := 2; Gen.ss := [(String "C" nl)]; Gen.gen := [] |});
    vm_compute; reflexivity.
Defined.

(** X12. The loop has no bound of its own: when no symbol of the
    vocabulary ends with the terminator, no amount of steps finishes a
    word, and [sample] never returns a result. *)
Theorem generate_needs_terminator {R : Type} `{Scalar R} (rng : Type)
        (multinomial : rng -> list R -> option (nat * rng))
        (MolFromSmiles : string -> call_result)
        (model : GEN.t R) (idx2word : list string) :
  (forall sym, In sym idx2word -> last_char sym <> Some newline) ->
  (forall fuel g r,
      Gen.generate multinomial model idx2word fuel g [1] (String "&" EmptyString)
      <> Done r)
  /\ (forall fuel g smi num_samples r,
         Gen.sample multinomial MolFromSmiles model idx2word fuel g smi num_samples
         <> Done r).
Proof.
  intro Hsym.
  assert (Hgen : forall fuel g r,
             Gen.generate multinomial model idx2word fuel g [1] (String "&" EmptyString)
             <> Done r).
  { intros fuel g r. apply generate_not_done; [exact Hsym|]. discriminate. }
  split; [exact Hgen|].
  intros fuel g smi num_samples r. unfold Gen.sample.
  destruct num_samples as [|k].
  - simpl. discriminate.
  - simpl. destruct (Gen.draws _ _ _ _ fuel smi k _) as [st| |]; cbn [obind];
      try discriminate.
    unfold Gen.draw.
    destruct (Gen.generate _ _ _ fuel (Gen.gen st) [1] _) as [w| |] eqn:Eg;
      cbn [obind]; try discriminate.
    exfalso. eapply Hgen; exact Eg.
Qed.

Lemma generate_needs_terminator_witness :
  Gen.generate Example.multinomial Example.model [String "C" EmptyString; String "&" EmptyString]
               7 [0; 0; 1; 0] [1] (String "&" EmptyString)
  <> Done ([1; 0], String "&" (String "C" EmptyString), [0; 1; 0]).
Proof.
  assert (Hsym : forall sym, In sym [String "C" EmptyString; String "&" EmptyString] ->
                             last_char sym <> Some newline)
    by (intros sym [<- | [<- | []]]; discriminate).
  apply (proj1 (@generate_needs_terminator
                  Z _ (list nat) Example.multinomial Example.accepts_carbon Example.model
                  [String "C" EmptyString; String "&" EmptyString] Hsym)).
Defined.

(** ** The checkpoint *)

Section CheckpointFacts.
Context {R : Type} `{Scalar R}.
Variable optimizer : Type.
Variable step : optimizer -> GEN.t R -> (nat -> nat -> nat -> nat -> bool) ->
                list (list nat) -> GEN.t R * optimizer.
Variable scheduler_step : optimizer -> R -> optimizer.
Variable n_words : nat.
Variable exp_overflows : R -> bool.
Variable train_iter : nat -> list (list (list nat)).
Variable val_iter : list (list (list nat)).
Variable masks : nat -> nat -> nat -> nat -> nat -> nat -> bool.

Lemma epochs_from_saved (k epoch : nat) (tr tr' : Gen.trainer optimizer) :
  (forall m, Gen.saved tr = Some m ->
             Gen.evaluate n_words m val_iter = Some (Gen.best_vloss tr)) ->
  Gen.epochs_from step scheduler_step n_words exp_overflows train_iter val_iter masks
                  k epoch tr
  = Some tr' ->
  forall m, Gen.saved tr' = Some m ->
            Gen.evaluate n_words m val_iter = Some (Gen.best_vloss tr').
Proof.
  revert epoch tr. induction k as [|k IH]; intros epoch tr Hinv; simpl.
  - intro E. injection E as <-. exact Hinv.
  - unfold Gen.epoch_body.
    destruct (Gen.train _ _ _ _ _ _) as [r|]; cbn [bind]; [|discriminate].
    destruct (Gen.evaluate n_words (fst (fst r)) val_iter) as [val_loss|] eqn:Ev;
      cbn [bind]; [|discriminate].
    cbv zeta. destruct (exp_overflows val_loss); [discriminate|].
    apply IH. unfold Gen.select.
    destruct (rltb val_loss (Gen.best_vloss tr)); cbn [Gen.saved Gen.best_vloss].
    + intros m E. injection E as <-. exact Ev.
    + exact Hinv.
Qed.

End CheckpointFacts.

(** X15. The checkpoint is the best model: after any number of epochs,
    when a checkpoint exists, evaluating the saved model on the
    validation set gives the best validation loss on record. *)
Theorem saved_model_is_best {R : Type} `{Scalar R} (optimizer : Type)
        (step : optimizer -> GEN.t R -> (nat -> nat -> nat -> nat -> bool) ->
                list (list nat) -> GEN.t R * optimizer)
        (scheduler_step : optimizer -> R -> optimizer) (n_words : nat)
        (exp_overflows : R -> bool)
        (train_iter : nat -> list (list (list nat))) (val_iter : list (list (list nat)))
        (masks : nat -> nat -> nat -> nat -> nat -> nat -> bool)
        (epochs : nat) (model : GEN.t R) (opt : optimizer)
        (tr : Gen.trainer optimizer) (m : GEN.t R) :
  Gen.training_loop step scheduler_step n_words exp_overflows train_iter val_iter masks
                    epochs model opt
  = Some tr ->
  Gen.saved tr = Some m ->
  Gen.evaluate n_words m val_iter = Some (Gen.best_vloss tr).
Proof.
  unfold Gen.training_loop. intros Hrun Hsaved.
  eapply epochs_from_saved; [|exact Hrun|exact Hsaved].
  cbn [Gen.start Gen.saved]. discriminate.
Qed.

Lemma saved_model_is_best_witness :
  Gen.evaluate 4 (Example.model_with_loss 30) Example.batches = Some 30%Z.
Proof.
  destruct (Gen.training_loop Example.step Example.scheduler_step 4
                              Example.exp_overflows
                              (fun _ => Example.batches) Example.batches
                              (fun _ _ _ _ _ _ => true) 3
                              (Example.model_with_loss 120) [50; 70; 30]%Z)
    as [tr|] eqn:Etr; [|vm_compute in Etr; discriminate].
  assert (Hs : Gen.saved tr = Some (Example.model_with_loss 30)
               /\ Gen.best_vloss tr = 30%Z).
  { pose proof Etr as E. vm_compute in E. injection E as <-. split; reflexivity. }
  destruct Hs as [Hs Hb].
  transitivity (Some (Gen.best_vloss tr)); [|now rewrite Hb].
  exact (@saved_model_is_best Z _ (list Z) Example.step Example.scheduler_step 4
                              Example.exp_overflows
                              (fun _ => Example.batches) Example.batches
                              (fun _ _ _ _ _ _ => true) 3
                              (Example.model_with_loss 120) [50; 70; 30]%Z tr
                              (Example.model_with_loss 30) Etr Hs).
Defined.

(** ** Lines of the output file *)

Lemma newline_free_append (a b : string) :
  newline_free (a ++ b) <-> newline_free a /\ newline_free b.
Proof.
  induction a as [|c a IH]; simpl; [tauto|]. rewrite IH. tauto.
Qed.

Lemma newline_free_last (w : string) : newline_free w -> last_char w <> Some newline.
Proof.
  induction w as [|c w IH]; simpl; [discriminate|].
  intros [Hc Hw]. destruct w as [|d w]; [congruence|]. now apply IH.
Qed.

Lemma readlines_from_line (body cur rest : string) :
  newline_free body ->
  readlines_from cur (body ++ nl ++ rest)
  = (cur ++ body ++ nl)%string :: readlines_from EmptyString rest.
Proof.
  revert cur. induction body as [|c body IH]; intros cur Hb.
  - reflexivity.
  - cbn [append readlines_from]. destruct Hb as [Hc Hb].
    replace (Ascii.eqb c newline) with false by (symmetry; now apply Ascii.eqb_neq).
    rewrite IH by exact Hb. now rewrite append_assoc.
Qed.

Lemma readlines_lines (ss : list string) :
  Forall is_line ss -> readlines (String.concat EmptyString ss) = ss.
Proof.
  unfold readlines. induction 1 as [|s ss [body [-> Hb]] _ IH]; [reflexivity|].
  change ((body ++ nl)%string :: ss) with ([(body ++ nl)%string] ++ ss).
  rewrite concat_app. cbn [String.concat]. rewrite append_assoc.
  rewrite readlines_from_line by exact Hb. now rewrite IH.
Qed.

Section LineFacts.
Context {R : Type} `{Scalar R}.
Variable rng : Type.
Variable multinomial : rng -> list R -> option (nat * rng).
Variable MolFromSmiles : string -> call_result.
Variable model : GEN.t R.
Variable idx2word : list string.
Hypothesis Hchars : Forall (fun sym => String.length sym = 1) idx2word.

Local Abbreviation generate := (@Gen.generate R _ rng multinomial model idx2word).
Local Abbreviation draws := (@Gen.draws R _ rng multinomial MolFromSmiles model idx2word).

Lemma generate_line (fuel : nat) (g : rng) (input : list nat) (word : string)
      (final : list nat) (word' : string) (g' : rng) :
  newline_free word ->
  generate fuel g input word = Done (final, word', g') ->
  exists body, word' = (word ++ body ++ nl)%string /\ newline_free body.
Proof.
  revert g input word. induction fuel as [|fuel IH]; intros g input word Hw; simpl;
    [discriminate|].
  pose proof (newline_free_last _ Hw) as Hl.
  destruct (last_char word) as [c|] eqn:Ec; cbn [try obind]; [|discriminate].
  destruct (Ascii.eqb_spec c newline) as [-> | Hc]; [now contradiction Hl|]. cbn [negb].
  destruct (Gen.extend _ _ _ g input word) as [[[i1 w1] g1]|] eqn:Ee;
    cbn [try obind fst snd]; [|discriminate].
  apply extend_inv in Ee. destruct Ee as (tok & sym & Es & -> & ->).
  assert (Hone : String.length sym = 1).
  { pose proof Hchars as Hall. rewrite Forall_forall in Hall.
    apply Hall. eapply nth_error_In; exact Es. }
  destruct (length_one_single sym Hone) as [d ->].
  destruct (Ascii.eqb_spec d newline) as [-> | Hd].
  - destruct fuel as [|fuel]; simpl; [discriminate|].
    rewrite last_char_append by discriminate. cbn [last_char try obind].
    rewrite Ascii.eqb_refl. cbn [negb].
    intro E. injection E as _ <- _. exists EmptyString. split; [reflexivity|exact I].
  - intro E. apply IH in E.
    + destruct E as [body [-> Hb]]. exists (String d body).
      split; [now rewrite append_assoc|]. split; assumption.
    + apply newline_free_append. split; [exact Hw|]. split; [exact Hd|exact I].
Qed.

Lemma draws_lines (fuel : nat) (smi : list string) (k : nat) (g : rng)
      (st : Gen.sampler rng) :
  draws fuel smi k {| Gen.n := 0; Gen.ss := []; Gen.gen := g |} = Done st ->
  Forall is_line (Gen.ss st).
Proof.
  revert st. induction k as [|k IH]; intro st; simpl.
  - intro E. injection E as <-. constructor.
  - destruct (draws fuel smi k _) as [st1| |]; cbn [obind]; try discriminate.
    specialize (IH st1 eq_refl). unfold Gen.draw.
    destruct (generate fuel (Gen.gen st1) [1] _) as [[[final word] g']| |] eqn:Eg;
      cbn [obind fst snd]; try discriminate.
    intro Er. apply record_done in Er. cbn [Gen.n Gen.ss Gen.gen] in Er.
    destruct Er as [_ [(_ & _ & ->) | (_ & _ & [[-> _] | (-> & _)])]]; auto.
    apply Forall_app. split; [exact IH|]. constructor; [|constructor].
    apply generate_line in Eg.
    + destruct Eg as [body [-> Hb]]. now exists body.
    + split; [discriminate|exact I].
Qed.

End LineFacts.

(** X14. One string per line.  For a vocabulary of single-character
    symbols, none of them the carriage return (which reading in text
    mode also takes for a line end), every string [sample] returns is a
    line, with its only terminator at the end, so reading the output
    file back line by line gives the list of generated strings. *)
Theorem sample_file_lines {R : Type} `{Scalar R} (rng : Type)
        (multinomial : rng -> list R -> option (nat * rng))
        (MolFromSmiles : string -> call_result)
        (model : GEN.t R) (idx2word : list string)
        (fuel : nat) (g : rng) (reference : string) (num_samples : nat) (out : string) :
  Forall (fun sym => String.length sym = 1) idx2word ->
  ~ In (String "013"%char EmptyString) idx2word ->
  Gen.sample_to_file multinomial MolFromSmiles model idx2word fuel g reference num_samples
  = Done out ->
  exists ss rate,
    Gen.sample multinomial MolFromSmiles model idx2word fuel g (readlines reference)
               num_samples = Done (ss, rate)
    /\ Forall is_line ss
    /\ readlines out = ss.
Proof.
  intros Hchars _. unfold Gen.sample_to_file. cbv zeta.
  destruct (Gen.sample _ _ _ _ fuel g (readlines reference) num_samples)
    as [[ss rate]| |] eqn:Es; cbn [obind fst]; try discriminate.
  intro E. injection E as <-. exists ss, rate. split; [reflexivity|].
  apply sample_done in Es. destruct Es as (st & Ed & -> & _).
  apply draws_lines in Ed; [|exact Hchars].
  split; [exact Ed|]. now apply readlines_lines.
Qed.

Lemma sample_file_lines_witness :
  exists ss rate,
    Gen.sample Example.multinomial Example.accepts_carbon Example.model Example.idx2word
               5 Example.tape (readlines Example.reference) 3 = Done (ss, rate)
    /\ Forall is_line ss
    /\ readlines (String "C" nl) = ss.
Proof.
  apply (@sample_file_lines Z _ (list nat) Example.multinomial Example.accepts_carbon
                            Example.model Example.idx2word 5 Example.tape
                            Example.reference 3 (String "C" nl)).
  - repeat constructor.
  - simpl. intros [E|[E|[E|[E|[]]]]]; discriminate.
  - vm_compute. reflexivity.
Defined.

(** ** The encoder of the predictive model *)

Section PreEncoderFacts.
Context {R : Type} `{Scalar R}.

(** A layer with three taps and padding equal to the dilation: nothing
    is trimmed and the length is kept. *)
Lemma forward_same_padding (n_inputs n_outputs dilation : nat) (dropout : R)
      (w : ConvLayer.params R) (md : option (nat -> nat -> bool)) (x : list (list R)) :
  1 <= dilation -> length x = n_inputs -> rect x -> 1 <= width x ->
  ConvLayer.forward
    (ConvLayer.init n_inputs n_outputs 3 1 dilation dilation dropout w) md x
  = Some (tab n_outputs (width x)
              (fun c t =>
                 radd (gated n_inputs n_outputs 3 dilation dilation dropout w md x c t)
                      (residual n_inputs n_outputs w x c t))).
Proof.
  intros Hd Hlen Hrect HL.
  rewrite forward_closed by assumption. rewrite out_len_init.
  replace (dilation =? 0) with false by (symmetry; apply Nat.eqb_neq; lia).
  cbn [Nat.eqb orb].
  replace (width x + 2 * dilation <? dilation * (3 - 1) + 1) with false
    by (symmetry; apply Nat.ltb_ge; lia).
  cbn [bind].
  replace (width x + 2 * dilation - (dilation * (3 - 1) + 1) + 1) with (width x) by lia.
  unfold chomp_len. rewrite Nat.eqb_refl. cbn [negb].
  unfold pointwise_len.
  replace (width x =? 0) with false by (symmetry; apply Nat.eqb_neq; lia).
  destruct (n_inputs =? n_outputs); cbn [bind]; apply tensor_add_tab.
Qed.

Variables (num_inputs : nat) (num_channels : list nat) (dropout : R).
Variable w : nat -> ConvLayer.params R.
Hypothesis Hin : 0 < num_inputs.
Hypothesis Hch : Forall (fun c => 0 < c) num_channels.

Lemma pre_channels_pos (i : nat) :
  i <= length num_channels -> 0 < pre_channels num_inputs num_channels i.
Proof.
  intro Hi. unfold pre_channels. destruct i as [|i]; [exact Hin|]. cbn [Nat.eqb].
  rewrite Forall_forall in Hch. apply Hch. apply nth_In. lia.
Qed.

Lemma pre_levels_shape (md : option (nat -> nat -> nat -> bool)) (L n s j : nat)
      (x : list (list R)) :
  1 <= L -> s + n = length num_channels ->
  shape (pre_channels num_inputs num_channels s) L x ->
  exists y,
    GenEncoder.Sequential
      (map (fun i =>
              let dilation_size := 2 ^ i in
              let in_channels := if i =? 0 then num_inputs else nth (i - 1) num_channels 0 in
              let out_channels := nth i num_channels 0 in
              ConvLayer.init in_channels out_channels 3 1 dilation_size
                             dilation_size dropout (w i))
           (seq s n)) md j x
    = Some y
    /\ shape (pre_channels num_inputs num_channels (s + n)) L y.
Proof.
  intro HL. revert s j x. induction n as [|n IH]; intros s j x Hs Hx.
  - exists x. rewrite Nat.add_0_r. split; [reflexivity|exact Hx].
  - cbn [seq map GenEncoder.Sequential]. cbv zeta.
    assert (Hpow : 1 <= 2 ^ s) by (pose proof (Nat.pow_nonzero 2 s); lia).
    assert (Hpos : 0 < pre_channels num_inputs num_channels s)
      by (apply pre_channels_pos; lia).
    pose proof (shape_width Hx Hpos) as Hw.
    rewrite forward_same_padding; [|exact Hpow|apply Hx|eapply shape_rect; exact Hx|lia].
    cbn [bind]. rewrite Hw.
    destruct (IH (S s) (S j)
                 (tab (nth s num_channels 0) L
                      (fun c t =>
                         radd (gated (if s =? 0 then num_inputs
                                      else nth (s - 1) num_channels 0)
                                     (nth s num_channels 0) 3 (2 ^ s) (2 ^ s) dropout (w s)
                                     (option_map (fun keep => keep (S j)) md) x c t)
                              (residual (if s =? 0 then num_inputs
                                         else nth (s - 1) num_channels 0)
                                        (nth s num_channels 0) (w s) x c t))))
      as [y [Ey Sy]].
    + lia.
    + unfold pre_channels. cbn [Nat.eqb]. replace (S s - 1) with s by lia.
      apply shape_tab.
    + exists y. split; [exact Ey|]. now rewrite Nat.add_succ_r.
Qed.

End PreEncoderFacts.

(** X7. The encoder of the predictive model keeps the length: with
    three taps, positive channel counts and a non-empty input of shape
    [(num_inputs, L)], [PreEncoder] returns, in either mode, a tensor of
    shape [(c, L)] where [c] is the last channel count ([num_inputs]
    when there is no level). *)
Theorem PreEncoder_keeps_length {R : Type} `{Scalar R}
        (num_inputs : nat) (num_channels : list nat) (dropout : R)
        (w : nat -> ConvLayer.params R) (md : option (nat -> nat -> nat -> bool))
        (L : nat) (x : list (list R)) :
  0 < num_inputs -> Forall (fun c => 0 < c) num_channels -> 1 <= L ->
  shape num_inputs L x ->
  exists y,
    PreEncoder.forward (PreEncoder.init num_inputs num_channels 3 dropout w) md x = Some y
    /\ shape (pre_channels num_inputs num_channels (length num_channels)) L y.
Proof.
  intros Hin Hch HL Hx. unfold PreEncoder.forward, PreEncoder.init. cbv zeta.
  apply (@pre_levels_shape _ _ num_inputs num_channels dropout w Hin Hch md L
                           (length num_channels) 0 0 x HL eq_refl Hx).
Qed.

Lemma PreEncoder_keeps_length_witness :
  exists y,
    PreEncoder.forward (PreEncoder.init 2 [3; 2] 3 0%Z (fun _ => Example.layer_params))
                       None Example.x23
    = Some y
    /\ shape 2 3 y.
Proof.
  apply (@PreEncoder_keeps_length Z _ 2 [3; 2] 0%Z (fun _ => Example.layer_params)
                                  None 3 Example.x23); try lia.
  - repeat constructor.
  - split; [reflexivity|]. repeat constructor.
Defined.

(** ** Causality in training mode *)

Section TrainingCausality.
Context {R : Type} `{Scalar R}.

Lemma imap_firstn {A B : Type} (f : nat -> A -> B) (i : nat) (l : list A) :
  firstn i (imap f l) = imap f (firstn i l).
Proof.
  unfold imap, map2. rewrite firstn_map, combine_firstn, firstn_seq, length_firstn.
  reflexivity.
Qed.

Lemma Dropout_firstn (p : R) (md : option (nat -> nat -> bool)) (i : nat)
      (e : list (list R)) :
  firstn i (Dropout p md e) = Dropout p md (firstn i e).
Proof.
  destruct md as [keep|]; [|reflexivity]. apply imap_firstn.
Qed.

Lemma forward1_causal_masked (m : GEN.t R) (md : option (nat -> nat -> nat -> bool))
      (i : nat) (s1 s2 : list nat) (o1 o2 : list (list R)) :
  Forall causal_layer (GEN.encoder m) ->
  firstn i s1 = firstn i s2 ->
  GEN.forward1 m md s1 = Some o1 -> GEN.forward1 m md s2 = Some o2 ->
  firstn i o1 = firstn i o2.
Proof.
  intros Hc Es. unfold GEN.forward1, GenEncoder.forward.
  destruct (mapM (Embedding.forward (GEN.emb m)) s1) as [e1|] eqn:E1; cbn [bind];
    [|discriminate].
  destruct (mapM (Embedding.forward (GEN.emb m)) s2) as [e2|] eqn:E2; cbn [bind];
    [|discriminate].
  assert (Ee : firstn i e1 = firstn i e2)
    by (eapply mapM_prefix; [exact Es|exact E1|exact E2]).
  set (E := Embedding.embedding_dim (GEN.emb m)).
  set (md0 := option_map (fun keep => keep 0) md).
  destruct (GenEncoder.Sequential (GEN.encoder m) md 0
                                  (transpose E (Dropout (GEN.drop m) md0 e1)))
    as [y1|] eqn:Y1; cbn [bind]; [|discriminate].
  destruct (GenEncoder.Sequential (GEN.encoder m) md 0
                                  (transpose E (Dropout (GEN.drop m) md0 e2)))
    as [y2|] eqn:Y2; cbn [bind]; [|discriminate].
  intros D1 D2.
  assert (Hy : agree i y1 y2 /\ rect y1 /\ rect y2).
  { eapply Sequential_causal; [exact Hc| | | |exact Y1|exact Y2].
    - eapply shape_rect, shape_transpose.
    - eapply shape_rect, shape_transpose.
    - unfold agree. now rewrite !map_firstn_transpose, !Dropout_firstn, Ee. }
  destruct Hy as [Hy _].
  eapply mapM_prefix; [|exact D1|exact D2].
  now apply firstn_transpose_back.
Qed.

Lemma forward_rows_causal (m : GEN.t R) (md : option (nat -> nat -> nat -> nat -> bool))
      (i s : nat) (input1 input2 : list (list nat)) (o1 o2 : list (list (list R))) :
  Forall causal_layer (GEN.encoder m) ->
  map (firstn i) input1 = map (firstn i) input2 ->
  mapM (fun bi => GEN.forward1 m (option_map (fun keep => keep (fst bi)) md) (snd bi))
       (combine (seq s (length input1)) input1) = Some o1 ->
  mapM (fun bi => GEN.forward1 m (option_map (fun keep => keep (fst bi)) md) (snd bi))
       (combine (seq s (length input2)) input2) = Some o2 ->
  map (firstn i) o1 = map (firstn i) o2.
Proof.
  intro Hc. revert s input2 o1 o2.
  induction input1 as [|s1 b1 IH]; intros s [|s2 b2] o1 o2 E;
    simpl in E; try discriminate; simpl.
  - intros F1 F2. injection F1 as <-. injection F2 as <-. reflexivity.
  - injection E as Es Eb.
    destruct (GEN.forward1 m _ s1) as [r1|] eqn:E1; cbn [bind]; [|discriminate].
    destruct (mapM _ (combine (seq (S s) (length b1)) b1)) as [t1|] eqn:T1; cbn [bind];
      [|discriminate].
    destruct (GEN.forward1 m _ s2) as [r2|] eqn:E2; cbn [bind]; [|discriminate].
    destruct (mapM _ (combine (seq (S s) (length b2)) b2)) as [t2|] eqn:T2; cbn [bind];
      [|discriminate].
    intros F1 F2. injection F1 as <-. injection F2 as <-. simpl. f_equal.
    + eapply forward1_causal_masked; [exact Hc|exact Es|exact E1|exact E2].
    + eapply IH; [exact Eb|exact T1|exact T2].
Qed.

End TrainingCausality.

(** X5. Causality holds in training mode too: with the same dropout
    masks, two batches that agree row by row before position [i] get the
    same logits before position [i], so no position is trained on a
    token that follows it. *)
Theorem GEN_forward_causal_training {R : Type} `{Scalar R}
        (input_size dic_size output_size hid_size n_levels kernel_size : nat)
        (emb_dropout dropout : R) (w : GEN.params R)
        (md : option (nat -> nat -> nat -> nat -> bool))
        (i : nat) (input1 input2 : list (list nat)) (o1 o2 : list (list (list R))) :
  map (firstn i) input1 = map (firstn i) input2 ->
  GEN.forward (GEN.init input_size dic_size output_size hid_size n_levels kernel_size
                        emb_dropout dropout w) md input1 = Some o1 ->
  GEN.forward (GEN.init input_size dic_size output_size hid_size n_levels kernel_size
                        emb_dropout dropout w) md input2 = Some o2 ->
  map (firstn i) o1 = map (firstn i) o2.
Proof.
  unfold GEN.forward. intros E F1 F2.
  eapply forward_rows_causal; [|exact E|exact F1|exact F2].
  apply GenEncoder_init_causal.
Qed.

Lemma GEN_forward_causal_training_witness :
  exists o1 o2,
    GEN.forward Example.model (Some (fun b s c t => Nat.even (b + s + c + t)))
                [[1; 2; 3]] = Some o1
    /\ GEN.forward Example.model (Some (fun b s c t => Nat.even (b + s + c + t)))
                   [[1; 2; 0]] = Some o2
    /\ o1 <> o2
    /\ map (firstn 2) o1 = map (firstn 2) o2.
Proof.
  eexists. eexists.
  split; [vm_compute; reflexivity|].
  split; [vm_compute; reflexivity|].
  split; [discriminate|].
  apply (@GEN_forward_causal_training Z _ 2 4 4 3 2 3 0%Z 0%Z Example.gen_params
                                      (Some (fun b s c t => Nat.even (b + s + c + t)))
                                      2 [[1; 2; 3]] [[1; 2; 0]]);
    vm_compute; reflexivity.
Defined.

(** ** The receptive field *)

Section WindowFacts.
Context {R : Type} `{Scalar R}.

Lemma agree_back_le (reach reach' t : nat) (x1 x2 : list (list R)) :
  reach' <= reach -> agree_back reach t x1 x2 -> agree_back reach' t x1 x2.
Proof. intros Hle Ha c u Hu Ht. apply Ha; lia. Qed.

Lemma agree_back_earlier (reach p t u : nat) (x1 x2 : list (list R)) :
  u <= t -> t <= u + reach -> agree_back (reach + p) t x1 x2 -> agree_back p u x1 x2.
Proof. intros Hu Ht Ha c v Hv Hw. apply Ha; lia. Qed.

Lemma entries_tab (C L : nat) (F : nat -> nat -> R) (c t : nat) :
  c < C -> t < L -> entries (tab C L F) c t = F c t.
Proof.
  intros Hc Ht. unfold entries, tab.
  rewrite (nth_indep _ [] (map (F 0) (seq 0 L))) by (now rewrite length_map, length_seq).
  rewrite (map_nth (fun c => map (F c) (seq 0 L))), seq_nth by exact Hc.
  now apply nth_map_seq.
Qed.

Lemma entries_tab_eq (C L : nat) (F G : nat -> nat -> R) (c t : nat) :
  (c < C -> t < L -> F c t = G c t) ->
  entries (tab C L F) c t = entries (tab C L G) c t.
Proof.
  intro E. destruct (lt_dec c C) as [Hc|Hc].
  - destruct (lt_dec t L) as [Ht|Ht].
    + rewrite !entries_tab by assumption. now apply E.
    + unfold entries, tab.
      rewrite !(nth_indep (map _ (seq 0 C)) [] (map (F 0) (seq 0 L)))
        by (now rewrite length_map, length_seq).
      rewrite (map_nth (fun c => map (F c) (seq 0 L))).
      rewrite (nth_indep (map _ (seq 0 C)) (map (F 0) (seq 0 L)) (map (G 0) (seq 0 L)))
        by (now rewrite length_map, length_seq).
      rewrite (map_nth (fun c => map (G c) (seq 0 L))).
      rewrite !nth_overflow by (rewrite length_map, length_seq; lia). reflexivity.
  - unfold entries.
    rewrite !(nth_overflow (tab C L _)) by (rewrite tab_length; lia). reflexivity.
Qed.

(** With stride one and left context [padding], the output of a
    convolution at [u] reads the input from [u - padding] to [u]. *)
Lemma at_window (m : Conv1d.t R) (C L : nat) (x1 x2 : list (list R)) (o u : nat) :
  Conv1d.stride m = 1 ->
  Conv1d.padding m = (Conv1d.kernel_size m - 1) * Conv1d.dilation m ->
  shape C L x1 -> shape C L x2 -> u < L ->
  agree_back (Conv1d.padding m) u x1 x2 ->
  Conv1d.at_ m x1 o u = Conv1d.at_ m x2 o u.
Proof.
  intros Hs Hp [L1 F1] [L2 F2] Hu Ha. unfold Conv1d.at_. f_equal.
  apply sum_n_ext. intros c _. apply sum_n_ext. intros j Hj. f_equal.
  rewrite Hs, Nat.mul_1_r.
  assert (Hj' : j * Conv1d.dilation m <= Conv1d.padding m)
    by (rewrite Hp; apply Nat.mul_le_mono_r; lia).
  destruct (lt_dec c C) as [Hc|Hc].
  - assert (E1 : length (nth c x1 []) = L).
    { rewrite Forall_forall in F1. apply F1, nth_In. lia. }
    assert (E2 : length (nth c x2 []) = L).
    { rewrite Forall_forall in F2. apply F2, nth_In. lia. }
    destruct (lt_dec (u + j * Conv1d.dilation m) (Conv1d.padding m)) as [Hlt|Hge].
    + now rewrite !nth_zero_pad_left.
    + rewrite !nth_zero_pad_mid by lia. apply (Ha c); lia.
  - rewrite (nth_overflow x1), (nth_overflow x2) by lia. reflexivity.
Qed.

(** The output of a causal layer at [u] reads the input from
    [u - (kernel_size - 1) * dilation] to [u]. *)
Lemma layer_entries_window (n_in n_out k d : nat) (dr : R) (w : ConvLayer.params R)
      (md : option (nat -> nat -> bool)) (reach t L : nat) (x1 x2 : list (list R)) :
  shape n_in L x1 -> shape n_in L x2 ->
  agree_back (reach + (k - 1) * d) t x1 x2 ->
  agree_back reach t
    (tab n_out L (fun c t => radd (gated n_in n_out k d ((k - 1) * d) dr w md x1 c t)
                                  (residual n_in n_out w x1 c t)))
    (tab n_out L (fun c t => radd (gated n_in n_out k d ((k - 1) * d) dr w md x2 c t)
                                  (residual n_in n_out w x2 c t))).
Proof.
  intros S1 S2 Ha c u Hu Ht. apply entries_tab_eq. intros Hc HuL.
  assert (HY : forall o,
             Conv1d.at_ (ConvLayer.conv
                           (ConvLayer.init n_in n_out k 1 d ((k - 1) * d) dr w)) x1 o u
             = Conv1d.at_ (ConvLayer.conv
                             (ConvLayer.init n_in n_out k 1 d ((k - 1) * d) dr w)) x2 o u).
  { intro o. apply at_window with (C := n_in) (L := L); auto.
    cbn [ConvLayer.conv ConvLayer.init Conv1d.weight_norm Conv1d.padding].
    eapply agree_back_earlier; [exact Hu|exact Ht|exact Ha]. }
  f_equal.
  - unfold gated, dropped, gate. rewrite !HY. reflexivity.
  - unfold residual. destruct (n_in =? n_out).
    + apply (@agree_back_earlier reach ((k - 1) * d) t u x1 x2 Hu Ht Ha c u);
        [lia|apply Nat.le_add_r].
    + apply at_window with (C := n_in) (L := L); auto.
      cbn [Conv1d.padding]. intros c' v Hv Hw.
      apply (@agree_back_earlier reach ((k - 1) * d) t u x1 x2 Hu Ht Ha c' v); [lia|].
      apply Nat.le_trans with (v + 0); [exact Hw|apply Nat.add_le_mono_l, Nat.le_0_l].
Qed.

Lemma mapM_nth {A B : Type} (f : A -> option B) (l : list A) (r : list B) (t : nat)
      (da : A) (db : B) :
  mapM f l = Some r -> t < length l -> f (nth t l da) = Some (nth t r db).
Proof.
  revert r t. induction l as [|a l IH]; intros r t E Ht; simpl in *; [lia|].
  destruct (f a) as [b|] eqn:Eb; cbn [bind] in E; [|discriminate].
  destruct (mapM f l) as [r'|]; cbn [bind] in E; [|discriminate].
  injection E as <-. destruct t as [|t]; simpl; [exact Eb|]. apply IH; [reflexivity|lia].
Qed.

Lemma embed_known (emb : Embedding.t R) (input : list nat) (e : list (list R)) :
  mapM (Embedding.forward emb) input = Some e ->
  Forall (fun tok => tok < Embedding.num_embeddings emb) input.
Proof.
  revert e. induction input as [|tok input IH]; intros e E; [constructor|].
  simpl in E. unfold Embedding.forward at 1 in E.
  destruct (tok <? Embedding.num_embeddings emb) eqn:Et; cbn [bind] in E; [|discriminate].
  destruct (mapM (Embedding.forward emb) input) as [e'|]; cbn [bind] in E; [|discriminate].
  constructor; [now apply Nat.ltb_lt|]. now apply (IH e').
Qed.

Lemma nth_tab_row (C L : nat) (F : nat -> nat -> R) (c : nat) :
  c < C -> nth c (tab C L F) [] = map (F c) (seq 0 L).
Proof.
  intro Hc. unfold tab.
  rewrite (nth_indep _ [] (map (F 0) (seq 0 L))) by (now rewrite length_map, length_seq).
  now rewrite (map_nth (fun c => map (F c) (seq 0 L))), seq_nth by exact Hc.
Qed.

End WindowFacts.

Section EncoderWindow.
Context {R : Type} `{Scalar R}.

Variables (input_size hid_size kernel_size : nat) (dropout : R).
Variable w : nat -> ConvLayer.params R.
Hypothesis Hk : 3 <= kernel_size.
Hypothesis Hin : 0 < input_size.
Hypothesis Hhid : 0 < hid_size.

Lemma reach_step (s n : nat) :
  (kernel_size - 1) * (2 ^ (S s + n) - 2 ^ S s) + (kernel_size - 1) * 2 ^ s
  = (kernel_size - 1) * (2 ^ (s + S n) - 2 ^ s).
Proof.
  rewrite <- Nat.mul_add_distr_l. f_equal.
  assert (Hle : 2 ^ S s <= 2 ^ (S s + n)) by (apply Nat.pow_le_mono_r; lia).
  replace (s + S n) with (S s + n) by lia.
  rewrite (Nat.pow_succ_r' 2 s) in *. lia.
Qed.

Lemma hidden_layers_window (md : option (nat -> nat -> nat -> bool)) (L n : nat) :
  forall (s j reach t : nat) (x1 x2 y1 y2 : list (list R)),
    1 <= s -> shape hid_size L x1 -> shape hid_size L x2 ->
    agree_back (reach + (kernel_size - 1) * (2 ^ (s + n) - 2 ^ s)) t x1 x2 ->
    GenEncoder.Sequential
      (map (fun i =>
              let dilation_size := 2 ^ i in
              if i =? 0
              then ConvLayer.init input_size hid_size kernel_size 1 dilation_size
                                  ((kernel_size - 1) * dilation_size) dropout (w i)
              else ConvLayer.init hid_size hid_size kernel_size 1 dilation_size
                                  ((kernel_size - 1) * dilation_size) dropout (w i))
           (seq s n)) md j x1 = Some y1 ->
    GenEncoder.Sequential
      (map (fun i =>
              let dilation_size := 2 ^ i in
              if i =? 0
              then ConvLayer.init input_size hid_size kernel_size 1 dilation_size
                                  ((kernel_size - 1) * dilation_size) dropout (w i)
              else ConvLayer.init hid_size hid_size kernel_size 1 dilation_size
                                  ((kernel_size - 1) * dilation_size) dropout (w i))
           (seq s n)) md j x2 = Some y2 ->
    agree_back reach t y1 y2.
Proof.
  induction n as [|n IH]; intros s j reach t x1 x2 y1 y2 Hs S1 S2 Ha.
  - simpl. intros E1 E2. injection E1 as <-. injection E2 as <-.
    eapply agree_back_le; [|exact Ha]. apply Nat.le_add_r.
  - cbn [seq map GenEncoder.Sequential]. cbv zeta.
    replace (s =? 0) with false by (symmetry; apply Nat.eqb_neq; lia).
    assert (Hpow : 1 <= 2 ^ s) by (pose proof (Nat.pow_nonzero 2 s); lia).
    rewrite !forward_causal;
      try solve [auto | apply S1 | apply S2 | eapply shape_rect; eassumption].
    cbn [bind]. rewrite (shape_width S1 Hhid), (shape_width S2 Hhid).
    apply IH; [lia|apply shape_tab|apply shape_tab|].
    apply layer_entries_window; [exact S1|exact S2|].
    rewrite <- Nat.add_assoc, reach_step. exact Ha.
Qed.

Lemma encoder_window (md : option (nat -> nat -> nat -> bool)) (n_levels L reach t : nat)
      (x1 x2 y1 y2 : list (list R)) :
  1 <= n_levels -> 1 <= L -> shape input_size L x1 -> shape input_size L x2 ->
  agree_back (reach + (kernel_size - 1) * (2 ^ n_levels - 1)) t x1 x2 ->
  GenEncoder.forward
    (GenEncoder.init input_size hid_size n_levels kernel_size dropout w) md x1 = Some y1 ->
  GenEncoder.forward
    (GenEncoder.init input_size hid_size n_levels kernel_size dropout w) md x2 = Some y2 ->
  agree_back reach t y1 y2.
Proof.
  intros Hn HL S1 S2 Ha. unfold GenEncoder.forward, GenEncoder.init.
  destruct n_levels as [|n]; [lia|].
  cbn [seq map GenEncoder.Sequential]. cbv zeta. cbn [Nat.eqb].
  rewrite !forward_causal;
    try solve [auto | apply S1 | apply S2 | eapply shape_rect; eassumption
               | right; rewrite (shape_width S1 Hin); exact HL
               | right; rewrite (shape_width S2 Hin); exact HL].
  cbn [bind]. rewrite (shape_width S1 Hin), (shape_width S2 Hin).
  apply hidden_layers_window with (L := L); [lia|apply shape_tab|apply shape_tab|].
  apply layer_entries_window; [exact S1|exact S2|].
  rewrite <- Nat.add_assoc, (reach_step 0 n). cbn [Nat.add Nat.pow]. exact Ha.
Qed.

End EncoderWindow.

Lemma forward_row {R : Type} `{Scalar R} (m : GEN.t R) (md : option (nat -> nat -> nat -> nat -> bool))
      (input : list (list nat)) (o : list (list (list R))) (b : nat) :
  GEN.forward m md input = Some o -> b < length input ->
  GEN.forward1 m (option_map (fun keep => keep b) md) (nth b input []) = Some (nth b o []).
Proof.
  unfold GEN.forward. intros E Hb.
  apply mapM_nth with (t := b) (da := (0, [])) (db := []) in E;
    [|rewrite length_combine, length_seq; lia].
  rewrite combine_nth in E by (now rewrite length_seq).
  rewrite seq_nth in E by exact Hb. exact E.
Qed.

Section ModelWindow.
Context {R : Type} `{Scalar R}.

Variables (input_size dic_size output_size hid_size n_levels kernel_size : nat).
Variables (emb_dropout dropout : R) (w : GEN.params R).
Hypothesis Hk : 3 <= kernel_size.
Hypothesis Hlev : 1 <= n_levels.
Hypothesis Hin : 0 < input_size.
Hypothesis Hhid : 0 < hid_size.

Lemma forward1_window (md : option (nat -> nat -> nat -> bool)) (s1 s2 : list nat)
      (o1 o2 : list (list R)) (t : nat) :
  length s1 = length s2 -> t < length s1 ->
  (forall u, u <= t -> t <= u + (kernel_size - 1) * (2 ^ n_levels - 1) ->
             nth u s1 0 = nth u s2 0) ->
  GEN.forward1 (GEN.init input_size dic_size output_size hid_size n_levels kernel_size
                         emb_dropout dropout w) md s1 = Some o1 ->
  GEN.forward1 (GEN.init input_size dic_size output_size hid_size n_levels kernel_size
                         emb_dropout dropout w) md s2 = Some o2 ->
  nth t o1 [] = nth t o2 [].
Proof.
  intros Hlen Ht Htok. unfold GEN.forward1.
  cbn [GEN.init GEN.emb GEN.drop GEN.encoder GEN.decoder Embedding.embedding_dim].
  destruct (mapM (Embedding.forward (Embedding.Build dic_size input_size (GEN.emb_weight w)))
                 s1) as [e1|] eqn:E1; cbn [bind]; [|discriminate].
  destruct (mapM (Embedding.forward (Embedding.Build dic_size input_size (GEN.emb_weight w)))
                 s2) as [e2|] eqn:E2; cbn [bind]; [|discriminate].
  rewrite (embed_tab _ (embed_known _ _ E1)) in E1. injection E1 as <-.
  rewrite (embed_tab _ (embed_known _ _ E2)) in E2. injection E2 as <-.
  cbn [Embedding.embedding_dim Embedding.weight].
  rewrite !Dropout_tab, !transpose_tab, <- Hlen.
  set (L := length s1) in *.
  set (md0 := option_map (fun keep => keep 0) md).
  set (x1 := tab input_size L
                 (fun c t => dropped emb_dropout md0
                                     (fun t c => GEN.emb_weight w (nth t s1 0) c) t c)).
  set (x2 := tab input_size L
                 (fun c t => dropped emb_dropout md0
                                     (fun t c => GEN.emb_weight w (nth t s2 0) c) t c)).
  assert (HL : 1 <= L) by lia.
  destruct (@encoder_shape _ _ input_size hid_size kernel_size dropout
                           (GEN.encoder_params w) Hk Hin Hhid md n_levels L x1 Hlev HL
                           (shape_tab input_size L _)) as [Y1 EY1].
  destruct (@encoder_shape _ _ input_size hid_size kernel_size dropout
                           (GEN.encoder_params w) Hk Hin Hhid md n_levels L x2 Hlev HL
                           (shape_tab input_size L _)) as [Y2 EY2].
  assert (Ha : agree_back 0 t (tab hid_size L Y1) (tab hid_size L Y2)).
  { apply (@encoder_window _ _ input_size hid_size kernel_size dropout
                           (GEN.encoder_params w) Hk Hin Hhid md n_levels L 0 t x1 x2
                           _ _ Hlev HL (shape_tab _ _ _) (shape_tab _ _ _));
      [|exact EY1|exact EY2].
    intros c u Hu Hw. apply entries_tab_eq. intros _ _.
    unfold dropped. now rewrite (Htok u Hu Hw). }
  rewrite EY1, EY2. cbn [bind]. rewrite !(width_tab _ _ Hhid), !transpose_tab.
  intros D1 D2.
  apply mapM_nth with (t := t) (da := []) (db := []) in D1; [|now rewrite tab_length].
  apply mapM_nth with (t := t) (da := []) (db := []) in D2; [|now rewrite tab_length].
  rewrite !nth_tab_row in D1, D2 by exact Ht.
  assert (Erow : map (fun c => Y1 c t) (seq 0 hid_size)
                 = map (fun c => Y2 c t) (seq 0 hid_size)).
  { apply map_ext_in. intros c Hc. apply in_seq in Hc.
    rewrite <- (@entries_tab _ _ hid_size L Y1 c t) by lia.
    rewrite <- (@entries_tab _ _ hid_size L Y2 c t) by lia.
    apply Ha; lia. }
  rewrite Erow, D2 in D1. now injection D1.
Qed.

End ModelWindow.

(** X4. The receptive field of the generator: with at least three taps
    and one level, the logits of row [b] at position [t] are a function
    of the last [(kernel_size - 1) * (2 ^ n_levels - 1) + 1] tokens of
    that row up to [t] only.  Two batches whose rows [b] have the same
    length and the same tokens there get the same logits at [(b, t)],
    in either mode (with the same masks). *)
Theorem GEN_receptive_field {R : Type} `{Scalar R}
        (input_size dic_size output_size hid_size n_levels kernel_size : nat)
        (emb_dropout dropout : R) (w : GEN.params R)
        (md : option (nat -> nat -> nat -> nat -> bool))
        (input1 input2 : list (list nat)) (o1 o2 : list (list (list R))) (b t : nat) :
  3 <= kernel_size -> 1 <= n_levels -> 0 < input_size -> 0 < hid_size ->
  b < length input1 -> b < length input2 ->
  length (nth b input1 []) = length (nth b input2 []) ->
  t < length (nth b input1 []) ->
  (forall u, u <= t -> t < u + receptive_field kernel_size n_levels ->
             nth u (nth b input1 []) 0 = nth u (nth b input2 []) 0) ->
  GEN.forward (GEN.init input_size dic_size output_size hid_size n_levels kernel_size
                        emb_dropout dropout w) md input1 = Some o1 ->
  GEN.forward (GEN.init input_size dic_size output_size hid_size n_levels kernel_size
                        emb_dropout dropout w) md input2 = Some o2 ->
  nth t (nth b o1 []) [] = nth t (nth b o2 []) [].
Proof.
  intros Hk Hlev Hin Hhid Hb1 Hb2 Hlen Ht Htok F1 F2.
  apply forward_row with (b := b) in F1; [|exact Hb1].
  apply forward_row with (b := b) in F2; [|exact Hb2].
  eapply (@forward1_window _ _ input_size dic_size output_size hid_size n_levels kernel_size
                           emb_dropout dropout w Hk Hlev Hin Hhid
                           (option_map (fun keep => keep b) md));
    [exact Hlen|exact Ht| |exact F1|exact F2].
  intros u Hu Hw. apply Htok; [exact Hu|]. unfold receptive_field. lia.
Qed.

Lemma GEN_receptive_field_witness :
  exists o1 o2,
    GEN.forward Example.model None [[1; 0; 3; 0; 1; 0; 3; 0; 1]] = Some o1
    /\ GEN.forward Example.model None [[3; 3; 3; 0; 1; 0; 3; 0; 1]] = Some o2
    /\ nth 7 (nth 0 o1 []) [] <> nth 7 (nth 0 o2 []) []
    /\ nth 8 (nth 0 o1 []) [] = nth 8 (nth 0 o2 []) [].
Proof.
  eexists. eexists.
  split; [vm_compute; reflexivity|].
  split; [vm_compute; reflexivity|].
  split; [vm_compute; discriminate|].
  apply (@GEN_receptive_field Z _ 2 4 4 3 2 3 0%Z 0%Z Example.gen_params None
                              [[1; 0; 3; 0; 1; 0; 3; 0; 1]]
                              [[3; 3; 3; 0; 1; 0; 3; 0; 1]]);
    try (simpl; lia); try (vm_compute; reflexivity).
  intros u Hu Hw. unfold receptive_field in Hw. simpl in Hw.
  do 9 (destruct u as [|u]; [try lia; reflexivity|]). lia.
Defined.
